(** * High Leverage Humans: form controller, service worker and
      email-capture endpoint

    A shallow embedding of the JavaScript sources

      - [public/assets/js/forms.js]      (class [FormController])
      - [public/service-worker.js]       (cache strategy dispatcher)
      - [functions/index.js]             (the [/email-capture] handler)

    followed by the properties the specification states about them.

    JavaScript strings are sequences of UTF-16 code units and are modelled
    as [list N], so that [\s], [\d], [trim], [split], [startsWith] and
    [endsWith] keep their meaning on every input.  Texts that are only
    displayed or logged (messages, event names) are plain [string]s.

    Asynchronous functions are cut at their [await]s: what runs before the
    first suspension is one function, what runs after the awaited promise
    settles is another, and the platform (network, timers, Firestore, the
    Cache API) answers through explicit arguments. *)

From stdpp Require Import base numbers list strings gmap sorting.
From Stdlib Require Import Ascii.

(* ===================================================================== *)
(** * JavaScript strings and Maps                                         *)
(* ===================================================================== *)

Module JsString.

(** One UTF-16 code unit. *)
Definition code := N.
Definition jsstring := list code.

(** A literal. *)
Fixpoint js (s : string) : jsstring :=
  match s with
  | EmptyString => []
  | String a s' => N_of_ascii a :: js s'
  end.

(** [\s] of ECMAScript, which is also the set [String.prototype.trim]
    strips: the WhiteSpace and LineTerminator code points. *)
Definition is_space (c : code) : bool :=
  ((9 <=? c) && (c <=? 13)
   || (c =? 32) || (c =? 160) || (c =? 5760)
   || (8192 <=? c) && (c <=? 8202)
   || (c =? 8232) || (c =? 8233) || (c =? 8239) || (c =? 8287)
   || (c =? 12288) || (c =? 65279))%N.

(** [\d]: the ASCII digits. *)
Definition is_digit (c : code) : bool := ((48 <=? c) && (c <=? 57))%N.

Fixpoint trimStart (s : jsstring) : jsstring :=
  match s with
  | c :: s' => if is_space c then trimStart s' else s
  | [] => []
  end.

Definition trim (s : jsstring) : jsstring :=
  rev (trimStart (rev (trimStart s))).

(** [s.split(sep)] for a separator of one code unit: never empty, and
    [[s]] when [sep] does not occur. *)
Fixpoint split (sep : code) (s : jsstring) : list jsstring :=
  match s with
  | [] => [[]]
  | c :: s' =>
      if decide (c = sep) then [] :: split sep s'
      else match split sep s' with
           | w :: ws => (c :: w) :: ws
           | [] => [[c]]
           end
  end.

(** [toLowerCase] on the ASCII letters.  Every use in the sources
    compares the result with ASCII literals in which no [k] occurs, and
    the only code unit outside ASCII whose lower case is an ASCII
    letter alone is the Kelvin sign, so these comparisons come out as
    in JavaScript. *)
Definition lower_code (c : code) : code :=
  if ((65 <=? c) && (c <=? 90))%N then (c + 32)%N else c.
Definition toLowerCase (s : jsstring) : jsstring := map lower_code s.

Definition startsWith (s p : jsstring) : bool := bool_decide (p `prefix_of` s).
Definition endsWith (s p : jsstring) : bool := bool_decide (p `suffix_of` s).

(** [array.includes(x)] *)
Definition includes (l : list jsstring) (x : jsstring) : bool :=
  bool_decide (x ∈ l).

(** Truthiness of a string: non-empty. *)
Definition truthy (s : jsstring) : bool :=
  match s with [] => false | _ => true end.

(** [a || b] on strings. *)
Definition or_else (a b : jsstring) : jsstring := if truthy a then a else b.

End JsString.
Import JsString.

(** A JavaScript [Map] (and the name-to-store table of [CacheStorage]):
    keys in insertion order, [set] on a present key replaces the value in
    place. *)
Module JsMap.
Section Ops.
Context {K V : Type} `{EqDecision K}.

Definition t := list (K * V).

Fixpoint get (k : K) (m : list (K * V)) : option V :=
  match m with
  | [] => None
  | (k', v) :: m' => if decide (k = k') then Some v else get k m'
  end.

Fixpoint set (k : K) (v : V) (m : list (K * V)) : list (K * V) :=
  match m with
  | [] => [(k, v)]
  | (k', v') :: m' =>
      if decide (k = k') then (k, v) :: m' else (k', v') :: set k v m'
  end.

Fixpoint delete (k : K) (m : list (K * V)) : list (K * V) :=
  match m with
  | [] => []
  | (k', v) :: m' =>
      if decide (k = k') then delete k m' else (k', v) :: delete k m'
  end.

Definition keys (m : list (K * V)) : list K := map fst m.
Definition values (m : list (K * V)) : list V := map snd m.

(** [m.forEach(v => ... v is mutated ...)] *)
Definition map_values (f : V → V) (m : list (K * V)) : list (K * V) :=
  map (λ kv, (kv.1, f kv.2)) m.
End Ops.
End JsMap.

(** An awaited promise either resolves or rejects. *)
Inductive settled (A E : Type) : Type :=
| Resolved (a : A)
| Rejected (e : E).
Arguments Resolved {A E} a.
Arguments Rejected {A E} e.

Record JsError := { error_name : string; error_message : string }.

(* ===================================================================== *)
(** * Regular expressions                                                 *)
(* ===================================================================== *)

(** The two regular expressions of [forms.js] are built from character
    classes, concatenation, [?] and [+], and are anchored at both ends.
    [RegExp.prototype.test] on such an expression decides whether the
    whole string is in its language; it is modelled by matching with
    derivatives, and shown below to agree with the declarative [matches]. *)

Module Regex.

Inductive regex : Type :=
| Void : regex
| Eps : regex
| Class : (code → bool) → regex
| Seq : regex → regex → regex
| Alt : regex → regex → regex
| Star : regex → regex.

(** [r+] and [r?] *)
Definition Plus (r : regex) : regex := Seq r (Star r).
Definition Opt (r : regex) : regex := Alt Eps r.

Inductive matches : regex → jsstring → Prop :=
| MEps : matches Eps []
| MClass p c : p c = true → matches (Class p) [c]
| MSeq r1 r2 s1 s2 :
    matches r1 s1 → matches r2 s2 → matches (Seq r1 r2) (s1 ++ s2)
| MAltL r1 r2 s : matches r1 s → matches (Alt r1 r2) s
| MAltR r1 r2 s : matches r2 s → matches (Alt r1 r2) s
| MStarNil r : matches (Star r) []
| MStarApp r s1 s2 :
    matches r s1 → matches (Star r) s2 → matches (Star r) (s1 ++ s2).

Fixpoint nullable (r : regex) : bool :=
  match r with
  | Void => false
  | Eps => true
  | Class _ => false
  | Seq r1 r2 => nullable r1 && nullable r2
  | Alt r1 r2 => nullable r1 || nullable r2
  | Star _ => true
  end.

Fixpoint deriv (c : code) (r : regex) : regex :=
  match r with
  | Void => Void
  | Eps => Void
  | Class p => if p c then Eps else Void
  | Seq r1 r2 =>
      if nullable r1
      then Alt (Seq (deriv c r1) r2) (deriv c r2)
      else Seq (deriv c r1) r2
  | Alt r1 r2 => Alt (deriv c r1) (deriv c r2)
  | Star r1 => Seq (deriv c r1) (Star r1)
  end.

(** [re.test(s)] for an anchored expression [re]. *)
Fixpoint test (r : regex) (s : jsstring) : bool :=
  match s with
  | [] => nullable r
  | c :: s' => test (deriv c r) s'
  end.

End Regex.
Import Regex.

(* ===================================================================== *)
(** * forms.js: the validators                                            *)
(* ===================================================================== *)

Module Validators.

Definition at_sign : code := 64%N.
Definition dot : code := 46%N.

(** [[^\s@]] *)
Definition not_space_at (c : code) : bool :=
  negb (is_space c || (c =? at_sign)%N).

(** [/^[^\s@]+@[^\s@]+\.[^\s@]+$/] *)
Definition emailRegex : regex :=
  Seq (Plus (Class not_space_at))
    (Seq (Class (N.eqb at_sign))
       (Seq (Plus (Class not_space_at))
          (Seq (Class (N.eqb dot))
             (Plus (Class not_space_at))))).

(** [[\d\s\-\(\)]] *)
Definition phone_char (c : code) : bool :=
  is_digit c || is_space c || (c =? 45)%N || (c =? 40)%N || (c =? 41)%N.

(** [/^[\+]?[\d\s\-\(\)]+$/] *)
Definition phoneRegex : regex :=
  Seq (Opt (Class (N.eqb 43%N))) (Plus (Class phone_char)).

Record validator := {
  validate : jsstring → bool;
  message : string
}.

Definition email_validator : validator :=
  {| validate := λ value, test emailRegex value;
     message := "Please enter a valid email address" |}.

(** [value && value.trim().length > 0] *)
Definition required_validator : validator :=
  {| validate := λ value,
       truthy value && bool_decide (0 < length (trim value));
     message := "This field is required" |}.

(** [value && value.trim().length >= 2] *)
Definition name_validator : validator :=
  {| validate := λ value,
       truthy value && bool_decide (2 ≤ length (trim value));
     message := "Name must be at least 2 characters long" |}.

(** [!value || phoneRegex.test(value)] *)
Definition phone_validator : validator :=
  {| validate := λ value, negb (truthy value) || test phoneRegex value;
     message := "Please enter a valid phone number" |}.

(** [setupValidators]: the registry [this.validators] it leaves. *)
Definition setupValidators : list (jsstring * validator) :=
  JsMap.set (js "phone") phone_validator
    (JsMap.set (js "name") name_validator
       (JsMap.set (js "required") required_validator
          (JsMap.set (js "email") email_validator []))).

(** A string lacks an [@]; a string lacks a domain segment when no [@]
    in it is followed by anything. *)
Definition lacks_at (s : jsstring) : Prop := at_sign ∉ s.
Definition lacks_domain (s : jsstring) : Prop :=
  ∀ l d, s = l ++ at_sign :: d → d = [].

End Validators.
Import Validators.

(* ===================================================================== *)
(** * forms.js: the form controller                                       *)
(* ===================================================================== *)

(** The state of a [FormController] and of the part of the page it reads
    and writes: the value, validity flags and error text of every field it
    tracks, the submit button of every form, the element that has focus,
    the pending timers and the submissions in flight.  Success and error
    banners, analytics tracking and the [form:success] / [form:error]
    events are written by the controller and never read back; they are
    left out, and so is [destroy], which ends the session.  So is the
    body of a submission: [collectFormData] reads it off the document
    with [new FormData(form)] and adds [_metadata] (time, user agent,
    referrer, URL), none of which the controller keeps; a request is
    recorded by the form it submits.  A field is identified by the index
    of its form and the key under which [initializeField] stored it. *)

Module Forms.

Module Field.
(** [fieldConfig], with the state of [fieldConfig.element] and
    [fieldConfig.errorElement] it points to.  [createErrorElement]
    makes the error element only when the document has none under
    the id [(field.id || field.name) + '_error']: two controls with
    the same id-or-name point to one element, and what one of them
    writes there the other shows.  [errorText] and [errorVisible]
    are what was last written through this field; they are the state
    of its error element on a page where no two controls share one
    ([own_error_elements] below). *)
Record t := mk {
  name : jsstring;
  value : jsstring;              (* element.value *)
  originalValue : jsstring;
  validators : list jsstring;
  isValid : bool;
  errorText : string;            (* errorElement.textContent *)
  errorVisible : bool;           (* errorElement: class is-visible *)
  is_valid : bool;               (* element: class is-valid *)
  is_invalid : bool;             (* element: class is-invalid *)
  is_focused : bool              (* element: class is-focused *)
}.

Definition with_value (v : jsstring) (f : t) : t :=
  mk (name f) v (originalValue f) (validators f) (isValid f)
     (errorText f) (errorVisible f) (is_valid f) (is_invalid f) (is_focused f).
Definition with_error (txt : string) (vis : bool) (f : t) : t :=
  mk (name f) (value f) (originalValue f) (validators f) (isValid f)
     txt vis (is_valid f) (is_invalid f) (is_focused f).
Definition with_validity (v cv ci : bool) (f : t) : t :=
  mk (name f) (value f) (originalValue f) (validators f) v
     (errorText f) (errorVisible f) cv ci (is_focused f).
Definition with_focused (b : bool) (f : t) : t :=
  mk (name f) (value f) (originalValue f) (validators f) (isValid f)
     (errorText f) (errorVisible f) (is_valid f) (is_invalid f) b.
End Field.

Record Button := mkButton {
  disabled : bool;
  is_disabled : bool;              (* class is-disabled *)
  button_is_loading : bool;        (* class is-loading *)
  textContent : jsstring;
  originalText : option jsstring   (* dataset.originalText *)
}.

Module Form.
(** [formConfig], with the state of its [element] and [submitButton]. *)
Record t := mk {
  formType : jsstring;
  fields : list (jsstring * Field.t);
  isValid : bool;
  submitButton : option Button;
  loadingState : bool;
  is_loading : bool;             (* element: class is-loading *)
  resetOnSuccess : bool          (* dataset.resetOnSuccess !== 'false' *)
}.

Definition with_fields (fs : list (jsstring * Field.t)) (fc : t) : t :=
  mk (formType fc) fs (isValid fc) (submitButton fc) (loadingState fc)
     (is_loading fc) (resetOnSuccess fc).
Definition with_isValid (v : bool) (fc : t) : t :=
  mk (formType fc) (fields fc) v (submitButton fc) (loadingState fc)
     (is_loading fc) (resetOnSuccess fc).
Definition with_submitButton (b : option Button) (fc : t) : t :=
  mk (formType fc) (fields fc) (isValid fc) b (loadingState fc)
     (is_loading fc) (resetOnSuccess fc).
Definition with_loading (l : bool) (fc : t) : t :=
  mk (formType fc) (fields fc) (isValid fc) (submitButton fc) l l
     (resetOnSuccess fc).

(** The object stored under key [k] is mutated by [g]. *)
Definition alter_field (k : jsstring) (g : Field.t → Field.t) (fc : t) : t :=
  with_fields
    (map (λ kf, if decide (kf.1 = k) then (kf.1, g kf.2) else kf) (fields fc))
    fc.
End Form.

(** A timer set with [setTimeout] and not yet fired or cleared. *)
Inductive timer : Type :=
| ValidationTimer (i : nat) (k : jsstring)  (* debouncedValidation *)
| ResetTimer (i : nat).                     (* handleSubmissionSuccess *)

Global Instance timer_eq_dec : EqDecision timer.
Proof. solve_decision. Defined.

Definition element : Type := nat * jsstring.

Record Controller := mkController {
  forms : list Form.t;
  isSubmitting : bool;
  activeElement : option element;            (* document.activeElement *)
  requests : list nat;                       (* every fetch issued, by its form *)
  inflight : list nat;                       (* fetches not yet settled *)
  timers : list timer
}.

Definition with_forms (fs : list Form.t) (s : Controller) : Controller :=
  mkController fs (isSubmitting s) (activeElement s) (requests s)
               (inflight s) (timers s).
Definition with_activeElement (a : option element) (s : Controller) : Controller :=
  mkController (forms s) (isSubmitting s) a (requests s) (inflight s) (timers s).
Definition with_timers (ts : list timer) (s : Controller) : Controller :=
  mkController (forms s) (isSubmitting s) (activeElement s) (requests s)
               (inflight s) ts.

Definition alter_form (i : nat) (g : Form.t → Form.t) (s : Controller) : Controller :=
  with_forms (alter g i (forms s)) s.

(** ** Field validation *)

Definition showFieldError (message : string) (f : Field.t) : Field.t :=
  Field.with_error message true f.

Definition clearFieldError (f : Field.t) : Field.t :=
  Field.with_error "" false f.

(** The [for ... of validators] loop of [validateField]: the message of
    the first registered validator that rejects [value]; names with no
    registered validator are skipped. *)
Fixpoint first_failure (validators : list jsstring) (value : jsstring)
  : option string :=
  match validators with
  | [] => None
  | validatorName :: rest =>
      match JsMap.get (trim validatorName) setupValidators with
      | Some validator =>
          if validate validator value then first_failure rest value
          else Some (message validator)
      | None => first_failure rest value
      end
  end.

Definition validateField (f : Field.t) : Field.t * bool :=
  let value := trim (Field.value f) in
  match first_failure (Field.validators f) value with
  | None => (clearFieldError (Field.with_validity true true false f), true)
  | Some errorMessage =>
      (showFieldError errorMessage (Field.with_validity false false true f),
       false)
  end.

Definition updateFormValidation (fc : Form.t) : Form.t :=
  let allFieldsValid :=
    forallb (λ field, Field.isValid field
                      || bool_decide (length (Field.validators field) = 0))
            (JsMap.values (Form.fields fc)) in
  let fc' := Form.with_isValid allFieldsValid fc in
  Form.with_submitButton
    ((λ b, mkButton (negb allFieldsValid || Form.loadingState fc')
                    (negb allFieldsValid)
                    (button_is_loading b) (textContent b) (originalText b))
       <$> Form.submitButton fc')
    fc'.

Definition validateForm (fc : Form.t) : Form.t * bool :=
  let isValid :=
    forallb (λ f, (validateField f).2) (JsMap.values (Form.fields fc)) in
  (Form.with_isValid isValid
     (Form.with_fields
        (JsMap.map_values (λ f, (validateField f).1) (Form.fields fc)) fc),
   isValid).

(** ** Focus *)

(** The two [blur] listeners of a tracked field. *)
Definition on_blur (a : element) (s : Controller) : Controller :=
  alter_form a.1
    (λ fc, Form.alter_field a.2 (Field.with_focused false)
             (updateFormValidation
                (Form.alter_field a.2 (λ f, (validateField f).1) fc)))
    s.

(** The [focus] listener of a tracked field. *)
Definition on_focus (a : element) (s : Controller) : Controller :=
  alter_form a.1
    (Form.alter_field a.2 (λ f, clearFieldError (Field.with_focused true f)))
    s.

(** [element.focus()]: nothing happens when the element already has
    focus; otherwise the element that had it receives [blur] and the
    new one [focus]. *)
Definition focus_element (target : element) (s : Controller) : Controller :=
  if decide (activeElement s = Some target) then s
  else
    let s1 := match activeElement s with
              | Some previous => on_blur previous s
              | None => s
              end in
    on_focus target (with_activeElement (Some target) s1).

Definition focusFirstInvalidField (i : nat) (s : Controller) : Controller :=
  match forms s !! i with
  | Some fc =>
      match List.find (λ kf, negb (Field.isValid kf.2)) (Form.fields fc) with
      | Some firstInvalidField => focus_element (i, firstInvalidField.1) s
      | None => s
      end
  | None => s
  end.

(** ** Submission *)

Definition setFormLoadingState (i : nat) (isLoading : bool) (s : Controller)
  : Controller :=
  let g (fc : Form.t) :=
    Form.with_submitButton
      ((λ b,
         let originalText :=
           match originalText b with
           | Some t => or_else t (textContent b)
           | None => textContent b
           end in
         mkButton isLoading (is_disabled b) isLoading
           (if isLoading then js "Submitting..." else originalText)
           (match Forms.originalText b with
            | Some t => if truthy t then Some t else Some originalText
            | None => Some originalText
            end))
         <$> Form.submitButton fc)
      (Form.with_loading isLoading fc) in
  mkController (alter g i (forms s)) isLoading (activeElement s)
               (requests s) (inflight s) (timers s).

(** [handleSubmit] up to its first suspension, the [fetch] inside
    [submitToAPI]. *)
Definition handleSubmit (i : nat) (s : Controller) : Controller :=
  match forms s !! i with
  | None => s
  | Some formConfig =>
      if isSubmitting s || Form.loadingState formConfig then s
      else
        let '(formConfig', isValid) := validateForm formConfig in
        let s1 := with_forms (<[i := formConfig']> (forms s)) s in
        if negb isValid then focusFirstInvalidField i s1
        else
          let s2 := setFormLoadingState i true s1 in
          mkController (forms s2) (isSubmitting s2) (activeElement s2)
            (requests s2 ++ [i])
            (inflight s2 ++ [i]) (timers s2)
  end.

Fixpoint remove_one {A} `{EqDecision A} (x : A) (l : list A) : list A :=
  match l with
  | [] => []
  | y :: l' => if decide (x = y) then l' else y :: remove_one x l'
  end.

(** [handleSubmit] from the moment the awaited submission settles:
    [handleSubmissionSuccess] or the [catch] block, then [finally]. *)
Definition handleSubmit_settled (i : nat) (result : settled unit JsError)
    (s : Controller) : Controller :=
  let s1 :=
    match result, forms s !! i with
    | Resolved _, Some fc =>
        if Form.resetOnSuccess fc
        then with_timers (timers s ++ [ResetTimer i]) s
        else s
    | _, _ => s
    end in
  let s2 := setFormLoadingState i false s1 in
  mkController (forms s2) (isSubmitting s2) (activeElement s2) (requests s2)
               (remove_one i (inflight s2)) (timers s2).

(** [resetForm].  [formConfig.element.reset()] gives every control its
    default value back; the default is taken to be the value the
    control had when it was initialized. *)
Definition resetForm (i : nat) (s : Controller) : Controller :=
  alter_form i
    (λ fc,
       updateFormValidation
         (Form.with_fields
            (JsMap.map_values
               (λ f, Field.with_validity false false false
                       (clearFieldError
                          (Field.with_value (Field.originalValue f) f)))
               (Form.fields fc))
            fc))
    s.

(** ** Events *)

(** The [input] listener: the field's pending debounce timer is cleared
    and a new one is set. *)
Definition on_input (i : nat) (k : jsstring) (v : jsstring) (s : Controller)
  : Controller :=
  with_timers
    (List.filter (λ t, negb (bool_decide (t = ValidationTimer i k))) (timers s)
       ++ [ValidationTimer i k])
    (alter_form i (Form.alter_field k (Field.with_value v)) s).

Definition fire (t : timer) (s : Controller) : Controller :=
  match t with
  | ValidationTimer i k =>
      alter_form i
        (λ fc, updateFormValidation
                 (Form.alter_field k (λ f, (validateField f).1) fc))
        s
  | ResetTimer i => resetForm i s
  end.

Definition has_field (i : nat) (k : jsstring) (s : Controller) : bool :=
  match forms s !! i with
  | Some fc => bool_decide (k ∈ JsMap.keys (Form.fields fc))
  | None => false
  end.

Inductive event : Type :=
| Input (i : nat) (k : jsstring) (v : jsstring)
| Focus (i : nat) (k : jsstring)
| Blur
| Submit (i : nat)
| TimerFires (t : timer)
| FetchSettles (i : nat) (result : settled unit JsError).

(** One turn of the event loop; [None] when the event cannot occur. *)
Definition step (s : Controller) (e : event) : option Controller :=
  match e with
  | Input i k v =>
      if has_field i k s then Some (on_input i k v s) else None
  | Focus i k =>
      if has_field i k s then Some (focus_element (i, k) s) else None
  | Blur =>
      match activeElement s with
      | Some a => Some (with_activeElement None (on_blur a s))
      | None => None
      end
  | Submit i =>
      if bool_decide (i < length (forms s)) then Some (handleSubmit i s)
      else None
  | TimerFires t =>
      if bool_decide (t ∈ timers s)
      then Some (fire t (with_timers (remove_one t (timers s)) s))
      else None
  | FetchSettles i result =>
      if bool_decide (i ∈ inflight s)
      then Some (handleSubmit_settled i result s)
      else None
  end.

Fixpoint run (s : Controller) (es : list event) : option Controller :=
  match es with
  | [] => Some s
  | e :: es' =>
      match step s e with
      | Some s' => run s' es'
      | None => None
      end
  end.

(** ** Initialization *)

(** What [initializeForms] reads from the page. *)
Record DomField := {
  dom_name : jsstring;         (* field.name || field.id *)
  dom_error_key : jsstring;    (* field.id || field.name *)
  dom_validators : jsstring;   (* field.dataset.validators || '' *)
  dom_value : jsstring         (* field.value *)
}.

Record DomForm := {
  dom_formType : jsstring;
  dom_fields : list DomField;
  dom_submit : option (bool * jsstring);   (* disabled, textContent *)
  dom_resetOnSuccess : bool
}.

Definition comma : code := 44%N.

Definition initializeField (field : DomField) (fields : list (jsstring * Field.t))
  : list (jsstring * Field.t) :=
  let fieldName := dom_name field in
  let validators :=
    List.filter (λ v, truthy (trim v)) (split comma (dom_validators field)) in
  JsMap.set fieldName
    (Field.mk fieldName (dom_value field) (dom_value field) validators
              false "" false false false false)
    fields.

Definition initializeForm (form : DomForm) : Form.t :=
  Form.mk (dom_formType form)
    (foldl (λ fields field, initializeField field fields) [] (dom_fields form))
    false
    ((λ b, mkButton b.1 false false b.2 None) <$> dom_submit form)
    false false (dom_resetOnSuccess form).

Definition initializeForms (page : list DomForm) : Controller :=
  mkController (map initializeForm page) false None [] [] [].

Inductive reachable (page : list DomForm) : Controller → Prop :=
| reachable_init : reachable page (initializeForms page)
| reachable_step s e s' :
    reachable page s → step s e = Some s' → reachable page s'.

(** ** The properties stated of a form session *)

(** A field is invalid under its assigned validators. *)
Definition invalid (f : Field.t) : Prop := (validateField f).2 = false.

(** [k] is the first field of [fc] that is invalid. *)
Definition first_invalid (fc : Form.t) (k : jsstring) : Prop :=
  ∃ before f after,
    Form.fields fc = before ++ (k, f) :: after ∧
    Forall (λ kf, ¬ invalid kf.2) before ∧ invalid f.





(** ** The in-flight lock *)

(** What a handler cannot touch when all it does is mutate form
    configurations that keep their [loadingState]. *)
Definition same_lock (s s' : Controller) : Prop :=
  isSubmitting s' = isSubmitting s ∧ inflight s' = inflight s ∧
  requests s' = requests s ∧
  ∀ j fc', forms s' !! j = Some fc' →
           ∃ fc, forms s !! j = Some fc ∧
                 Form.loadingState fc' = Form.loadingState fc.

(** [isSubmitting] is set exactly while one submission is in flight,
    and the form whose submission it is, and no other, is loading. *)
Definition lock_inv (s : Controller) : Prop :=
  ((isSubmitting s = false ∧ inflight s = []) ∨
   (isSubmitting s = true ∧ ∃ i, inflight s = [i])) ∧
  ∀ j fc, forms s !! j = Some fc →
          Form.loadingState fc = bool_decide (j ∈ inflight s).

(** ** A page with two sign-up forms *)

Definition email_key : jsstring := js "email".

(** [<form data-form-type="signup"><input name="email"
    data-validators="required,email"><button type="submit">] *)
Definition signup (button_disabled : bool) : DomForm :=
  {| dom_formType := js "signup";
     dom_fields := [{| dom_name := email_key;
                       dom_error_key := email_key;
                       dom_validators := js "required,email";
                       dom_value := [] |}];
     dom_submit := Some (button_disabled, js "Subscribe");
     dom_resetOnSuccess := true |}.

Definition landing_page : list DomForm := [signup false; signup false].

Definition http_500 : JsError :=
  {| error_name := "Error";
     error_message := "HTTP 500: Internal Server Error" |}.

(** The first form is filled in, validated and submitted. *)
Definition first_form_submitted : list event :=
  [Input 0 email_key (js "ada@example.org");
   TimerFires (ValidationTimer 0 email_key);
   Submit 0].

(** ... its field is then edited while the request is in flight, and
    the request fails. *)
Definition edited_in_flight : list event :=
  first_form_submitted ++
  [Input 0 email_key (js "ada");
   TimerFires (ValidationTimer 0 email_key);
   FetchSettles 0 (Rejected http_500)].

Definition state_after (page : list DomForm) (es : list event) : Controller :=
  default (initializeForms page) (run (initializeForms page) es).

(** The first form once a well-formed address was typed into it and
    the debounce timer has fired. *)
Definition first_form_validated : Form.t :=
  default (initializeForm (signup false))
    (forms (state_after landing_page
              [Input 0 email_key (js "ada@example.org");
               TimerFires (ValidationTimer 0 email_key)]) !! 0).

End Forms.

(* ===================================================================== *)
(** * service-worker.js                                                   *)
(* ===================================================================== *)

Module ServiceWorker.

Definition CACHE_NAME : jsstring := js "high-leverage-humans-v1.0.0".
Definition RUNTIME_CACHE : jsstring := js "runtime-cache-v1".

Inductive strategy : Type := CacheFirst | NetworkFirst | StaleWhileRevalidate.

Global Instance strategy_eq_dec : EqDecision strategy.
Proof. solve_decision. Defined.

Module RUNTIME_STRATEGIES.
Definition images : strategy := CacheFirst.
Definition fonts : strategy := CacheFirst.
Definition api : strategy := NetworkFirst.
Definition pages : strategy := StaleWhileRevalidate.
End RUNTIME_STRATEGIES.

(** [Request.mode] *)
Inductive request_mode : Type := navigate | same_origin | no_cors | cors.

Global Instance request_mode_eq_dec : EqDecision request_mode.
Proof. solve_decision. Defined.

Record Request := {
  url : jsstring;
  method : jsstring;
  mode : request_mode
}.

(** [new URL(request.url)], of which only [pathname] is read. *)
Record URL := { pathname : jsstring }.

Record Response := {
  status : N;
  body : jsstring
}.

(** [response.ok] *)
Definition ok (r : Response) : bool := ((200 <=? status r) && (status r <=? 299))%N.

(** ** Strategy dispatch *)

Definition image_extensions : list jsstring :=
  [js "jpg"; js "jpeg"; js "png"; js "gif"; js "webp"; js "svg"].
Definition font_extensions : list jsstring :=
  [js "woff"; js "woff2"; js "ttf"; js "eot"].
Definition static_extensions : list jsstring := [js "css"; js "js"].

(** [pathname.split('.').pop().toLowerCase()] *)
Definition extension_of (pathname : jsstring) : jsstring :=
  toLowerCase (default [] (last (split dot pathname))).

Definition determineStrategy (url : URL) (request : Request) : strategy :=
  let pathname := pathname url in
  let extension := extension_of pathname in
  if startsWith pathname (js "/api/") then RUNTIME_STRATEGIES.api
  else if includes image_extensions extension then RUNTIME_STRATEGIES.images
  else if includes font_extensions extension then RUNTIME_STRATEGIES.fonts
  else if includes static_extensions extension then CacheFirst
  else if bool_decide (mode request = navigate)
          || endsWith pathname (js ".html")
          || negb (truthy extension)
       then RUNTIME_STRATEGIES.pages
  else NetworkFirst.




(** ** Cache storage *)

(** [caches]: the stores by name, in the order they were created; a
    store holds responses by request URL. *)
Definition CacheStorage : Type := list (jsstring * gmap jsstring Response).

Definition GET : jsstring := js "GET".

(** [cache.match(request)]: only a [GET] request matches an entry. *)
Definition cache_match (cache : gmap jsstring Response) (request : Request)
  : option Response :=
  if decide (method request = GET) then cache !! url request else None.

(** [cache.put(request, response)].  The Cache interface rejects with a
    [TypeError] when the request method is not [GET] and when the
    response is partial content (status 206).  It also rejects a URL
    that is neither [http:] nor [https:] and a response whose [Vary]
    header is [*]: a [Response] has no headers here, and the listener
    hands on only requests whose URL starts with [http]. *)
Definition cache_put (cache : gmap jsstring Response) (request : Request)
    (response : Response) : settled (gmap jsstring Response) JsError :=
  if decide (method request = GET) then
    if decide (status response = 206%N)
    then Rejected {| error_name := "TypeError";
                     error_message := "Partial response (status code 206) is unsupported" |}
    else Resolved (<[url request := response]> cache)
  else Rejected {| error_name := "TypeError";
                   error_message := "Request method is unsupported" |}.

(** [caches.match(request)]: the first store, in creation order, that
    has a matching entry. *)
Fixpoint caches_match (caches : CacheStorage) (request : Request)
  : option Response :=
  match caches with
  | [] => None
  | (_, cache) :: rest =>
      match cache_match cache request with
      | Some r => Some r
      | None => caches_match rest request
      end
  end.

(** [caches.open(name)]: the store is created when it does not exist. *)
Definition caches_open (caches : CacheStorage) (name : jsstring)
  : CacheStorage * gmap jsstring Response :=
  match JsMap.get name caches with
  | Some cache => (caches, cache)
  | None => (caches ++ [(name, ∅)], ∅)
  end.

Definition caches_delete (caches : CacheStorage) (name : jsstring) : CacheStorage :=
  JsMap.delete name caches.

Definition caches_keys (caches : CacheStorage) : list jsstring :=
  JsMap.keys caches.

(** ** Network first *)

(** The [catch] block of [networkFirst]. *)
Definition networkFirst_catch (request : Request) (error : JsError)
    (caches : CacheStorage) : CacheStorage * settled Response JsError :=
  match caches_match caches request with
  | Some cachedResponse => (caches, Resolved cachedResponse)
  | None => (caches, Rejected error)
  end.

(** [networkFirst(request)], given how [fetch(request)] settles. *)
Definition networkFirst (request : Request) (network : settled Response JsError)
    (caches : CacheStorage) : CacheStorage * settled Response JsError :=
  match network with
  | Resolved networkResponse =>
      if ok networkResponse then
        let '(caches1, cache) := caches_open caches RUNTIME_CACHE in
        match cache_put cache request networkResponse with
        | Resolved cache' =>
            (JsMap.set RUNTIME_CACHE cache' caches1, Resolved networkResponse)
        | Rejected error => networkFirst_catch request error caches1
        end
      else (caches, Resolved networkResponse)
  | Rejected error => networkFirst_catch request error caches
  end.

(** ** Activation *)

Definition cleanupOldCaches (caches : CacheStorage) : CacheStorage :=
  let cacheNames := caches_keys caches in
  let oldCaches :=
    List.filter
      (λ name, bool_decide (name ≠ CACHE_NAME) && bool_decide (name ≠ RUNTIME_CACHE))
      cacheNames in
  foldl caches_delete caches oldCaches.

Record Worker := {
  caches : CacheStorage;
  controls_clients : bool      (* after [self.clients.claim()] *)
}.

(** The [activate] listener. *)
Definition activate (w : Worker) : Worker :=
  {| caches := cleanupOldCaches (caches w); controls_clients := true |}.

(** ** Worked requests *)


(** A [fetch] issued by a script of the page. *)
Definition script_fetch (p : jsstring) : Request :=
  {| url := js "https://highleveragehumans.com" ++ p; method := GET; mode := cors |}.

Definition api_data : Request :=
  {| url := js "https://highleveragehumans.com/api/data";
     method := GET; mode := cors |}.

(** The request [submitToAPI] of forms.js sends. *)
Definition api_subscribe : Request :=
  {| url := js "https://highleveragehumans.com/api/subscribe";
     method := js "POST"; mode := cors |}.

Definition not_found : Response := {| status := 404; body := js "Not Found" |}.
Definition fine : Response := {| status := 200; body := js "{}" |}.
Definition older : Response := {| status := 200; body := js "{old}" |}.
Definition offline : JsError :=
  {| error_name := "TypeError"; error_message := "Failed to fetch" |}.

End ServiceWorker.

(* ===================================================================== *)
(** * functions/index.js: the email-capture endpoint                      *)
(* ===================================================================== *)

Module Endpoint.

Local Open Scope Z_scope.

Local Unset Elimination Schemes.
(** A JSON value of a request body or a metadata entry. *)
Inductive json : Type :=
| JNull
| JBool (b : bool)
| JNumber (z : Z)
| JString (s : jsstring)
| JArray (l : list json)
| JObject (l : list (jsstring * json)).
Local Set Elimination Schemes.

Inductive lead_status : Type := active | unsubscribed.

(** A document of the [email_leads] collection. *)
Record Lead := {
  email : jsstring;
  source : jsstring;
  campaign : option jsstring;          (* [null] when absent *)
  metadata : gmap jsstring json;
  ip : jsstring;
  userAgent : jsstring;
  referrer : jsstring;
  timestamp : Z;
  status : lead_status;
  isNew : bool;
  subscriptionCount : Z;
  lastSubscription : option Z
}.

(** The [parameters] object of an analytics event. *)
Inductive parameters : Type :=
| validation_error_parameters (error : string) (ip : jsstring)
| blocked_domain_parameters (email ip : jsstring)
| capture_parameters (email : jsstring) (source campaign : option jsstring)
                     (isNew : bool) (leadId : nat)
| error_parameters (error : JsError) (ip : jsstring).  (* message, stack, ip *)

(** A document of the [analytics_events] collection. *)
Record AnalyticsEvent := {
  event : string;
  event_parameters : parameters;
  event_timestamp : Z;
  event_source : string
}.

(** The two collections.  A document id is the position of the document
    in its collection: [add] appends and no document is ever deleted from
    [email_leads], so ids are fresh and stable. *)
Record Firestore := {
  email_leads : list Lead;
  analytics_events : list AnalyticsEvent
}.

Record HttpRequest := {
  body : json;
  request_ip : jsstring;               (* req.ip *)
  user_agent : option jsstring;        (* req.get('User-Agent') *)
  referer : option jsstring            (* req.get('Referer') *)
}.

(** What the platform answers while one request is handled. *)
Record Env := {
  serverTimestamp : Z;
  elapsed : Z;                         (* Date.now() - startTime *)
  rate_limited : option Z;             (* rateLimiter.consume rejects: msBeforeNext *)
  query_rejects : option JsError;      (* the email_leads query *)
  write_rejects : option JsError;      (* email_leads add / update *)
  analytics_rejects : option JsError   (* analytics_events add *)
}.

Record ResponseBody := {
  success : bool;
  message : option string;
  error : option string;
  response_isNew : option bool;
  leadId : option nat;
  processingTime : option Z;
  retryAfter : option Z
}.

Record HttpResponse := {
  http_status : Z;
  retry_after_header : option Z;
  response_json : ResponseBody
}.

(** The validated value of [emailSchema.validate]. *)
Record Value := {
  value_email : jsstring;
  value_source : option jsstring;
  value_campaign : option jsstring;
  value_metadata : option (gmap jsstring json)
}.

Inductive validation : Type :=
| Valid (value : Value)
| Invalid (message : string).        (* error.details[0].message *)

Definition disposableDomains : list jsstring :=
  [js "10minutemail.com"; js "guerrillamail.com"; js "mailinator.com";
   js "temp-mail.org"; js "throwaway.email"; js "yopmail.com"].

Definition validateEmailDomain (email : jsstring) : bool :=
  match split at_sign email !! 1%nat with
  | Some domain =>
      if truthy domain then negb (includes disposableDomains (toLowerCase domain))
      else false
  | None => false
  end.

(** [FieldValue.increment(1)] on an integer field: Firestore integers
    are signed 64-bit and the sum stops at the largest one. *)
Definition increment (n : Z) : Z := Z.min (n + 1) (2 ^ 63 - 1).

(** One of the parameters is [undefined]: [source] or [campaign], which
    the handler passes on as [emailSchema.validate] gave them.  The
    Firestore client refuses a document that holds [undefined]
    ([ignoreUndefinedProperties] is not set): [add] throws and nothing
    is written. *)
Definition holds_undefined (params : parameters) : bool :=
  match params with
  | capture_parameters _ source campaign _ _ =>
      match source, campaign with
      | Some _, Some _ => false
      | _, _ => true
      end
  | _ => false
  end.

Global Arguments holds_undefined : simpl never.

(** [logAnalyticsEvent]: whatever [add] throws or rejects with is
    caught and written to the console. *)
Definition logAnalyticsEvent (env : Env) (eventName : string)
    (params : parameters) (db : Firestore) : Firestore :=
  if holds_undefined params then db
  else
    match analytics_rejects env with
    | Some _ => db
    | None =>
        {| email_leads := email_leads db;
           analytics_events :=
             analytics_events db ++
               [{| event := eventName; event_parameters := params;
                   event_timestamp := serverTimestamp env;
                   event_source := "cloud_function" |}] |}
    end.
Global Arguments logAnalyticsEvent : simpl never.

Definition failure (code : Z) (msg : string) : HttpResponse :=
  {| http_status := code; retry_after_header := None;
     response_json :=
       {| success := false; message := None; error := Some msg;
          response_isNew := None; leadId := None; processingTime := None;
          retryAfter := None |} |}.

(** [a || b] where [a] may be [undefined]. *)
Definition or_default (a : option jsstring) (b : jsstring) : jsstring :=
  match a with Some s => or_else s b | None => b end.

Definition or_null (a b : option jsstring) : option jsstring :=
  match a with
  | Some s => if truthy s then Some s else b
  | None => b
  end.

Section Handler.

(** The two library calls whose code is not part of the repository:
    [emailSchema.validate] of Joi and [validator.normalizeEmail] with
    the options [sanitizeEmail] passes ([false] is [None]). *)
Variable emailSchema_validate : json → validation.
Variable normalizeEmail : jsstring → option jsstring.

Definition sanitizeEmail (email : jsstring) : option jsstring :=
  normalizeEmail email.

(** The [catch] block of the handler. *)
Definition internal_error (req : HttpRequest) (env : Env) (error : JsError)
    (db : Firestore) : Firestore * HttpResponse :=
  (logAnalyticsEvent env "email_capture_error"
     (error_parameters error (request_ip req)) db,
   {| http_status := 500; retry_after_header := None;
      response_json :=
        {| success := false; message := None;
           error := Some "Internal server error. Please try again.";
           response_isNew := None; leadId := None;
           processingTime := Some (elapsed env); retryAfter := None |} |}).

Definition created (env : Env) (id : nat) : HttpResponse :=
  {| http_status := 201; retry_after_header := None;
     response_json :=
       {| success := true;
          message := Some "Successfully subscribed to updates";
          error := None; response_isNew := Some true; leadId := Some id;
          processingTime := Some (elapsed env); retryAfter := None |} |}.

Definition updated (env : Env) (id : nat) : HttpResponse :=
  {| http_status := 200; retry_after_header := None;
     response_json :=
       {| success := true; message := Some "Email updated successfully";
          error := None; response_isNew := Some false; leadId := Some id;
          processingTime := Some (elapsed env); retryAfter := None |} |}.

(** The handler of [app.post('/email-capture', ...)]. *)
Definition email_capture (req : HttpRequest) (env : Env) (db : Firestore)
  : Firestore * HttpResponse :=
  match emailSchema_validate (body req) with
  | Invalid msg =>
      (logAnalyticsEvent env "email_capture_validation_error"
         (validation_error_parameters msg (request_ip req)) db,
       failure 400 msg)
  | Valid value =>
      match sanitizeEmail (value_email value) with
      | None => (db, failure 400 "Invalid email format")
      | Some sanitizedEmail =>
          if negb (truthy sanitizedEmail)
          then (db, failure 400 "Invalid email format")
          else if negb (validateEmailDomain sanitizedEmail)
          then (logAnalyticsEvent env "email_capture_blocked_domain"
                  (blocked_domain_parameters sanitizedEmail (request_ip req)) db,
                failure 400 "Please use a valid email address")
          else
            match query_rejects env with
            | Some error => internal_error req env error db
            | None =>
                match list_find (λ lead, email lead = sanitizedEmail)
                                (email_leads db) with
                | None =>
                    let leadData :=
                      {| email := sanitizedEmail;
                         source := or_default (value_source value) (js "website");
                         campaign := or_null (value_campaign value) None;
                         metadata := default ∅ (value_metadata value);
                         ip := request_ip req;
                         userAgent := or_default (user_agent req) [];
                         referrer := or_default (referer req) [];
                         timestamp := serverTimestamp env;
                         status := active;
                         isNew := true;
                         subscriptionCount := 1;
                         lastSubscription := None |} in
                    match write_rejects env with
                    | Some error => internal_error req env error db
                    | None =>
                        let id := length (email_leads db) in
                        let db1 :=
                          {| email_leads := email_leads db ++ [leadData];
                             analytics_events := analytics_events db |} in
                        (logAnalyticsEvent env "email_capture_success"
                           (capture_parameters sanitizedEmail
                              (value_source value) (value_campaign value)
                              true id) db1,
                         created env id)
                    end
                | Some (id, existingData) =>
                    match write_rejects env with
                    | Some error => internal_error req env error db
                    | None =>
                        let updatedData :=
                          {| email := email existingData;
                             source := or_default (value_source value)
                                                  (source existingData);
                             campaign := or_null (value_campaign value)
                                                 (campaign existingData);
                             metadata := default ∅ (value_metadata value)
                                           ∪ metadata existingData;
                             ip := ip existingData;
                             userAgent := userAgent existingData;
                             referrer := referrer existingData;
                             timestamp := timestamp existingData;
                             status := active;
                             isNew := isNew existingData;
                             subscriptionCount :=
                               increment (subscriptionCount existingData);
                             lastSubscription := Some (serverTimestamp env) |} in
                        let db1 :=
                          {| email_leads := <[id := updatedData]> (email_leads db);
                             analytics_events := analytics_events db |} in
                        (logAnalyticsEvent env "email_capture_duplicate"
                           (capture_parameters sanitizedEmail
                              (value_source value) (value_campaign value)
                              false id) db1,
                         updated env id)
                    end
                end
            end
      end
  end.

(** [rateLimiterMiddleware], then the handler. *)
Definition post_email_capture (req : HttpRequest) (env : Env) (db : Firestore)
  : Firestore * HttpResponse :=
  match rate_limited env with
  | Some rejected =>
      let msBeforeNext := if decide (rejected = 0) then 1000 else rejected in
      let rounded := (msBeforeNext + 500) `div` 1000 in
      let seconds := if decide (rounded = 0) then 1 else rounded in
      (db,
       {| http_status := 429; retry_after_header := Some seconds;
          response_json :=
            {| success := false; message := None;
               error := Some "Too many requests. Please try again later.";
               response_isNew := None; leadId := None;
               processingTime := None; retryAfter := Some seconds |} |})
  | None => email_capture req env db
  end.

(** The request got past the rate limiter, schema validation,
    normalization and the domain blocklist with [e] as its normalized
    address. *)
Definition accepted (req : HttpRequest) (env : Env) (e : jsstring) : Prop :=
  rate_limited env = None ∧
  ∃ value, emailSchema_validate (body req) = Valid value ∧
           sanitizeEmail (value_email value) = Some e ∧
           truthy e = true ∧ validateEmailDomain e = true.

(** Firestore carried out the reads and writes of the request. *)
Definition datastore_up (env : Env) : Prop :=
  query_rejects env = None ∧ write_rejects env = None.

End Handler.

Definition counter_of (db : Firestore) (id : nat) : option Z :=
  subscriptionCount <$> email_leads db !! id.


(** Handling the request added exactly one analytics event, named
    [name] and carrying [params]. *)
Definition recorded (db db' : Firestore) (name : string) (params : parameters)
  : Prop :=
  ∃ ev, analytics_events db' = analytics_events db ++ [ev] ∧
        event ev = name ∧ event_parameters ev = params.

(** ** Worked requests *)

(** Stand-ins for the two library calls on the bodies used below: a
    body [{email: "..."}] or [{email: "...", campaign: "..."}] is
    valid, with the schema's default for [source] and [campaign] left
    [undefined] when the body has none; normalization lower-cases. *)
Definition example_validate (b : json) : validation :=
  match b with
  | JObject [(k, JString e)] =>
      if decide (k = js "email")
      then Valid {| value_email := e; value_source := Some (js "website");
                    value_campaign := None; value_metadata := None |}
      else Invalid "Email address is required"
  | JObject [(k, JString e); (k', JString c)] =>
      if decide (k = js "email" ∧ k' = js "campaign")
      then Valid {| value_email := e; value_source := Some (js "website");
                    value_campaign := Some c; value_metadata := None |}
      else Invalid "Email address is required"
  | _ => Invalid "Email address is required"
  end.

Definition example_normalize (e : jsstring) : option jsstring :=
  Some (toLowerCase e).

Definition request_for (address : string) : HttpRequest :=
  {| body := JObject [(js "email", JString (js address))];
     request_ip := js "203.0.113.7";
     user_agent := None; referer := None |}.

(** The same submission with [campaign: "launch"] in its body. *)
Definition campaign_request_for (address : string) : HttpRequest :=
  {| body := JObject [(js "email", JString (js address));
                      (js "campaign", JString (js "launch"))];
     request_ip := js "203.0.113.7";
     user_agent := None; referer := None |}.

Definition quiet : Env :=
  {| serverTimestamp := 1700000000000; elapsed := 12;
     rate_limited := None; query_rejects := None;
     write_rejects := None; analytics_rejects := None |}.

Definition empty_db : Firestore :=
  {| email_leads := []; analytics_events := [] |}.

End Endpoint.

(* ===================================================================== *)
(** * service-worker.js: the other strategies and the fetch listener      *)
(* ===================================================================== *)

Module Strategies.
Import ServiceWorker.

(** What running a strategy comes to: the storage it leaves, how its
    promise settles, and the requests it handed to [fetch].  For
    [staleWhileRevalidate], whose refresh runs on after the function
    has returned, [storage] is the storage once the refresh is over. *)
Record outcome := {
  storage : CacheStorage;
  settles : settled Response JsError;
  fetched : list Request
}.

(** [cacheFirst(request)], given how [fetch(request)] would settle.
    There is no [try]: a rejection of [fetch] or of [cache.put] is the
    function's. *)
Definition cacheFirst (request : Request) (network : settled Response JsError)
    (caches : CacheStorage) : outcome :=
  match caches_match caches request with
  | Some cachedResponse =>
      {| storage := caches; settles := Resolved cachedResponse; fetched := [] |}
  | None =>
      match network with
      | Resolved networkResponse =>
          if ok networkResponse then
            let '(caches1, cache) := caches_open caches RUNTIME_CACHE in
            match cache_put cache request networkResponse with
            | Resolved cache' =>
                {| storage := JsMap.set RUNTIME_CACHE cache' caches1;
                   settles := Resolved networkResponse;
                   fetched := [request] |}
            | Rejected error =>
                {| storage := caches1; settles := Rejected error;
                   fetched := [request] |}
            end
          else {| storage := caches; settles := Resolved networkResponse;
                  fetched := [request] |}
      | Rejected error =>
          {| storage := caches; settles := Rejected error; fetched := [request] |}
      end
  end.

(** [staleWhileRevalidate(request)].  Only the runtime store is read.
    [cache.put] is not awaited: when it rejects, [fetchPromise] still
    resolves with the network response. *)
Definition staleWhileRevalidate (request : Request)
    (network : settled Response JsError) (caches : CacheStorage) : outcome :=
  let '(caches1, cache) := caches_open caches RUNTIME_CACHE in
  let cachedResponse := cache_match cache request in
  let refreshed :=
    match network with
    | Resolved networkResponse =>
        if ok networkResponse then
          match cache_put cache request networkResponse with
          | Resolved cache' => JsMap.set RUNTIME_CACHE cache' caches1
          | Rejected _ => caches1
          end
        else caches1
    | Rejected _ => caches1
    end in
  {| storage := refreshed;
     settles := match cachedResponse with
                | Some response => Resolved response
                | None => network
                end;
     fetched := [request] |}.

(** [executeStrategy(strategy, request, url)] *)
Definition executeStrategy (strategy : ServiceWorker.strategy) (request : Request)
    (network : settled Response JsError) (caches : CacheStorage) : outcome :=
  match strategy with
  | CacheFirst => cacheFirst request network caches
  | NetworkFirst =>
      let '(caches', result) := networkFirst request network caches in
      {| storage := caches'; settles := result; fetched := [request] |}
  | StaleWhileRevalidate => staleWhileRevalidate request network caches
  end.

Definition quote : code := 34%N.
Definition quoted (s : string) : jsstring := quote :: js s ++ [quote].

(** The synthesized answer: status 503 and the JSON text of
    [{error: 'Network unavailable', message: '...'}]. *)
Definition unavailable : Response :=
  {| status := 503;
     body := js "{" ++ quoted "error" ++ js ":" ++ quoted "Network unavailable"
             ++ js "," ++ quoted "message" ++ js ":"
             ++ quoted "This feature requires an internet connection"
             ++ js "}" |}.

(** [event.request] with the two things the listener reads besides:
    its [range] header and [new URL(event.request.url)]. *)
Record FetchEvent := {
  event_request : Request;
  range_header : option jsstring;
  event_url : URL
}.

(** [http://] or [https://]: the URLs the Cache interface stores. *)
Definition http_scheme (u : jsstring) : bool :=
  startsWith u (js "http://") || startsWith u (js "https://").

Definition STATIC_ASSETS : list jsstring :=
  [js "/"; js "/index.html"; js "/assets/css/main.css";
   js "/assets/css/components.css"; js "/assets/css/animations.css";
   js "/assets/css/responsive.css"; js "/assets/js/main.js";
   js "/assets/js/forms.js"; js "/assets/js/animations.js";
   js "/assets/js/performance.js"; js "/high-leverage-humans-logo.svg";
   js "/high-leverage-humans-icon.svg"].

Section Worker.

(** [new Request(u).url]: the URL string [u] resolved against the
    worker's own location, by the platform. *)
Variable absolute : jsstring → jsstring.

(** The request [caches.match(u)], [fetch(u)] and [cache.put(u, _)]
    make of a URL string. *)
Definition request_of (u : jsstring) : Request :=
  {| url := absolute u; method := GET; mode := cors |}.

Definition handleFetchError (request : Request) (caches : CacheStorage)
  : Response :=
  match caches_match caches request with
  | Some cachedResponse => cachedResponse
  | None =>
      if decide (mode request = navigate) then
        match caches_match caches (request_of (js "/offline.html")) with
        | Some offlineResponse => offlineResponse
        | None => unavailable
        end
      else unavailable
  end.

(** The [fetch] listener: [None] when it returns without calling
    [event.respondWith], else what the promise it passes comes to. *)
Definition onfetch (event : FetchEvent) (network : settled Response JsError)
    (caches : CacheStorage) : option outcome :=
  let request := event_request event in
  if negb (startsWith (url request) (js "http")) then None
  else if match range_header event with
          | Some value => truthy value
          | None => false
          end then None
  else
    let strategy := determineStrategy (event_url event) request in
    let r := executeStrategy strategy request network caches in
    Some match settles r with
         | Resolved _ => r
         | Rejected _ =>
             {| storage := storage r;
                settles := Resolved (handleFetchError request (storage r));
                fetched := fetched r |}
         end.

(** One turn of the loop of [cacheUrls]: the [try] around [fetch] and
    [cache.put] of one URL. *)
Definition cache_one (network : jsstring → settled Response JsError)
    (cache : gmap jsstring Response) (u : jsstring) : gmap jsstring Response :=
  match network u with
  | Resolved response =>
      if ok response then
        if http_scheme (absolute u) then
          match cache_put cache (request_of u) response with
          | Resolved cache' => cache'
          | Rejected _ => cache
          end
        else cache
      else cache
  | Rejected _ => cache
  end.

(** [cacheUrls(urls)], given how the fetch of each URL settles.  The
    turns run side by side; they are taken here in the order of
    [urls], which decides what is left only when two of the URLs are
    the same. *)
Definition cacheUrls (urls : list jsstring)
    (network : jsstring → settled Response JsError) (caches : CacheStorage)
  : CacheStorage :=
  let '(caches1, cache) := caches_open caches RUNTIME_CACHE in
  JsMap.set RUNTIME_CACHE (foldl (cache_one network) cache urls) caches1.

(** [cache.addAll(urls)]: every URL is fetched; the entries are
    written together, and only when every response is ok and none is
    partial. *)
Definition cache_addAll (urls : list jsstring)
    (network : jsstring → settled Response JsError)
    (cache : gmap jsstring Response) : option (gmap jsstring Response) :=
  foldl
    (λ acc u,
       match acc, network u with
       | Some c, Resolved response =>
           if ok response && negb (bool_decide (status response = 206%N))
           then Some (<[absolute u := response]> c)
           else None
       | _, _ => None
       end)
    (Some cache) urls.

(** The [install] listener, as the storage it leaves and whether it
    reached [self.skipWaiting()].  Its [catch] logs and returns, so
    the promise passed to [event.waitUntil] resolves either way. *)
Definition install (network : jsstring → settled Response JsError)
    (caches : CacheStorage) : CacheStorage * bool :=
  let '(caches1, cache) := caches_open caches CACHE_NAME in
  match cache_addAll STATIC_ASSETS network cache with
  | Some cache' => (JsMap.set CACHE_NAME cache' caches1, true)
  | None => (caches1, false)
  end.

(** [clearCache(cacheName)]: the storage it leaves and the boolean
    [caches.delete] resolves with. *)
Definition clearCache (cacheName : option jsstring) (caches : CacheStorage)
  : CacheStorage * bool :=
  let name := match cacheName with
              | Some n => or_else n RUNTIME_CACHE
              | None => RUNTIME_CACHE
              end in
  (caches_delete caches name, bool_decide (name ∈ caches_keys caches)).

End Worker.

(** Some store of [caches] holds [response] for [request]. *)
Definition cached_in (caches : CacheStorage) (request : Request)
    (response : Response) : Prop :=
  ∃ name cache, (name, cache) ∈ caches ∧ cache_match cache request = Some response.

(** The stores activation keeps. *)
Definition kept (name : jsstring) : bool :=
  bool_decide (name = CACHE_NAME) || bool_decide (name = RUNTIME_CACHE).

(** The worker's own location, for worked requests. *)
Definition site (u : jsstring) : jsstring :=
  js "https://highleveragehumans.com" ++ u.

(** ** Worked requests *)

Definition stylesheet : Request := script_fetch (js "/assets/css/main.css").

Definition api_data_event : FetchEvent :=
  {| event_request := api_data; range_header := None;
     event_url := {| pathname := js "/api/data" |} |}.

(** The submission of a form of the page, as the worker sees it. *)
Definition api_subscribe_event : FetchEvent :=
  {| event_request := api_subscribe; range_header := None;
     event_url := {| pathname := js "/api/subscribe" |} |}.

Definition stored_api_data : CacheStorage :=
  [(RUNTIME_CACHE, {[ url api_data := older ]})].

Definition two_urls : list jsstring := [js "/pricing.html"; js "/missing.html"].

(** A network on which only [/pricing.html] exists. *)
Definition only_pricing (u : jsstring) : settled Response JsError :=
  if decide (u = js "/pricing.html") then Resolved fine else Resolved not_found.

Definition all_fine (u : jsstring) : settled Response JsError := Resolved fine.

End Strategies.

(* ===================================================================== *)
(** * functions/index.js: statistics and the analytics sweep              *)
(* ===================================================================== *)

Module Maintenance.
Import Endpoint.
Local Open Scope Z_scope.

Global Instance lead_status_eq_dec : EqDecision lead_status.
Proof. solve_decision. Defined.

(** [Math.round(msBeforeNext / 1000) || 1] with
    [msBeforeNext = rejRes.msBeforeNext || 1000]: the seconds
    [rateLimiterMiddleware] announces. *)
Definition retry_seconds (rejected : Z) : Z :=
  let msBeforeNext := if decide (rejected = 0) then 1000 else rejected in
  let rounded := (msBeforeNext + 500) `div` 1000 in
  if decide (rounded = 0) then 1 else rounded.

Record StatsBody := {
  stats_success : bool;
  totalLeads : option nat;
  activeLeads : option nat;
  stats_timestamp : option Z;
  stats_error : option string;
  stats_retryAfter : option Z
}.

Record StatsResponse := {
  stats_status : Z;
  stats_retry_after_header : option Z;
  stats_json : StatsBody
}.

(** [app.get('/stats', rateLimiterMiddleware, ...)]; [now] is the
    reading of the clock for [timestamp]. *)
Definition get_stats (env : Env) (now : Z) (db : Firestore) : StatsResponse :=
  match rate_limited env with
  | Some rejected =>
      {| stats_status := 429;
         stats_retry_after_header := Some (retry_seconds rejected);
         stats_json :=
           {| stats_success := false; totalLeads := None; activeLeads := None;
              stats_timestamp := None;
              stats_error := Some "Too many requests. Please try again later.";
              stats_retryAfter := Some (retry_seconds rejected) |} |}
  | None =>
      match query_rejects env with
      | Some _ =>
          {| stats_status := 500; stats_retry_after_header := None;
             stats_json :=
               {| stats_success := false; totalLeads := None;
                  activeLeads := None; stats_timestamp := None;
                  stats_error := Some "Unable to retrieve stats";
                  stats_retryAfter := None |} |}
      | None =>
          {| stats_status := 200; stats_retry_after_header := None;
             stats_json :=
               {| stats_success := true;
                  totalLeads := Some (length (email_leads db));
                  activeLeads :=
                    Some (length (List.filter
                                    (λ lead, bool_decide (status lead = active))
                                    (email_leads db)));
                  stats_timestamp := Some now;
                  stats_error := None; stats_retryAfter := None |} |}
      end
  end.

(** ** The daily sweep of [analytics_events] *)

Definition thirtyDaysAgo (now : Z) : Z := now - 30 * 24 * 60 * 60 * 1000.

(** A document of [analytics_events] with its position, which stands
    for its reference. *)
Definition event_doc : Type := nat * AnalyticsEvent.

Definition older_than (cutoff : Z) (doc : event_doc) : bool :=
  bool_decide (event_timestamp doc.2 < cutoff).

Definition by_timestamp (a b : event_doc) : Prop :=
  event_timestamp a.2 ≤ event_timestamp b.2.

Global Instance by_timestamp_dec a b : Decision (by_timestamp a b).
Proof. unfold by_timestamp. apply _. Defined.

(** [where('timestamp', '<', thirtyDaysAgo).limit(500)]: Firestore
    returns the documents of a range query in the order of the field
    the range is on. *)
Definition oldEventsQuery (cutoff : Z) (events : list AnalyticsEvent)
  : list event_doc :=
  take 500 (merge_sort by_timestamp
              (List.filter (older_than cutoff) (imap pair events))).

(** The batch of deletes, committed. *)
Definition batch_delete (docs : list event_doc) (events : list AnalyticsEvent)
  : list AnalyticsEvent :=
  (List.filter (λ doc : event_doc, bool_decide (doc.1 ∉ docs.*1))
               (imap pair events)).*2.

(** [exports.cleanupAnalytics], run at [now]: the database it leaves
    and how the function's promise settles. *)
Definition cleanupAnalytics (env : Env) (now : Z) (db : Firestore)
  : Firestore * settled unit JsError :=
  match query_rejects env with
  | Some error => (db, Rejected error)
  | None =>
      let snapshot := oldEventsQuery (thirtyDaysAgo now) (analytics_events db) in
      match snapshot with
      | [] => (db, Resolved tt)
      | _ =>
          match write_rejects env with
          | Some error => (db, Rejected error)
          | None =>
              ({| email_leads := email_leads db;
                  analytics_events :=
                    batch_delete snapshot (analytics_events db) |},
               Resolved tt)
          end
      end
  end.

(** The event is not older than [cutoff]. *)
Definition recent (cutoff : Z) (ev : AnalyticsEvent) : bool :=
  bool_decide (cutoff ≤ event_timestamp ev).

(** At most one lead per address. *)
Definition unique_emails (db : Firestore) : Prop :=
  NoDup (email <$> email_leads db).

(** ** Worked runs *)

(** The rate limiter turns the request down for another 1499 ms. *)
Definition throttled : Env :=
  {| serverTimestamp := 1700000000000; elapsed := 0;
     rate_limited := Some 1499; query_rejects := None;
     write_rejects := None; analytics_rejects := None |}.

(** A lead that was marked as not active. *)
Definition lapsed : Lead :=
  {| email := js "ada@example.org"; source := js "website";
     campaign := None; metadata := ∅; ip := js "203.0.113.7";
     userAgent := []; referrer := []; timestamp := 1690000000000;
     status := unsubscribed; isNew := true; subscriptionCount := 1;
     lastSubscription := None |}.

Definition lapsed_db : Firestore :=
  {| email_leads := [lapsed]; analytics_events := [] |}.

Definition event_at (t : Z) : AnalyticsEvent :=
  {| event := "email_capture_success";
     event_parameters :=
       capture_parameters (js "ada@example.org") None None true 0;
     event_timestamp := t;
     event_source := "cloud_function" |}.

Definition sweep_time : Z := 1700000000000.

(** One event a millisecond older than thirty days, one exactly thirty
    days old. *)
Definition two_events : Firestore :=
  {| email_leads := [];
     analytics_events := [event_at (thirtyDaysAgo sweep_time - 1);
                          event_at (thirtyDaysAgo sweep_time)] |}.

End Maintenance.

(* ===================================================================== *)
(** * forms.js: what a form session keeps                                 *)
(* ===================================================================== *)

Module FormSession.
Import Forms.

Definition is_validation_timer (t : timer) : bool :=
  match t with
  | ValidationTimer _ _ => true
  | ResetTimer _ => false
  end.

(** What [setFormLoadingState] does to the form it is called on. *)
Definition loading_form (isLoading : bool) (fc : Form.t) : Form.t :=
  Form.with_submitButton
    ((λ b,
       let originalText :=
         match originalText b with
         | Some t => or_else t (textContent b)
         | None => textContent b
         end in
       mkButton isLoading (is_disabled b) isLoading
         (if isLoading then js "Submitting..." else originalText)
         (match Forms.originalText b with
          | Some t => if truthy t then Some t else Some originalText
          | None => Some originalText
          end))
       <$> Form.submitButton fc)
    (Form.with_loading isLoading fc).

(** What [resetForm] does to the form it is called on. *)
Definition reset_form (fc : Form.t) : Form.t :=
  updateFormValidation
    (Form.with_fields
       (JsMap.map_values
          (λ f, Field.with_validity false false false
                  (clearFieldError
                     (Field.with_value (Field.originalValue f) f)))
          (Form.fields fc))
       fc).

(** The mutations a listener makes to one field configuration. *)
Inductive field_op : (Field.t → Field.t) → Prop :=
| op_value v : field_op (Field.with_value v)
| op_validate : field_op (λ f, (validateField f).1)
| op_blurred : field_op (Field.with_focused false)
| op_focused : field_op (λ f, clearFieldError (Field.with_focused true f)).

(** What a field is given once, when it is initialized. *)
Definition assigned (kf : jsstring * Field.t)
  : jsstring * jsstring * list jsstring * jsstring :=
  (kf.1, Field.name kf.2, Field.validators kf.2, Field.originalValue kf.2).

(** The form has the fields, validators and original values it was
    initialized with from [dom], and a button exactly if [dom] has. *)
Definition as_initialized (dom : DomForm) (fc : Form.t) : Prop :=
  assigned <$> Form.fields fc = assigned <$> Form.fields (initializeForm dom) ∧
  Form.formType fc = dom_formType dom ∧
  Form.resetOnSuccess fc = dom_resetOnSuccess dom ∧
  (is_Some (Form.submitButton fc) ↔ is_Some (dom_submit dom)).

(** The button reads [Submitting...] while the form is loading and
    what the markup gave it otherwise. *)
Definition labelled (dom : DomForm) (fc : Form.t) : Prop :=
  ∀ markup b,
    dom_submit dom = Some markup → markup.2 ≠ [] →
    Form.submitButton fc = Some b →
    textContent b = (if Form.loadingState fc then js "Submitting..." else markup.2) ∧
    (originalText b = Some markup.2 ∨
     (originalText b = None ∧ Form.loadingState fc = false)).

(** The marks on a field agree with what it reports. *)
Definition marked_as_reported (f : Field.t) : Prop :=
  (Field.is_valid f = true → Field.isValid f = true) ∧
  (Field.is_invalid f = true → Field.isValid f = false).

(** What was last written to the error element through a field: an
    error is shown only under a field marked invalid, and where none
    is shown the text is empty. *)
Definition error_as_marked (f : Field.t) : Prop :=
  (Field.errorVisible f = true → Field.is_invalid f = true) ∧
  (Field.errorVisible f = false → Field.errorText f = "").

Definition field_inv (f : Field.t) : Prop :=
  (Field.is_valid f = true → Field.isValid f = true) ∧
  (Field.is_invalid f = true → Field.isValid f = false) ∧
  (Field.errorVisible f = true → Field.is_invalid f = true) ∧
  (Field.errorVisible f = false → Field.errorText f = "").

Definition session_inv (dom : DomForm) (fc : Form.t) : Prop :=
  as_initialized dom fc ∧ labelled dom fc ∧
  Forall (λ kf, field_inv kf.2) (Form.fields fc).

(** No two controls of the page have the same id-or-name, so that
    [createErrorElement] gives each of them an error element of its
    own. *)
Definition own_error_elements (page : list DomForm) : Prop :=
  NoDup (page ≫= λ form, dom_error_key <$> dom_fields form).

(** The names of the fields of [dom], each once, in the order of
    their first occurrence. *)
Fixpoint distinct_names (seen : list jsstring) (fields : list DomField)
  : list jsstring :=
  match fields with
  | [] => []
  | field :: rest =>
      if bool_decide (dom_name field ∈ seen) then distinct_names seen rest
      else dom_name field :: distinct_names (dom_name field :: seen) rest
  end.

(** ** Worked sessions on the landing page *)

(** The first form while its submission is in flight. *)
Definition first_form_in_flight : Form.t :=
  default (initializeForm (signup false))
    (forms (state_after landing_page first_form_submitted) !! 0).

(** Two keystrokes in the field of the first form, before any timer
    has fired. *)
Definition two_keystrokes : list event :=
  [Input 0 email_key (js "a"); Input 0 email_key (js "ad")].

(** A page with the sign-up form alone. *)
Definition signup_page : list DomForm := [signup false].

(** An address without a domain is typed into its field and the field
    is left. *)
Definition malformed_address : list event :=
  [Focus 0 email_key; Input 0 email_key (js "ada"); Blur].

Definition form_left_malformed : Form.t :=
  default (initializeForm (signup false))
    (forms (state_after signup_page malformed_address) !! 0).

(** A well-formed address is typed into the first form and the
    debounce timer fires. *)
Definition address_validated : list event :=
  [Input 0 email_key (js "ada@example.org");
   TimerFires (ValidationTimer 0 email_key)].

End FormSession.

(* ===================================================================== *)
(** * Worked evaluations                                                  *)
(* ===================================================================== *)

Section Evaluations.
Import Forms ServiceWorker Endpoint.

Example split_segments :
  split dot (js "/a.min.js") = [js "/a"; js "min"; js "js"] ∧
  split dot (js "/about") = [js "/about"] ∧
  split dot [] = [[]].
Proof. repeat split; reflexivity. Qed.

Example trim_both_ends : trim (js "  ada lovelace ") = js "ada lovelace".
Proof. reflexivity. Qed.

Example extension_of_paths :
  extension_of (js "/assets/css/main.CSS") = js "css" ∧
  extension_of (js "/about") = js "/about" ∧
  extension_of (js "/download.") = [].
Proof. repeat split; reflexivity. Qed.

Example validators_on_values :
  validate email_validator (js "ada@example.org") = true ∧
  validate email_validator (js "ada lovelace@example.org") = false ∧
  validate email_validator (js "ada@localhost") = false ∧
  validate required_validator (js "   ") = false ∧
  validate name_validator (js " a ") = false ∧
  validate phone_validator (js "+44 (0)20 7946-0958") = true ∧
  validate phone_validator [] = true.
Proof. repeat split; vm_compute; reflexivity. Qed.

(** [data-validators="required, email"]: the second name keeps its
    blank until it is looked up, and an unknown name is skipped. *)
Example validators_attribute :
  first_failure [js "required"; js " email"] (js "ada") =
    Some "Please enter a valid email address" ∧
  first_failure [js "required"; js " email"] [] =
    Some "This field is required" ∧
  first_failure [js "postcode"] [] = None.
Proof. repeat split; vm_compute; reflexivity. Qed.

(** An ok response to a [GET] ends up in the runtime store. *)
Example networkFirst_stores_ok_response :
  networkFirst api_data (Resolved fine) []
  = ([(RUNTIME_CACHE, {[ url api_data := fine ]})], Resolved fine).
Proof. vm_compute. reflexivity. Qed.

Example blocklist_on_addresses :
  validateEmailDomain (js "x@YopMail.com") = false ∧
  validateEmailDomain (js "x@example.org") = true ∧
  validateEmailDomain (js "x.example.org") = false.
Proof. repeat split; vm_compute; reflexivity. Qed.

Example rate_limited_request :
  (post_email_capture example_validate example_normalize
     (request_for "ada@example.org")
     {| serverTimestamp := 0; elapsed := 0; rate_limited := Some 29600%Z;
        query_rejects := None; write_rejects := None;
        analytics_rejects := None |}
     empty_db).2
  = {| http_status := 429; retry_after_header := Some 30%Z;
       response_json :=
         {| success := false; message := None;
            error := Some "Too many requests. Please try again later.";
            response_isNew := None; leadId := None; processingTime := None;
            retryAfter := Some 30%Z |} |}.
Proof. reflexivity. Qed.

(** The first form after it was filled in and submitted: locked, its
    button disabled and relabelled, one request in flight. *)
Example first_form_submitted_state :
  let s := state_after landing_page first_form_submitted in
  isSubmitting s = true ∧ inflight s = [0] ∧
  requests s = [0] ∧
  (Form.submitButton <$> forms s !! 0)
  = Some (Some (mkButton true false true (js "Submitting...")
                         (Some (js "Subscribe")))).
Proof. repeat split; vm_compute; reflexivity. Qed.

(** The only form of a page after its field was edited into [ada] while
    the request was in flight and the request failed: unlocked, the
    button enabled again, the field reporting invalid. *)
Example edited_in_flight_state :
  let s := state_after [signup true] edited_in_flight in
  isSubmitting s = false ∧ inflight s = [] ∧
  (Form.submitButton <$> forms s !! 0)
  = Some (Some (mkButton false true false (js "Subscribe")
                         (Some (js "Subscribe")))) ∧
  (map (λ kf, Field.isValid kf.2) ∘ Form.fields <$> forms s !! 0)
  = Some [false].
Proof. repeat split; vm_compute; reflexivity. Qed.

End Evaluations.

(* ===================================================================== *)
(** * Matching by derivatives is exact                                    *)
(* ===================================================================== *)

Section RegexFacts.

Local Ltac invert H := inversion H; subst; clear H.

Lemma nullable_matches r : nullable r = true ↔ matches r [].
Proof.
  induction r as [| |p|r1 IH1 r2 IH2|r1 IH1 r2 IH2|r1 IH1]; simpl.
  - split; [done | intros H; invert H].
  - split; [constructor | done].
  - split; [done | intros H; invert H].
  - rewrite andb_true_iff, IH1, IH2. split.
    + intros [H1 H2]. by apply (MSeq _ _ [] []).
    + intros H. invert H.
      match goal with E : _ ++ _ = [] |- _ =>
        apply app_eq_nil in E as [-> ->] end.
      done.
  - rewrite orb_true_iff, IH1, IH2. split.
    + intros [H|H]; [by apply MAltL | by apply MAltR].
    + intros H. invert H; auto.
  - split; [constructor | done].
Qed.

(** A non-empty match of [r*] starts with a non-empty match of [r]. *)
Lemma star_cons_inv r c s :
  matches (Star r) (c :: s) →
  ∃ s1 s2, s = s1 ++ s2 ∧ matches r (c :: s1) ∧ matches (Star r) s2.
Proof.
  intros H. remember (Star r) as r' eqn:Hr. remember (c :: s) as t eqn:Ht.
  revert s Ht.
  induction H as [| | | | | |r0 s1 s2 H1 _ H2 IH2]; intros u Ht;
    try discriminate.
  injection Hr as ->. destruct s1 as [|c1 s1]; simpl in Ht.
  - by apply IH2.
  - injection Ht as -> <-. by exists s1, s2.
Qed.

Lemma seq_cons_inv r1 r2 c s :
  matches (Seq r1 r2) (c :: s) →
  (matches r1 [] ∧ matches r2 (c :: s)) ∨
  (∃ s1 s2, s = s1 ++ s2 ∧ matches r1 (c :: s1) ∧ matches r2 s2).
Proof.
  intros H. remember (Seq r1 r2) as r eqn:Hr. remember (c :: s) as t eqn:Ht.
  destruct H as [| |q1 q2 s1 s2 H1 H2| | | |]; try discriminate.
  injection Hr as -> ->. destruct s1 as [|c1 s1]; simpl in Ht.
  - subst s2. by left.
  - injection Ht as -> <-. right. by exists s1, s2.
Qed.

Lemma deriv_matches c r s : matches (deriv c r) s ↔ matches r (c :: s).
Proof.
  revert s.
  induction r as [| |p|r1 IH1 r2 IH2|r1 IH1 r2 IH2|r1 IH1]; intros s; simpl.
  - split; intros H; invert H.
  - split; intros H; invert H.
  - destruct (p c) eqn:Hp; split; intros H; invert H.
    + by constructor.
    + constructor.
    + congruence.
  - assert (Hseq : matches (Seq (deriv c r1) r2) s ↔
                   ∃ s1 s2, s = s1 ++ s2 ∧ matches r1 (c :: s1) ∧ matches r2 s2).
    { split.
      - intros H. invert H. eexists _, _. split; [done|].
        split; [by apply IH1 | done].
      - intros (s1 & s2 & -> & H1 & H2). constructor; [by apply IH1 | done]. }
    destruct (nullable r1) eqn:Hn.
    + split.
      * intros H. invert H.
        -- match goal with HL : matches (Seq _ _) _ |- _ =>
             apply Hseq in HL as (s1 & s2 & -> & H1 & H2) end.
           by apply (MSeq _ _ (c :: s1) s2).
        -- apply (MSeq _ _ [] (c :: s)); [by apply nullable_matches|].
           by apply IH2.
      * intros H. apply seq_cons_inv in H as [[_ H2]|H].
        -- apply MAltR. by apply IH2.
        -- apply MAltL. by apply Hseq.
    + rewrite Hseq. split.
      * intros (s1 & s2 & -> & H1 & H2). by apply (MSeq _ _ (c :: s1) s2).
      * intros H. apply seq_cons_inv in H as [[H1 _]|H]; [|done].
        apply nullable_matches in H1. congruence.
  - split.
    + intros H. invert H; [apply MAltL | apply MAltR]; firstorder.
    + intros H. invert H; [apply MAltL | apply MAltR]; firstorder.
  - split.
    + intros H. invert H.
      match goal with H1 : matches (deriv _ _) ?s1, H2 : matches (Star _) ?s2 |- _ =>
        apply (MStarApp _ (c :: s1) s2); [by apply IH1 | done] end.
    + intros H. apply star_cons_inv in H as (s1 & s2 & -> & H1 & H2).
      constructor; [by apply IH1 | done].
Qed.

(** [test] decides [matches]. *)
Lemma test_matches r s : test r s = true ↔ matches r s.
Proof.
  revert r. induction s as [|c s IH]; intros r; simpl.
  - apply nullable_matches.
  - rewrite IH. apply deriv_matches.
Qed.

Lemma matches_Seq_inv r1 r2 s :
  matches (Seq r1 r2) s →
  ∃ s1 s2, s = s1 ++ s2 ∧ matches r1 s1 ∧ matches r2 s2.
Proof. intros H. invert H. eauto. Qed.

Lemma matches_Class_inv p s :
  matches (Class p) s → ∃ c, s = [c] ∧ p c = true.
Proof. intros H. invert H. eauto. Qed.

Lemma matches_Plus_Class_nonempty p s :
  matches (Plus (Class p)) s → s ≠ [].
Proof.
  intros H. apply matches_Seq_inv in H as (s1 & s2 & -> & H1 & _).
  apply matches_Class_inv in H1 as (c & -> & _). done.
Qed.

End RegexFacts.

(* ===================================================================== *)
(** * The e-mail validator                                                *)
(* ===================================================================== *)

(** Every accepted address has an [@] followed by something. *)
Lemma email_shape s :
  matches emailRegex s → ∃ l d, s = l ++ at_sign :: d ∧ d ≠ [].
Proof.
  intros H. unfold emailRegex in H.
  apply matches_Seq_inv in H as (l & s1 & -> & _ & H).
  apply matches_Seq_inv in H as (a & s2 & -> & Ha & H).
  apply matches_Class_inv in Ha as (c & -> & Hc).
  apply N.eqb_eq in Hc as <-.
  apply matches_Seq_inv in H as (d1 & s3 & -> & Hd1 & _).
  apply matches_Plus_Class_nonempty in Hd1.
  exists l, (d1 ++ s3). split; [done|].
  destruct d1; [done | discriminate].
Qed.

(** C8. Every string in the language of the e-mail shape expression
    [/^[^\s@]+@[^\s@]+\.[^\s@]+$/] is accepted by the [email] validator,
    and every string that has no [@], or in which no [@] is followed by a
    domain segment, is rejected. *)
Theorem email_validator_shape (s : jsstring) :
  (matches emailRegex s → validate email_validator s = true) ∧
  (lacks_at s ∨ lacks_domain s → validate email_validator s = false).
Proof.
  split.
  - intros H. simpl. by apply test_matches.
  - intros H. simpl. apply not_true_is_false. intros Ht.
    apply test_matches, email_shape in Ht as (l & d & -> & Hd).
    destruct H as [H|H].
    + apply H. set_solver.
    + by apply Hd, (H l d).
Qed.

(** An address that is accepted, one without [@] and one with nothing
    after the [@]. *)
Lemma email_validator_shape_witness :
  validate email_validator (js "ada@example.org") = true ∧
  validate email_validator (js "ada.example.org") = false ∧
  validate email_validator (js "ada@") = false.
Proof.
  split; [|split].
  - apply (email_validator_shape (js "ada@example.org")).
    apply test_matches. vm_compute. reflexivity.
  - apply (email_validator_shape (js "ada.example.org")).
    left. unfold lacks_at. vm_compute. intros H.
    repeat (apply elem_of_cons in H as [H|H]; [discriminate H|]).
    by apply elem_of_nil in H.
  - apply (email_validator_shape (js "ada@")).
    right. intros l d H. vm_compute in H.
    do 3 (destruct l as [|? l]; [discriminate H | injection H as _ H]).
    destruct l as [|? l]; [by injection H as <- | injection H as _ H].
    by destruct l.
Defined.

(* ===================================================================== *)
(** * forms.js: the in-flight lock and the submit button                  *)
(* ===================================================================== *)

Module FormFacts.
Import Forms.

(** ** What the handlers leave alone *)

Lemma lookup_alter_loading (g : Form.t → Form.t) i (l : list Form.t) j fc' :
  (∀ fc, Form.loadingState (g fc) = Form.loadingState fc) →
  alter g i l !! j = Some fc' →
  ∃ fc, l !! j = Some fc ∧ Form.loadingState fc' = Form.loadingState fc.
Proof.
  intros Hg. destruct (decide (i = j)) as [->|Hne].
  - rewrite list_lookup_alter_eq. destruct (l !! j) as [fc|]; [|done].
    simpl. intros [= <-]. eauto.
  - rewrite list_lookup_alter_ne by done. eauto.
Qed.

Lemma updateFormValidation_loading fc :
  Form.loadingState (updateFormValidation fc) = Form.loadingState fc.
Proof. done. Qed.


Lemma same_lock_refl s : same_lock s s.
Proof. repeat split. eauto. Qed.

Lemma same_lock_trans s1 s2 s3 :
  same_lock s1 s2 → same_lock s2 s3 → same_lock s1 s3.
Proof.
  intros (H1 & H2 & H3 & H4) (H1' & H2' & H3' & H4').
  repeat split; try congruence.
  intros j fc' Hj. destruct (H4' _ _ Hj) as (fc2 & Hj2 & ?).
  destruct (H4 _ _ Hj2) as (fc1 & Hj1 & ?). exists fc1. split; congruence.
Qed.

Lemma same_lock_alter_form i g s :
  (∀ fc, Form.loadingState (g fc) = Form.loadingState fc) →
  same_lock s (alter_form i g s).
Proof.
  intros Hg. repeat split. simpl. intros j fc'.
  by apply lookup_alter_loading.
Qed.

Lemma same_lock_with_activeElement a s : same_lock s (with_activeElement a s).
Proof. repeat split. simpl. eauto. Qed.

Lemma same_lock_with_timers ts s : same_lock s (with_timers ts s).
Proof. repeat split. simpl. eauto. Qed.

Lemma same_lock_on_blur a s : same_lock s (on_blur a s).
Proof. by apply same_lock_alter_form. Qed.

Lemma same_lock_on_focus a s : same_lock s (on_focus a s).
Proof. by apply same_lock_alter_form. Qed.

Lemma same_lock_focus_element a s : same_lock s (focus_element a s).
Proof.
  unfold focus_element. case_decide; [apply same_lock_refl|].
  eapply same_lock_trans; [|apply same_lock_on_focus].
  eapply same_lock_trans; [|apply same_lock_with_activeElement].
  destruct (activeElement s); [apply same_lock_on_blur | apply same_lock_refl].
Qed.

Lemma same_lock_focusFirstInvalidField i s :
  same_lock s (focusFirstInvalidField i s).
Proof.
  unfold focusFirstInvalidField.
  destruct (forms s !! i); [|apply same_lock_refl].
  destruct (List.find _ _); [apply same_lock_focus_element | apply same_lock_refl].
Qed.

Lemma same_lock_resetForm i s : same_lock s (resetForm i s).
Proof. by apply same_lock_alter_form. Qed.

Lemma same_lock_fire t s : same_lock s (fire t s).
Proof.
  destruct t; simpl; [by apply same_lock_alter_form | apply same_lock_resetForm].
Qed.

Lemma same_lock_on_input i k v s : same_lock s (on_input i k v s).
Proof.
  unfold on_input.
  eapply same_lock_trans; [|apply same_lock_with_timers].
  by apply same_lock_alter_form.
Qed.

Lemma focus_element_active a s : activeElement (focus_element a s) = Some a.
Proof. unfold focus_element. by case_decide. Qed.

(** ** The in-flight lock *)

Lemma lock_inv_same_lock s s' : same_lock s s' → lock_inv s → lock_inv s'.
Proof.
  intros (H1 & H2 & _ & H4) [Hlock Hload]. split.
  - by rewrite H1, H2.
  - intros j fc' Hj. destruct (H4 _ _ Hj) as (fc & Hj0 & ->).
    rewrite H2. by apply Hload.
Qed.

Lemma validateForm_loading fc :
  Form.loadingState (validateForm fc).1 = Form.loadingState fc.
Proof. done. Qed.

Lemma lock_inv_init page : lock_inv (initializeForms page).
Proof.
  split; [by left|]. simpl. intros j fc Hj.
  apply list_lookup_fmap_Some in Hj as (form & -> & _). done.
Qed.

Lemma setFormLoadingState_lookup i b s j fc' :
  forms (setFormLoadingState i b s) !! j = Some fc' →
  ∃ fc, forms s !! j = Some fc ∧
        Form.loadingState fc' = if decide (i = j) then b else Form.loadingState fc.
Proof.
  simpl. destruct (decide (i = j)) as [->|Hne].
  - rewrite list_lookup_alter_eq. destruct (forms s !! j) as [fc|]; [|done].
    simpl. intros [= <-]. eauto.
  - rewrite list_lookup_alter_ne by done. eauto.
Qed.

Lemma lock_inv_handleSubmit i s : lock_inv s → lock_inv (handleSubmit i s).
Proof.
  intros Hinv. unfold handleSubmit.
  destruct (forms s !! i) as [fc|] eqn:Hi; [|done].
  destruct (isSubmitting s || Form.loadingState fc) eqn:Hlocked; [done|].
  apply orb_false_iff in Hlocked as [Hsub Hload].
  destruct (validateForm fc) as [fc' isValid] eqn:Hv.
  assert (Hfc' : fc' = (validateForm fc).1) by by rewrite Hv.
  set (s1 := with_forms (<[i:=fc']> (forms s)) s).
  assert (Hs1 : same_lock s s1).
  { repeat split. simpl. intros j fc1.
    destruct (decide (i = j)) as [->|Hne].
    - rewrite list_lookup_insert_eq by by eapply lookup_lt_Some.
      intros [= <-]. exists fc. by rewrite Hfc'.
    - rewrite list_lookup_insert_ne by done. eauto. }
  apply (lock_inv_same_lock _ _ Hs1) in Hinv.
  destruct isValid; simpl.
  - destruct Hinv as [Hlock Hflags].
    assert (Hnone : inflight s1 = []).
    { destruct Hlock as [[_ ?]|[? _]]; [done|]. simpl in *. congruence. }
    split; simpl.
    + right. split; [done|]. exists i. simpl in Hnone. by rewrite Hnone.
    + intros j fc2 Hj. simpl in Hnone. rewrite Hnone. simpl.
      apply (setFormLoadingState_lookup i true s1) in Hj as (fc1 & Hj1 & ->).
      destruct (decide (i = j)) as [->|Hne].
      * symmetry. apply bool_decide_eq_true. by left.
      * rewrite (Hflags _ _ Hj1). simpl. rewrite Hnone.
        rewrite !bool_decide_eq_false_2; [done| |apply not_elem_of_nil].
        rewrite list_elem_of_singleton. congruence.
  - by apply (lock_inv_same_lock _ _ (same_lock_focusFirstInvalidField i s1)).
Qed.

Lemma lock_inv_settled i r s :
  i ∈ inflight s → lock_inv s → lock_inv (handleSubmit_settled i r s).
Proof.
  intros Hin [Hlock Hflags].
  destruct Hlock as [[_ Hnil]|[Hsub [i' Hone]]].
  { rewrite Hnil in Hin. by apply elem_of_nil in Hin. }
  rewrite Hone in Hin. apply list_elem_of_singleton in Hin as <-.
  unfold handleSubmit_settled.
  set (s1 := match r, forms s !! i with
             | Resolved _, Some fc =>
                 if Form.resetOnSuccess fc
                 then with_timers (timers s ++ [ResetTimer i]) s else s
             | _, _ => s
             end).
  assert (Hs1 : same_lock s s1).
  { unfold s1. destruct r; [|apply same_lock_refl].
    destruct (forms s !! i) as [fc|]; [|apply same_lock_refl].
    destruct (Form.resetOnSuccess fc);
      [apply same_lock_with_timers | apply same_lock_refl]. }
  destruct Hs1 as (_ & Hin1 & _ & Hforms1).
  split; simpl.
  - left. split; [done|]. rewrite Hin1, Hone. simpl. by rewrite decide_True.
  - intros j fc2 Hj. rewrite Hin1, Hone. simpl. rewrite decide_True by done.
    apply (setFormLoadingState_lookup i false s1) in Hj as (fc1 & Hj1 & ->).
    destruct (decide (i = j)) as [->|Hne].
    + symmetry. apply bool_decide_eq_false, not_elem_of_nil.
    + destruct (Hforms1 _ _ Hj1) as (fc & Hj0 & ->).
      rewrite (Hflags _ _ Hj0), Hone.
      rewrite !bool_decide_eq_false_2; [done|apply not_elem_of_nil|].
      rewrite list_elem_of_singleton. congruence.
Qed.

Lemma lock_inv_step s e s' : lock_inv s → step s e = Some s' → lock_inv s'.
Proof.
  intros Hinv. destruct e as [i k v|i k| |i|t|i r]; simpl.
  - destruct (has_field i k s); [|done]. intros [= <-].
    by apply (lock_inv_same_lock _ _ (same_lock_on_input i k v s)).
  - destruct (has_field i k s); [|done]. intros [= <-].
    by apply (lock_inv_same_lock _ _ (same_lock_focus_element (i, k) s)).
  - destruct (activeElement s) as [a|]; [|done]. intros [= <-].
    eapply lock_inv_same_lock; [apply same_lock_with_activeElement|].
    by apply (lock_inv_same_lock _ _ (same_lock_on_blur a s)).
  - case_bool_decide; [|done]. intros [= <-]. by apply lock_inv_handleSubmit.
  - case_bool_decide; [|done]. intros [= <-].
    eapply lock_inv_same_lock; [apply same_lock_fire|].
    by eapply lock_inv_same_lock; [apply same_lock_with_timers|].
  - case_bool_decide; [|done]. intros [= <-]. by apply lock_inv_settled.
Qed.

Lemma reachable_lock_inv page s : reachable page s → lock_inv s.
Proof.
  induction 1 as [|s e s' _ IHs Hstep]; [apply lock_inv_init|].
  by eapply lock_inv_step.
Qed.

Lemma run_reachable page s es s' :
  reachable page s → run s es = Some s' → reachable page s'.
Proof.
  revert s. induction es as [|e es IHes]; intros s Hs; simpl.
  - by intros [= <-].
  - destruct (step s e) as [s1|] eqn:Hstep; [|done].
    apply IHes. by eapply reachable_step.
Qed.

(** A submit attempt under the lock changes nothing. *)
Lemma handleSubmit_locked i s : isSubmitting s = true → handleSubmit i s = s.
Proof.
  intros Hsub. unfold handleSubmit. rewrite Hsub.
  by destruct (forms s !! i).
Qed.

End FormFacts.

Module FormProperties.
Import Forms FormFacts.

(** ** Submitting an invalid form *)

Lemma validateField_isValid f :
  Field.isValid (validateField f).1 = (validateField f).2.
Proof. unfold validateField. by destruct (first_failure _ _). Qed.

Lemma validateForm_false fc :
  (∃ k f, (k, f) ∈ Form.fields fc ∧ invalid f) → (validateForm fc).2 = false.
Proof.
  intros (k & f & Hin & Hf). simpl. apply not_true_is_false. intros Hall.
  rewrite forallb_forall in Hall.
  specialize (Hall f). rewrite Hf in Hall. discriminate Hall.
  apply in_map_iff. exists (k, f). split; [done|]. by apply list_elem_of_In.
Qed.

(** [focusFirstInvalidField] after [validateForm] finds the first field
    that is invalid. *)
Lemma find_first_invalid (fs : list (jsstring * Field.t)) :
  (∃ k f, (k, f) ∈ fs ∧ invalid f) →
  ∃ before k f after,
    fs = before ++ (k, f) :: after ∧
    Forall (λ kf, ¬ invalid kf.2) before ∧ invalid f ∧
    List.find (λ kf, negb (Field.isValid kf.2))
              (JsMap.map_values (λ f, (validateField f).1) fs)
    = Some (k, (validateField f).1).
Proof.
  induction fs as [|[k0 f0] fs IHfs]; intros (k & f & Hin & Hf).
  { by apply elem_of_nil in Hin. }
  destruct ((validateField f0).2) eqn:Hf0.
  - destruct IHfs as (before & k1 & f1 & after & -> & Hb & Hf1 & Hfind).
    { apply elem_of_cons in Hin as [[= -> ->]|Hin]; [|by eauto].
      unfold invalid in Hf. congruence. }
    exists ((k0, f0) :: before), k1, f1, after. repeat split; try done.
    + constructor; [|done]. unfold invalid. simpl. by rewrite Hf0.
    + simpl. rewrite validateField_isValid, Hf0. simpl. apply Hfind.
  - exists [], k0, f0, fs. repeat split; try done.
    simpl. by rewrite validateField_isValid, Hf0.
Qed.

(** C3, as the code has it.  A submit attempt on a form with an invalid
    field issues no network request; and when no submission is in
    flight the focus moves to the first invalid field. *)
Theorem invalid_submit_blocked (s : Controller) (i : nat) (fc : Form.t) :
  forms s !! i = Some fc →
  (∃ k f, (k, f) ∈ Form.fields fc ∧ invalid f) →
  requests (handleSubmit i s) = requests s ∧
  inflight (handleSubmit i s) = inflight s ∧
  (isSubmitting s = false → Form.loadingState fc = false →
   ∃ k, first_invalid fc k ∧ activeElement (handleSubmit i s) = Some (i, k)).
Proof.
  intros Hi Hinvalid. unfold handleSubmit. rewrite Hi.
  destruct (isSubmitting s || Form.loadingState fc) eqn:Hlocked.
  { repeat split. intros Hs Hl. by rewrite Hs, Hl in Hlocked. }
  pose proof (validateForm_false fc Hinvalid) as Hfalse.
  destruct (validateForm fc) as [fc' isValid] eqn:Hv. simpl in Hfalse.
  subst isValid. simpl.
  set (s1 := with_forms (<[i:=fc']> (forms s)) s).
  destruct (same_lock_focusFirstInvalidField i s1) as (_ & Hin & Hreq & _).
  repeat split; [done..|]. intros _ _.
  destruct (find_first_invalid _ Hinvalid)
    as (before & k & f & after & Hfs & Hb & Hf & Hfind).
  exists k. split; [by exists before, f, after|].
  unfold focusFirstInvalidField. simpl.
  rewrite list_lookup_insert_eq by by eapply lookup_lt_Some.
  assert (Hfields : Form.fields fc'
                    = JsMap.map_values (λ f, (validateField f).1) (Form.fields fc)).
  { by injection Hv as <- _. }
  rewrite Hfields, Hfind. simpl. apply focus_element_active.
Qed.

(** ** The submit button *)


(** ** One submission at a time *)

(** C7. In every reachable state no form has two submissions in flight,
    and a submit attempt on a form whose submission is in flight leaves
    the whole state as it is: no field is validated, nothing changes,
    no request is issued. *)
Theorem inflight_submit_dropped (page : list DomForm) (s : Controller) :
  reachable page s →
  NoDup (inflight s) ∧ ∀ i, i ∈ inflight s → handleSubmit i s = s.
Proof.
  intros Hreach. apply reachable_lock_inv in Hreach as [Hlock _].
  destruct Hlock as [[_ Hnil]|[Hsub [i' Hone]]].
  - rewrite Hnil. split; [constructor|]. intros i Hi. by apply elem_of_nil in Hi.
  - rewrite Hone. split; [apply NoDup_singleton|].
    intros i _. by apply handleSubmit_locked.
Qed.

(** C10. The lock is the controller's: while the submission of one form
    is in flight [isSubmitting] is set, and a submit attempt on any
    other form, which is not itself loading, leaves the whole state as
    it is. *)
Theorem lock_is_global (page : list DomForm) (s : Controller) (i : nat) :
  reachable page s → i ∈ inflight s →
  isSubmitting s = true ∧
  ∀ j fc, j ≠ i → forms s !! j = Some fc →
          Form.loadingState fc = false ∧ handleSubmit j s = s.
Proof.
  intros Hreach Hi. apply reachable_lock_inv in Hreach as [Hlock Hflags].
  destruct Hlock as [[_ Hnil]|[Hsub [i' Hone]]].
  { rewrite Hnil in Hi. by apply elem_of_nil in Hi. }
  split; [done|]. intros j fc Hne Hj. split; [|by apply handleSubmit_locked].
  rewrite (Hflags _ _ Hj), Hone. apply bool_decide_eq_false.
  rewrite Hone in Hi. apply list_elem_of_singleton in Hi as ->.
  by rewrite list_elem_of_singleton.
Qed.

End FormProperties.

Module FormExamples.
Import Forms FormFacts FormProperties.

Lemma first_form_submitted_reachable :
  reachable landing_page (state_after landing_page first_form_submitted).
Proof.
  apply (run_reachable _ (initializeForms landing_page) first_form_submitted);
    [apply reachable_init|].
  vm_compute. reflexivity.
Qed.

(** The second form is submitted empty on a fresh page. *)
Lemma invalid_submit_blocked_witness :
  requests (handleSubmit 1 (initializeForms landing_page)) = [] ∧
  inflight (handleSubmit 1 (initializeForms landing_page)) = [].
Proof.
  pose proof (invalid_submit_blocked (initializeForms landing_page) 1
                (initializeForm (signup false)) eq_refl) as H.
  destruct H as (Hreq & Hin & _); [|by split].
  eexists _, _. split; [apply elem_of_cons; left; reflexivity|].
  vm_compute. reflexivity.
Defined.

(** C3 as the specification words it fails while a submission is in
    flight: the second form has an invalid (empty, required) field, a
    submit attempt on it is dropped, and no field receives the focus. *)
Lemma invalid_submit_not_focused :
  ∃ s fc,
    reachable landing_page s ∧ forms s !! 1 = Some fc ∧
    first_invalid fc email_key ∧
    activeElement (handleSubmit 1 s) = None.
Proof.
  exists (state_after landing_page first_form_submitted),
         (initializeForm (signup false)).
  split; [apply first_form_submitted_reachable|].
  split; [vm_compute; reflexivity|].
  split; [|vm_compute; reflexivity].
  eexists [], _, []. split; [reflexivity|]. split; [constructor|].
  vm_compute. reflexivity.
Qed.




(** A second submit of the first form while its request is in flight. *)
Lemma inflight_submit_dropped_witness :
  handleSubmit 0 (state_after landing_page first_form_submitted)
  = state_after landing_page first_form_submitted.
Proof.
  apply (inflight_submit_dropped landing_page _ first_form_submitted_reachable).
  vm_compute. apply elem_of_cons. left. reflexivity.
Defined.

(** A submit of the second form while the first form's request is in
    flight. *)
Lemma lock_is_global_witness :
  handleSubmit 1 (state_after landing_page first_form_submitted)
  = state_after landing_page first_form_submitted.
Proof.
  refine (proj2 (proj2 (lock_is_global landing_page _ 0
                          first_form_submitted_reachable _)
                   1 (initializeForm (signup false)) _ _)).
  - vm_compute. apply elem_of_cons. left. reflexivity.
  - discriminate.
  - vm_compute. reflexivity.
Defined.

End FormExamples.

(* ===================================================================== *)
(** * A [Map] read after it was written                                   *)
(* ===================================================================== *)

Section JsMapFacts.
Context {K V : Type} `{EqDecision K}.
Implicit Types (m : list (K * V)) (k : K) (v : V).

Lemma get_set k k' v m :
  JsMap.get k (JsMap.set k' v m) = if decide (k = k') then Some v else JsMap.get k m.
Proof.
  induction m as [|[k0 v0] m IHm]; simpl.
  - by destruct (decide (k = k')).
  - destruct (decide (k' = k0)) as [->|Hne]; simpl;
      repeat case_decide; congruence.
Qed.

Lemma get_delete k k' m :
  JsMap.get k (JsMap.delete k' m) = if decide (k = k') then None else JsMap.get k m.
Proof.
  induction m as [|[k0 v0] m IHm]; simpl.
  - by destruct (decide (k = k')).
  - destruct (decide (k' = k0)) as [->|Hne]; simpl;
      repeat case_decide; congruence.
Qed.

Lemma get_app_new k k' v m :
  k ≠ k' → JsMap.get k (m ++ [(k', v)]) = JsMap.get k m.
Proof.
  intros Hne. induction m as [|[k0 v0] m IHm]; simpl.
  - by case_decide.
  - by rewrite IHm.
Qed.

Lemma get_None_keys k m : JsMap.get k m = None ↔ k ∉ JsMap.keys m.
Proof.
  induction m as [|[k0 v0] m IHm]; simpl.
  - split; [intros _; apply not_elem_of_nil | done].
  - rewrite not_elem_of_cons. case_decide as Hk.
    + split; [done | by intros [? _]].
    + rewrite IHm. split; [done | by intros [_ ?]].
Qed.

Lemma get_foldl_delete k (ks : list K) m :
  JsMap.get k (foldl (λ m' k', JsMap.delete k' m') m ks)
  = if decide (k ∈ ks) then None else JsMap.get k m.
Proof.
  revert m. induction ks as [|k0 ks IHks]; intros m; simpl.
  - done.
  - rewrite IHks, get_delete.
    destruct (decide (k ∈ ks)) as [Hin|Hnin], (decide (k = k0)) as [->|Hne],
      (decide (_ ∈ _ :: ks)) as [Hc|Hc]; try done.
    + exfalso. apply Hc. by right.
    + exfalso. apply Hc. by right.
    + exfalso. apply Hc. by left.
    + by apply elem_of_cons in Hc as [?|?].
Qed.
End JsMapFacts.

(* ===================================================================== *)
(** * [split] and the last segment                                        *)
(* ===================================================================== *)

Section SplitFacts.
Implicit Types (s base raw : jsstring) (sep : code).

Lemma split_no_sep sep s : sep ∉ s → split sep s = [s].
Proof.
  induction s as [|c s IHs]; simpl; [done|].
  rewrite not_elem_of_cons. intros [Hc Hs].
  case_decide; [congruence|]. by rewrite IHs.
Qed.




End SplitFacts.

(* ===================================================================== *)
(** * service-worker.js: strategy dispatch                                *)
(* ===================================================================== *)

Module DispatchFacts.
Import ServiceWorker.










End DispatchFacts.

Module Dispatch.
Import ServiceWorker DispatchFacts.




End Dispatch.

(* ===================================================================== *)
(** * service-worker.js: activation                                       *)
(* ===================================================================== *)

Module Activation.
Import ServiceWorker.

Lemma elem_of_old_caches name (names : list jsstring) :
  name ∈ List.filter
           (λ n, bool_decide (n ≠ CACHE_NAME) && bool_decide (n ≠ RUNTIME_CACHE))
           names
  ↔ name ∈ names ∧ name ≠ CACHE_NAME ∧ name ≠ RUNTIME_CACHE.
Proof.
  rewrite list_elem_of_In, filter_In, <- list_elem_of_In.
  rewrite andb_true_iff, !bool_decide_eq_true. tauto.
Qed.

(** C4. Activation leaves no store under any name other than
    [CACHE_NAME] and [RUNTIME_CACHE], and the stores under these two
    names are the ones that were there, with the entries they had. *)
Theorem activate_cleans_old_caches (w : Worker) (name : jsstring) :
  JsMap.get name (caches (activate w))
  = if decide (name = CACHE_NAME ∨ name = RUNTIME_CACHE)
    then JsMap.get name (caches w)
    else None.
Proof.
  simpl. unfold cleanupOldCaches, caches_delete, caches_keys.
  etrans; [apply get_foldl_delete|].
  destruct (decide (name ∈ _)) as [Hin|Hnin].
  - apply elem_of_old_caches in Hin as (_ & H1 & H2).
    destruct (decide (_ ∨ _)) as [[?|?]|_]; done.
  - destruct (decide (_ ∨ _)) as [_|Hold]; [done|].
    apply get_None_keys. intros Hk. apply Hnin, elem_of_old_caches.
    split; [done|]. split; intros ->; apply Hold; auto.
Qed.

End Activation.

(* ===================================================================== *)
(** * service-worker.js: network first                                    *)
(* ===================================================================== *)

Module NetworkFirstFacts.
Import ServiceWorker.

(** C5, as the code has it.  A response that is not ok is returned and
    nothing is stored.  An ok response to a request the cache accepts
    ([GET], not partial content) is returned, and the runtime store then
    holds it under the request's URL, every other entry and store being
    as before.  When the fetch throws, the cached entry for the request
    is returned if there is one, and the failure is thrown on if there is
    none. *)
Theorem networkFirst_cases (request : Request) (caches : CacheStorage) :
  (∀ response, ok response = false →
     networkFirst request (Resolved response) caches
     = (caches, Resolved response)) ∧
  (∀ response, ok response = true →
     method request = GET → status response ≠ 206%N →
     ∃ caches' cache,
       networkFirst request (Resolved response) caches
       = (caches', Resolved response) ∧
       JsMap.get RUNTIME_CACHE caches' = Some cache ∧
       cache = <[url request := response]>
                 (default ∅ (JsMap.get RUNTIME_CACHE caches)) ∧
       ∀ name, name ≠ RUNTIME_CACHE →
               JsMap.get name caches' = JsMap.get name caches) ∧
  (∀ error cached, caches_match caches request = Some cached →
     networkFirst request (Rejected error) caches
     = (caches, Resolved cached)) ∧
  (∀ error, caches_match caches request = None →
     networkFirst request (Rejected error) caches
     = (caches, Rejected error)).
Proof.
  repeat split.
  - intros response Hok. simpl. by rewrite Hok.
  - intros response Hok Hget H206. simpl. rewrite Hok.
    unfold caches_open, cache_put.
    destruct (JsMap.get RUNTIME_CACHE caches) as [cache|] eqn:Hrt; simpl.
    + rewrite !decide_True by done. rewrite decide_False by done.
      eexists _, _. split; [done|]. split; [|split; [done|]].
      * rewrite get_set. by rewrite decide_True.
      * intros name Hne. rewrite get_set. by rewrite decide_False.
    + rewrite !decide_True by done. rewrite decide_False by done.
      eexists _, _. split; [done|]. split; [|split; [done|]].
      * rewrite get_set. by rewrite decide_True.
      * intros name Hne. rewrite get_set. rewrite decide_False by done.
        by apply get_app_new.
  - intros error cached Hc. simpl. unfold networkFirst_catch. by rewrite Hc.
  - intros error Hc. simpl. unfold networkFirst_catch. by rewrite Hc.
Qed.

(** The network is down: [/api/data] comes from the runtime store when
    it is there, and the failure is thrown on when it is not. *)
Lemma networkFirst_cases_witness :
  networkFirst api_data (Rejected offline)
    [(RUNTIME_CACHE, {[ url api_data := older ]})]
  = ([(RUNTIME_CACHE, {[ url api_data := older ]})], Resolved older)
  ∧ networkFirst api_data (Rejected offline) [] = ([], Rejected offline).
Proof.
  split.
  - apply (networkFirst_cases api_data
             [(RUNTIME_CACHE, {[ url api_data := older ]})]).
    vm_compute. reflexivity.
  - apply (networkFirst_cases api_data []). reflexivity.
Defined.

(** C5 as the specification words it fails in two places: a fetch that
    succeeds with a response that is not ok stores nothing, and a fetch
    of a request that is not a [GET] hands back the rejection of
    [cache.put] in place of the ok response it received. *)
Lemma networkFirst_not_always_stored :
  networkFirst api_data (Resolved not_found) []
    = ([], Resolved not_found)
  ∧ (∃ rejection,
       networkFirst api_subscribe (Resolved fine) []
       = ([(RUNTIME_CACHE, ∅)], Rejected rejection)).
Proof.
  split; [reflexivity|]. eexists. vm_compute. reflexivity.
Qed.

End NetworkFirstFacts.

(* ===================================================================== *)
(** * functions/index.js: deduplication and analytics                     *)
(* ===================================================================== *)

Module CaptureFacts.
Import Endpoint.
Local Open Scope Z_scope.

Section Handler.
Variable emailSchema_validate : json → validation.
Variable normalizeEmail : jsstring → option jsstring.

Local Abbreviation email_capture := (email_capture emailSchema_validate normalizeEmail).
Local Abbreviation post_email_capture :=
  (post_email_capture emailSchema_validate normalizeEmail).
Local Abbreviation accepted := (accepted emailSchema_validate normalizeEmail).

Lemma logAnalyticsEvent_leads env name params db :
  email_leads (logAnalyticsEvent env name params db) = email_leads db.
Proof.
  unfold logAnalyticsEvent. destruct (holds_undefined params); [done|].
  by destruct (analytics_rejects env).
Qed.



(** A first submission of [e]: the lead is appended with counter 1. *)
Lemma capture_new req env db e :
  accepted req env e → datastore_up env →
  Forall (λ lead, email lead ≠ e) (email_leads db) →
  ∃ lead,
    email_leads (post_email_capture req env db).1 = email_leads db ++ [lead] ∧
    email lead = e ∧ subscriptionCount lead = 1 ∧
    (post_email_capture req env db).2 = created env (length (email_leads db)).
Proof.
  intros (Hrate & value & Hv & Hs & He & Hd) (Hq & Hw) Hfresh.
  unfold Endpoint.post_email_capture, Endpoint.email_capture.
  rewrite Hrate, Hv, Hs, He, Hd, Hq, Hw. simpl.
  rewrite (proj2 (list_find_None (λ lead, email lead = e) _) Hfresh). simpl.
  rewrite logAnalyticsEvent_leads. simpl. by eexists.
Qed.

(** A submission of [e] when the first lead with that address is
    [existing], at position [id]: its counter is incremented. *)
Lemma capture_existing req env db e id existing :
  accepted req env e → datastore_up env →
  list_find (λ lead, email lead = e) (email_leads db) = Some (id, existing) →
  ∃ lead,
    email_leads (post_email_capture req env db).1
      = <[id := lead]> (email_leads db) ∧
    subscriptionCount lead = increment (subscriptionCount existing) ∧
    (post_email_capture req env db).2 = updated env id.
Proof.
  intros (Hrate & value & Hv & Hs & He & Hd) (Hq & Hw) Hfind.
  unfold Endpoint.post_email_capture, Endpoint.email_capture.
  rewrite Hrate, Hv, Hs, He, Hd, Hq, Hw. simpl.
  rewrite Hfind. simpl.
  rewrite logAnalyticsEvent_leads. simpl. by eexists.
Qed.

(** C1. Two accepted submissions of the same normalized address [e],
    the first made when no lead has that address and both with the
    datastore answering: the first is answered 201 with [isNew] true,
    the second 200 with [isNew] false and the same lead id, and the
    lead's subscription counter after the second is its value after
    the first plus one. *)
Theorem same_email_twice req1 env1 req2 env2 db e :
  accepted req1 env1 e → accepted req2 env2 e →
  datastore_up env1 → datastore_up env2 →
  Forall (λ lead, email lead ≠ e) (email_leads db) →
  let first := post_email_capture req1 env1 db in
  let second := post_email_capture req2 env2 first.1 in
  http_status first.2 = 201 ∧
  response_isNew (response_json first.2) = Some true ∧
  http_status second.2 = 200 ∧
  response_isNew (response_json second.2) = Some false ∧
  ∃ id counter,
    leadId (response_json first.2) = Some id ∧
    leadId (response_json second.2) = Some id ∧
    counter_of first.1 id = Some counter ∧
    counter_of second.1 id = Some (counter + 1).
Proof.
  intros Ha1 Ha2 Hup1 Hup2 Hfresh first second.
  destruct (capture_new req1 env1 db e Ha1 Hup1 Hfresh)
    as (lead & Hleads & Hemail & Hcount & Hresp).
  fold first in Hleads, Hresp.
  assert (Hfind : list_find (λ l, email l = e) (email_leads first.1)
                  = Some (length (email_leads db), lead)).
  { rewrite Hleads.
    rewrite list_find_app_r
      by apply (proj2 (list_find_None (λ lead, email lead = e) _) Hfresh).
    simpl.
    rewrite decide_True by done. reflexivity. }
  destruct (capture_existing req2 env2 first.1 e _ _ Ha2 Hup2 Hfind)
    as (lead' & Hleads' & Hcount' & Hresp').
  fold second in Hleads', Hresp'.
  rewrite Hresp, Hresp'. simpl. repeat split.
  exists (length (email_leads db)), 1. repeat split.
  - unfold counter_of. rewrite Hleads.
    rewrite lookup_app_r by lia. rewrite Nat.sub_diag. simpl. by rewrite Hcount.
  - unfold counter_of. rewrite Hleads', Hleads.
    rewrite list_lookup_insert_eq by (rewrite length_app; simpl; lia).
    simpl. rewrite Hcount', Hcount. reflexivity.
Qed.


End Handler.
End CaptureFacts.

Module CaptureExamples.
Import Endpoint CaptureFacts.
Local Open Scope Z_scope.

(** The same address in two spellings, into an empty collection. *)
Lemma same_email_twice_witness :
  http_status
    (post_email_capture example_validate example_normalize
       (request_for "Ada@Example.org") quiet empty_db).2 = 201 ∧
  http_status
    (post_email_capture example_validate example_normalize
       (request_for "ada@example.org") quiet
       (post_email_capture example_validate example_normalize
          (request_for "Ada@Example.org") quiet empty_db).1).2 = 200.
Proof.
  assert (Hfirst : accepted example_validate example_normalize
                     (request_for "Ada@Example.org") quiet (js "ada@example.org")).
  { split; [reflexivity|]. eexists. repeat split; vm_compute; reflexivity. }
  assert (Hsecond : accepted example_validate example_normalize
                      (request_for "ada@example.org") quiet (js "ada@example.org")).
  { split; [reflexivity|]. eexists. repeat split; vm_compute; reflexivity. }
  assert (Hup : datastore_up quiet) by (split; reflexivity).
  pose proof (same_email_twice example_validate example_normalize
                _ _ _ _ empty_db _ Hfirst Hsecond Hup Hup
                ltac:(constructor)) as H.
  cbv zeta in H. destruct H as (H1 & _ & H2 & _). by split.
Defined.

(** C9, where the code departs from it.  A first subscription whose
    body names no campaign: the lead is stored and the answer is 201,
    but the success event, which would carry [campaign: undefined], is
    not written; the same subscription with a campaign is recorded. *)
Lemma success_not_recorded :
  ((post_email_capture example_validate example_normalize
      (request_for "ada@example.org") quiet empty_db).2
   = created quiet 0 ∧
   length (email_leads
             (post_email_capture example_validate example_normalize
                (request_for "ada@example.org") quiet empty_db).1) = 1%nat ∧
   analytics_events
     (post_email_capture example_validate example_normalize
        (request_for "ada@example.org") quiet empty_db).1 = []) ∧
  recorded empty_db
    (post_email_capture example_validate example_normalize
       (campaign_request_for "ada@example.org") quiet empty_db).1
    "email_capture_success"
    (capture_parameters (js "ada@example.org") (Some (js "website"))
                        (Some (js "launch")) true 0).
Proof.
  split; [repeat split; vm_compute; reflexivity|].
  eexists. repeat split; vm_compute; reflexivity.
Qed.


End CaptureExamples.

(* ===================================================================== *)
(** * forms.js: what the validators accept                                *)
(* ===================================================================== *)

Section MoreRegexFacts.

Lemma matches_Star_Class p s :
  matches (Star (Class p)) s ↔ Forall (λ c, p c = true) s.
Proof.
  split.
  - intros H. remember (Star (Class p)) as r eqn:Hr.
    induction H as [| | | | | |r0 s1 s2 H1 _ H2 IH2]; try discriminate.
    + constructor.
    + injection Hr as ->. apply matches_Class_inv in H1 as (c & -> & Hc).
      constructor; [done | by apply IH2].
  - induction 1 as [|c s Hc _ IH]; [constructor|].
    apply (MStarApp _ [c] s); [by constructor | done].
Qed.

Lemma matches_Plus_Class p s :
  matches (Plus (Class p)) s ↔ s ≠ [] ∧ Forall (λ c, p c = true) s.
Proof.
  split.
  - intros H. apply matches_Seq_inv in H as (s1 & s2 & -> & H1 & H2).
    apply matches_Class_inv in H1 as (c & -> & Hc).
    apply matches_Star_Class in H2. split; [done | by constructor].
  - intros [Hne Hall]. destruct Hall as [|c s Hc Hall]; [done|].
    apply (MSeq _ _ [c] s); [by constructor | by apply matches_Star_Class].
Qed.

Lemma matches_Class_eqb a s : matches (Class (N.eqb a)) s ↔ s = [a].
Proof.
  split.
  - intros H. apply matches_Class_inv in H as (c & -> & Hc).
    by apply N.eqb_eq in Hc as ->.
  - intros ->. constructor. apply N.eqb_refl.
Qed.

Lemma matches_Seq_iff r1 r2 s :
  matches (Seq r1 r2) s ↔ ∃ s1 s2, s = s1 ++ s2 ∧ matches r1 s1 ∧ matches r2 s2.
Proof.
  split; [apply matches_Seq_inv|]. intros (s1 & s2 & -> & H1 & H2).
  by constructor.
Qed.

End MoreRegexFacts.

Section TrimFacts.

Lemma trimStart_nil_iff s : trimStart s = [] ↔ Forall (λ c, is_space c = true) s.
Proof.
  induction s as [|c s IHs]; simpl; [done|].
  destruct (is_space c) eqn:Hc.
  - rewrite IHs. split; [by constructor | by inversion 1].
  - split; [done | inversion 1; congruence].
Qed.

(** What [trimStart] leaves is empty or starts with a code unit that is
    no white space. *)
Lemma trimStart_head s :
  trimStart s = [] ∨ ∃ c t, trimStart s = c :: t ∧ is_space c = false.
Proof.
  induction s as [|c s IHs]; simpl; [by left|].
  destruct (is_space c) eqn:Hc; [done|]. right. by exists c, s.
Qed.

Lemma trimStart_suffix s : ∃ blanks, s = blanks ++ trimStart s
                                     ∧ Forall (λ c, is_space c = true) blanks.
Proof.
  induction s as [|c s (blanks & Hs & Hb)]; simpl; [by exists []|].
  destruct (is_space c) eqn:Hc.
  - exists (c :: blanks). split; [by rewrite Hs at 1 | by constructor].
  - by exists [].
Qed.

Lemma trim_nil_iff s : trim s = [] ↔ Forall (λ c, is_space c = true) s.
Proof.
  unfold trim. split.
  - intros Hnil. apply (f_equal (@rev _)) in Hnil.
    rewrite rev_involutive in Hnil. simpl in Hnil.
    apply trimStart_nil_iff, List.Forall_rev in Hnil.
    rewrite rev_involutive in Hnil.
    destruct (trimStart_head s) as [Hs|(c & t & Hs & Hc)].
    + by apply trimStart_nil_iff.
    + rewrite Hs in Hnil. inversion Hnil; congruence.
  - intros Hall. destruct (trimStart_suffix s) as (blanks & Hs & _).
    rewrite Hs in Hall. apply Forall_app in Hall as [_ Hall].
    apply List.Forall_rev, trimStart_nil_iff in Hall. by rewrite Hall.
Qed.

Lemma blank_or_not s :
  Forall (λ c, is_space c = true) s ∨ ∃ c, c ∈ s ∧ is_space c = false.
Proof.
  induction s as [|c s [IHs|(c' & Hc' & Hsp)]].
  - by left.
  - destruct (is_space c) eqn:Hc; [left; by constructor|].
    right. exists c. split; [by left | done].
  - right. exists c'. split; [by right | done].
Qed.

End TrimFacts.

Module ValidatorFacts.
Import Forms.

(** X1. The [email] validator accepts exactly the strings made of a
    local part, an [@], a domain, a dot and an ending, where the three
    parts are non-empty and hold neither white space nor [@]. *)
Theorem email_validator_exact (s : jsstring) :
  validate email_validator s = true ↔
  ∃ l d t,
    s = l ++ at_sign :: d ++ dot :: t ∧
    (l ≠ [] ∧ Forall (λ c, not_space_at c = true) l) ∧
    (d ≠ [] ∧ Forall (λ c, not_space_at c = true) d) ∧
    (t ≠ [] ∧ Forall (λ c, not_space_at c = true) t).
Proof.
  simpl. rewrite test_matches. unfold emailRegex.
  rewrite matches_Seq_iff. split.
  - intros (l & s1 & -> & Hl & H).
    apply matches_Seq_iff in H as (a & s2 & -> & Ha & H).
    apply matches_Class_eqb in Ha as ->.
    apply matches_Seq_iff in H as (d & s3 & -> & Hd & H).
    apply matches_Seq_iff in H as (b & t & -> & Hb & Ht).
    apply matches_Class_eqb in Hb as ->.
    exists l, d, t. by rewrite <- !matches_Plus_Class.
  - intros (l & d & t & -> & Hl & Hd & Ht).
    rewrite <- !matches_Plus_Class in *.
    exists l, (at_sign :: d ++ dot :: t). split; [done|]. split; [done|].
    apply (MSeq _ _ [at_sign]); [by apply matches_Class_eqb|].
    constructor; [done|].
    apply (MSeq _ _ [dot]); [by apply matches_Class_eqb | done].
Qed.

(** X2. The [phone] validator accepts the empty value, and otherwise
    exactly an optional [+] followed by one or more digits, white
    space, hyphens and parentheses. *)
Theorem phone_validator_exact (s : jsstring) :
  validate phone_validator s = true ↔
  s = [] ∨
  ∃ digits, (s = digits ∨ s = 43%N :: digits) ∧
            digits ≠ [] ∧ Forall (λ c, phone_char c = true) digits.
Proof.
  unfold phone_validator, validate.
  destruct s as [|c s]; [by split; [left|]|].
  replace (negb (truthy (c :: s)) || test phoneRegex (c :: s))
    with (test phoneRegex (c :: s)) by done.
  rewrite test_matches. unfold phoneRegex. rewrite matches_Seq_iff. split.
  - intros (s1 & digits & Hs & H1 & Hd). right. exists digits.
    apply matches_Plus_Class in Hd as [Hne Hall]. split; [|done].
    inversion H1 as [| | |? ? ? Heps|? ? ? Hplus| |]; subst.
    + inversion Heps; subst. by left.
    + apply matches_Class_eqb in Hplus as ->. by right.
  - intros [[=]|(digits & Hs & Hd)].
    rewrite <- matches_Plus_Class in Hd. destruct Hs as [->| ->].
    + exists [], digits. split; [done|]. split; [|done]. apply MAltL. constructor.
    + exists [43%N], digits. split; [done|]. split; [|done].
      apply MAltR. by apply matches_Class_eqb.
Qed.

(** X3. The [required] validator accepts exactly the values that hold
    a code unit other than white space. *)
Theorem required_validator_exact (s : jsstring) :
  validate required_validator s = true ↔ ∃ c, c ∈ s ∧ is_space c = false.
Proof.
  simpl. rewrite andb_true_iff, bool_decide_eq_true. split.
  - intros [_ Hlen]. destruct (blank_or_not s) as [Hblank|?]; [|done].
    apply trim_nil_iff in Hblank. rewrite Hblank in Hlen. simpl in Hlen. lia.
  - intros (c & Hc & Hsp). split.
    + destruct s; [by apply elem_of_nil in Hc | done].
    + destruct (trim s) eqn:Ht; [|simpl; lia].
      apply trim_nil_iff in Ht. rewrite Forall_forall in Ht.
      specialize (Ht c Hc). congruence.
Qed.

(** X4. A field all of whose validator names are unknown to the
    registry is valid whatever its value, and validating it shows no
    error. *)
Theorem unknown_validators_pass (f : Field.t) :
  Forall (λ n, JsMap.get (trim n) setupValidators = None) (Field.validators f) →
  (validateField f).2 = true ∧
  Field.isValid (validateField f).1 = true ∧
  Field.errorVisible (validateField f).1 = false.
Proof.
  intros Hall. unfold validateField.
  assert (Hnone : first_failure (Field.validators f) (trim (Field.value f)) = None).
  { induction Hall as [|n names Hn _ IH]; [done|].
    cbn [first_failure]. by rewrite Hn. }
  by rewrite Hnone.
Qed.

Lemma unknown_validators_pass_witness :
  (validateField (Field.mk (js "zip") (js "??") [] [js "postcode"; js " zip "]
                           false "" false false false false)).2 = true.
Proof.
  apply (unknown_validators_pass
           (Field.mk (js "zip") (js "??") [] [js "postcode"; js " zip "]
                     false "" false false false false)).
  repeat constructor.
Defined.

End ValidatorFacts.

(* ===================================================================== *)
(** * forms.js: what holds throughout a session                           *)
(* ===================================================================== *)

Module SessionFacts.
Import Forms FormFacts FormSession.

Lemma forms_setFormLoadingState i b s :
  forms (setFormLoadingState i b s) = alter (loading_form b) i (forms s).
Proof. reflexivity. Qed.

Lemma forms_resetForm i s :
  forms (resetForm i s) = alter reset_form i (forms s).
Proof. reflexivity. Qed.

Section Preservation.
(** A relation between a form of the page and its configuration that
    initialization sets up and every mutation keeps. *)
Variable R : DomForm → Form.t → Prop.
Hypothesis R_init : ∀ dom, R dom (initializeForm dom).
Hypothesis R_field :
  ∀ dom fc k g, field_op g → R dom fc → R dom (Form.alter_field k g fc).
Hypothesis R_update : ∀ dom fc, R dom fc → R dom (updateFormValidation fc).
Hypothesis R_validateForm : ∀ dom fc, R dom fc → R dom (validateForm fc).1.
Hypothesis R_loading : ∀ dom fc b, R dom fc → R dom (loading_form b fc).
Hypothesis R_reset : ∀ dom fc, R dom fc → R dom (reset_form fc).

Local Abbreviation good page s := (Forall2 R page (forms s)).

Lemma good_alter page s i g :
  (∀ dom fc, R dom fc → R dom (g fc)) →
  good page s → good page (alter_form i g s).
Proof. intros Hg Hs. simpl. apply Forall2_alter_r; eauto. Qed.

Lemma good_on_blur page a s : good page s → good page (on_blur a s).
Proof.
  apply good_alter. intros dom fc Hfc.
  apply R_field; [constructor|]. apply R_update.
  apply R_field; [constructor | done].
Qed.

Lemma good_on_focus page a s : good page s → good page (on_focus a s).
Proof.
  apply good_alter. intros dom fc Hfc. apply R_field; [constructor | done].
Qed.

Lemma good_focus_element page a s :
  good page s → good page (focus_element a s).
Proof.
  intros Hs. unfold focus_element. case_decide; [done|].
  apply good_on_focus. simpl.
  destruct (activeElement s); [by apply good_on_blur | done].
Qed.

Lemma good_focusFirstInvalidField page i s :
  good page s → good page (focusFirstInvalidField i s).
Proof.
  intros Hs. unfold focusFirstInvalidField.
  destruct (forms s !! i); [|done].
  destruct (List.find _ _); [by apply good_focus_element | done].
Qed.

Lemma good_setFormLoadingState page i b s :
  good page s → good page (setFormLoadingState i b s).
Proof.
  intros Hs. rewrite forms_setFormLoadingState.
  apply Forall2_alter_r; eauto.
Qed.

Lemma good_handleSubmit page i s :
  good page s → good page (handleSubmit i s).
Proof.
  intros Hs. unfold handleSubmit.
  destruct (forms s !! i) as [fc|] eqn:Hi; [|done].
  destruct (isSubmitting s || Form.loadingState fc); [done|].
  destruct (validateForm fc) as [fc' isValid] eqn:Hv.
  assert (Hs1 : good page (with_forms (<[i:=fc']> (forms s)) s)).
  { simpl. destruct (Forall2_lookup_r _ _ _ _ _ Hs Hi) as (dom & Hdom & Hfc).
    rewrite <- (list_insert_id page i dom) by done.
    apply Forall2_insert; [done|].
    replace fc' with (validateForm fc).1 by by rewrite Hv.
    by apply R_validateForm. }
  destruct isValid; simpl.
  - by apply (good_setFormLoadingState page i true) in Hs1.
  - by apply good_focusFirstInvalidField.
Qed.

Lemma good_settled page i r s :
  good page s → good page (handleSubmit_settled i r s).
Proof.
  intros Hs. unfold handleSubmit_settled. simpl.
  apply Forall2_alter_r; [|eauto].
  destruct r; [|done]. destruct (forms s !! i) as [fc|]; [|done].
  by destruct (Form.resetOnSuccess fc).
Qed.

Lemma good_fire page t s : good page s → good page (fire t s).
Proof.
  intros Hs. destruct t as [i k|i]; simpl.
  - apply Forall2_alter_r; [done|]. intros dom fc _ _ Hfc.
    apply R_update. apply R_field; [constructor | done].
  - apply Forall2_alter_r; [done|]. intros dom fc _ _ Hfc.
    by apply R_reset.
Qed.

Lemma good_step page s e s' :
  good page s → step s e = Some s' → good page s'.
Proof.
  intros Hs. destruct e as [i k v|i k| |i|t|i r]; simpl.
  - destruct (has_field i k s); [|done]. intros [= <-]. simpl.
    apply Forall2_alter_r; [done|]. intros dom fc _ _ Hfc.
    apply R_field; [constructor | done].
  - destruct (has_field i k s); [|done]. intros [= <-].
    by apply good_focus_element.
  - destruct (activeElement s) as [a|]; [|done]. intros [= <-].
    by apply (good_on_blur page a) in Hs.
  - case_bool_decide; [|done]. intros [= <-]. by apply good_handleSubmit.
  - case_bool_decide; [|done]. intros [= <-]. by apply good_fire.
  - case_bool_decide; [|done]. intros [= <-]. by apply good_settled.
Qed.

Lemma good_reachable page s : reachable page s → good page s.
Proof.
  induction 1 as [|s e s' _ IHs Hstep].
  - simpl. apply Forall2_fmap_r, Forall_Forall2_diag, Forall_forall.
    intros dom _. apply R_init.
  - by eapply good_step.
Qed.

End Preservation.

End SessionFacts.

Module SessionInvariant.
Import Forms FormFacts FormSession SessionFacts.

Lemma assigned_op g kf : field_op g → assigned (kf.1, g kf.2) = assigned kf.
Proof.
  destruct 1; unfold assigned; simpl; try done.
  unfold validateField. by destruct (first_failure _ _).
Qed.

Lemma marked_op g f : field_op g → field_inv f → field_inv (g f).
Proof.
  destruct 1; unfold field_inv; simpl; try done.
  - intros _. unfold validateField. by destruct (first_failure _ _).
  - intros (H1 & H2 & _). by repeat split.
Qed.

Lemma fields_alter_field k g fc :
  Form.fields (Form.alter_field k g fc)
  = map (λ kf, if decide (kf.1 = k) then (kf.1, g kf.2) else kf) (Form.fields fc).
Proof. reflexivity. Qed.

Lemma assigned_alter_field k g fc :
  field_op g →
  assigned <$> Form.fields (Form.alter_field k g fc) = assigned <$> Form.fields fc.
Proof.
  intros Hg. rewrite fields_alter_field.
  induction (Form.fields fc) as [|kf fs IHfs]; [done|].
  rewrite map_cons, !fmap_cons, IHfs. f_equal.
  case_decide; [by apply assigned_op | done].
Qed.

Lemma marked_alter_field k g fc :
  field_op g →
  Forall (λ kf, field_inv kf.2) (Form.fields fc) →
  Forall (λ kf, field_inv kf.2) (Form.fields (Form.alter_field k g fc)).
Proof.
  intros Hg Hall. rewrite fields_alter_field. apply Forall_map.
  eapply Forall_impl; [done|]. intros kf Hkf. simpl.
  case_decide; [by apply marked_op | done].
Qed.

Lemma assigned_map_values g (fs : list (jsstring * Field.t)) :
  (∀ kf, assigned (kf.1, g kf.2) = assigned kf) →
  assigned <$> JsMap.map_values g fs = assigned <$> fs.
Proof.
  intros Hg. induction fs as [|kf fs IHfs]; [done|].
  unfold JsMap.map_values in *. rewrite map_cons, !fmap_cons, IHfs.
  f_equal. destruct kf as [k f]. apply (Hg (k, f)).
Qed.

Lemma Forall_set {V} (P : jsstring * V → Prop) k v (m : list (jsstring * V)) :
  Forall P m → (∀ k', P (k', v)) → Forall P (JsMap.set k v m).
Proof.
  intros Hm Hv. induction Hm as [|[k0 v0] m H0 Hm IHm]; simpl.
  - by repeat constructor.
  - case_decide; constructor; auto.
Qed.

(** Every field configuration [initializeForm] makes satisfies what
    each newly made configuration satisfies. *)
Lemma initializeForm_fields (P : jsstring * Field.t → Prop) dom :
  (∀ k field,
     P (k, Field.mk (dom_name field) (dom_value field) (dom_value field)
                    (List.filter (λ v, truthy (trim v))
                                 (split comma (dom_validators field)))
                    false "" false false false false)) →
  Forall P (Form.fields (initializeForm dom)).
Proof.
  intros HP. simpl.
  assert (Hgen : ∀ fs acc, Forall P acc →
            Forall P (foldl (λ fields field, initializeField field fields) acc fs)).
  { induction fs as [|field fs IHfs]; intros acc Hacc; [done|]. simpl.
    apply IHfs. unfold initializeField. by apply Forall_set. }
  by apply Hgen.
Qed.

Lemma session_inv_init dom : session_inv dom (initializeForm dom).
Proof.
  split; [|split].
  - repeat split; simpl; rewrite ?fmap_is_Some; done.
  - intros markup b Hm Hne. simpl. rewrite Hm. simpl. intros [= <-]. simpl.
    split; [done | by right].
  - apply initializeForm_fields. intros k field. by repeat split.
Qed.

Lemma session_inv_field dom fc k g :
  field_op g → session_inv dom fc → session_inv dom (Form.alter_field k g fc).
Proof.
  intros Hg ((Hf & Ht & Hr & Hb) & Hl & Hm). split; [|split].
  - split; [by rewrite assigned_alter_field|done].
  - done.
  - by apply marked_alter_field.
Qed.

Lemma session_inv_update dom fc :
  session_inv dom fc → session_inv dom (updateFormValidation fc).
Proof.
  intros ((Hf & Ht & Hr & Hb) & Hl & Hm). split; [|split].
  - repeat split; try done; simpl; rewrite fmap_is_Some; apply Hb.
  - intros markup b Hmk Hne. simpl.
    destruct (Form.submitButton fc) as [b0|] eqn:Hb0; [|done].
    simpl. intros [= <-]. simpl. by apply (Hl markup b0).
  - done.
Qed.

Lemma session_inv_validateForm dom fc :
  session_inv dom fc → session_inv dom (validateForm fc).1.
Proof.
  intros ((Hf & Ht & Hr & Hb) & Hl & Hm). split; [|split].
  - split; [|done]. etrans; [|exact Hf].
    apply (assigned_map_values (λ f, (validateField f).1)).
    intros kf. apply (assigned_op _ kf op_validate).
  - done.
  - simpl. apply Forall_map. eapply Forall_impl; [done|].
    intros kf Hkf. simpl. by apply (marked_op _ _ op_validate).
Qed.

Lemma session_inv_loading dom fc b :
  session_inv dom fc → session_inv dom (loading_form b fc).
Proof.
  intros ((Hf & Ht & Hr & Hb) & Hl & Hm). split; [|split].
  - repeat split; try done; simpl; rewrite fmap_is_Some; apply Hb.
  - intros markup b' Hmk Hne. simpl.
    destruct (Form.submitButton fc) as [b0|] eqn:Hb0; [|done].
    simpl. intros [= <-]. simpl.
    destruct (Hl markup b0 Hmk Hne Hb0) as [Htext Horig].
    assert (Htruthy : truthy markup.2 = true) by by destruct markup.2.
    destruct Horig as [Ho|[Ho Hload]]; rewrite Ho.
    + unfold or_else. rewrite Htruthy. split; [by destruct b | by left].
    + rewrite Hload in Htext. rewrite Htext. split; [by destruct b | by left].
  - done.
Qed.

Lemma session_inv_reset dom fc :
  session_inv dom fc → session_inv dom (reset_form fc).
Proof.
  intros ((Hf & Ht & Hr & Hb) & Hl & Hm). apply session_inv_update.
  split; [|split].
  - split; [|done]. etrans; [|exact Hf].
    by apply (assigned_map_values
                (λ f, Field.with_validity false false false
                        (clearFieldError
                           (Field.with_value (Field.originalValue f) f)))).
  - done.
  - simpl. apply Forall_map. apply Forall_forall. intros kf _. by repeat split.
Qed.

Lemma reachable_session_inv page s :
  reachable page s → Forall2 session_inv page (forms s).
Proof.
  apply good_reachable;
    eauto using session_inv_init, session_inv_field, session_inv_update,
      session_inv_validateForm, session_inv_loading, session_inv_reset.
Qed.

Lemma reachable_session_inv_lookup page s i dom fc :
  reachable page s → page !! i = Some dom → forms s !! i = Some fc →
  session_inv dom fc.
Proof.
  intros Hs Hdom Hfc.
  by eapply Forall2_lookup_lr; [apply reachable_session_inv| |].
Qed.

(** X5. Whatever happens on the page, a form keeps the fields it was
    initialized with, under the same keys and in the same order, and
    each of them keeps its validators and its original value; the form
    keeps its type and its reset setting. *)
Theorem fields_stay_as_initialized page s i dom fc :
  reachable page s → page !! i = Some dom → forms s !! i = Some fc →
  as_initialized dom fc.
Proof. intros Hs Hdom Hfc. by eapply reachable_session_inv_lookup. Qed.

(** X6. In every reachable state the submit button of a form whose
    markup label is not empty reads [Submitting...] exactly while the
    form is loading, and its markup label otherwise. *)
Theorem button_label_follows_loading page s i dom fc markup :
  reachable page s → page !! i = Some dom → forms s !! i = Some fc →
  dom_submit dom = Some markup → markup.2 ≠ [] →
  ∃ b, Form.submitButton fc = Some b ∧
       textContent b
       = if Form.loadingState fc then js "Submitting..." else markup.2.
Proof.
  intros Hs Hdom Hfc Hm Hne.
  destruct (reachable_session_inv_lookup _ _ _ _ _ Hs Hdom Hfc)
    as ((_ & _ & _ & Hb) & Hl & _).
  destruct (proj2 Hb) as [b Hbutton]; [by rewrite Hm|].
  exists b. split; [done|]. by apply (Hl markup b).
Qed.

Lemma reachable_field_inv page s i fc k f :
  reachable page s → forms s !! i = Some fc → (k, f) ∈ Form.fields fc →
  field_inv f.
Proof.
  intros Hs Hfc Hkf.
  destruct (Forall2_lookup_r _ _ _ _ _ (reachable_session_inv _ _ Hs) Hfc)
    as (dom & _ & _ & _ & Hm).
  rewrite Forall_forall in Hm. by apply (Hm (k, f)).
Qed.

(** X7. In every reachable state the marks on a field agree with what
    it reports: a field marked valid reports valid, and a field marked
    invalid reports not valid. *)
Theorem marks_agree_with_validity page s i fc k f :
  reachable page s → forms s !! i = Some fc → (k, f) ∈ Form.fields fc →
  marked_as_reported f.
Proof.
  intros Hs Hfc Hkf.
  destruct (reachable_field_inv _ _ _ _ _ _ Hs Hfc Hkf) as (Hv & Hi & _).
  by split.
Qed.

(** X28. On a page where no two controls share an error element, in
    every reachable state an error is shown only under a field marked
    invalid, and the error element of a field that shows none is
    empty. *)
Theorem error_shown_under_invalid page s i fc k f :
  own_error_elements page →
  reachable page s → forms s !! i = Some fc → (k, f) ∈ Form.fields fc →
  error_as_marked f.
Proof.
  intros _ Hs Hfc Hkf.
  destruct (reachable_field_inv _ _ _ _ _ _ Hs Hfc Hkf) as (_ & _ & He & Ht).
  by split.
Qed.

(** X8. A reset takes every validation result back: afterwards each
    field of the form reports not valid, carries no mark and shows no
    error, so the form counts as valid only if none of its fields has
    a validator, and its submit button is disabled unless that is so
    (and while the form is loading), with its label untouched. *)
Theorem reset_clears_validation s i fc :
  forms s !! i = Some fc →
  ∃ fc',
    forms (resetForm i s) !! i = Some fc' ∧
    JsMap.keys (Form.fields fc') = JsMap.keys (Form.fields fc) ∧
    Forall (λ kf, Field.isValid kf.2 = false ∧ Field.is_valid kf.2 = false ∧
                  Field.is_invalid kf.2 = false ∧
                  Field.errorVisible kf.2 = false ∧ Field.errorText kf.2 = "")
           (Form.fields fc') ∧
    Form.isValid fc'
    = forallb (λ kf, bool_decide (length (Field.validators kf.2) = 0))
              (Form.fields fc) ∧
    ∀ b, Form.submitButton fc = Some b →
         ∃ b', Form.submitButton fc' = Some b' ∧
               disabled b' = negb (Form.isValid fc') || Form.loadingState fc ∧
               textContent b' = textContent b.
Proof.
  intros Hfc. exists (reset_form fc).
  split; [by rewrite forms_resetForm, list_lookup_alter_eq, Hfc|].
  split.
  { simpl. unfold JsMap.keys, JsMap.map_values. rewrite map_map.
    by apply map_ext. }
  split.
  { simpl. apply Forall_map, Forall_forall. intros kf _. by repeat split. }
  assert (Hall :
    forallb (λ field, Field.isValid field
                      || bool_decide (length (Field.validators field) = 0))
            (JsMap.values (Form.fields (reset_form fc)))
    = forallb (λ kf, bool_decide (length (Field.validators kf.2) = 0))
              (Form.fields fc)).
  { simpl. induction (Form.fields fc) as [|kf fs IH]; [done|].
    simpl. f_equal. exact IH. }
  split; [exact Hall|].
  intros b Hb. simpl. rewrite Hb. simpl.
  eexists. by repeat split.
Qed.

End SessionInvariant.

Module SubmissionFacts.
Import Forms FormFacts FormSession SessionFacts.

Lemma timers_focus_element a s : timers (focus_element a s) = timers s.
Proof.
  unfold focus_element. case_decide; [done|]. by destruct (activeElement s).
Qed.

Lemma timers_focusFirstInvalidField i s :
  timers (focusFirstInvalidField i s) = timers s.
Proof.
  unfold focusFirstInvalidField. destruct (forms s !! i); [|done].
  destruct (List.find _ _); [|done]. apply timers_focus_element.
Qed.

Lemma timers_handleSubmit i s : timers (handleSubmit i s) = timers s.
Proof.
  unfold handleSubmit. destruct (forms s !! i) as [fc|]; [|done].
  destruct (isSubmitting s || Form.loadingState fc); [done|].
  destruct (validateForm fc) as [fc' isValid].
  destruct isValid; simpl; [done|]. by rewrite timers_focusFirstInvalidField.
Qed.

Lemma timers_fire t s : timers (fire t s) = timers s.
Proof. by destruct t. Qed.

Lemma remove_one_sublist {A} `{EqDecision A} (x : A) l :
  sublist (remove_one x l) l.
Proof.
  induction l as [|y l IHl]; simpl; [done|].
  case_decide; [by apply sublist_cons | by apply sublist_skip].
Qed.

Lemma filter_sublist {A} (p : A → bool) l : sublist (List.filter p l) l.
Proof.
  induction l as [|y l IHl]; simpl; [done|].
  destruct (p y); [by apply sublist_skip | by apply sublist_cons].
Qed.

Lemma filter_sublist_mono {A} (p : A → bool) l1 l2 :
  sublist l1 l2 → sublist (List.filter p l1) (List.filter p l2).
Proof.
  induction 1 as [|x l1 l2 _ IH|x l1 l2 _ IH]; simpl; [done| |].
  - destruct (p x); [by apply sublist_skip | done].
  - destruct (p x); [by apply sublist_cons | done].
Qed.

Lemma pending_step s e s' :
  step s e = Some s' →
  NoDup (List.filter is_validation_timer (timers s)) →
  NoDup (List.filter is_validation_timer (timers s')).
Proof.
  intros Hstep Hs. destruct e as [i k v|i k| |i|t|i result]; simpl in Hstep.
  - destruct (has_field i k s); [|done]. injection Hstep as <-. simpl.
    rewrite List.filter_app. simpl. apply NoDup_app. split; [|split].
    + refine (sublist_NoDup _ _ Hs _).
      apply filter_sublist_mono, filter_sublist.
    + intros t Ht%list_elem_of_In%filter_In Ht'%list_elem_of_singleton.
      subst t. destruct Ht as [Ht _]. apply filter_In in Ht as [_ Ht].
      by rewrite bool_decide_eq_true_2 in Ht.
    + apply NoDup_singleton.
  - destruct (has_field i k s); [|done]. injection Hstep as <-.
    by rewrite timers_focus_element.
  - destruct (activeElement s); [|done]. by injection Hstep as <-.
  - case_bool_decide; [|done]. injection Hstep as <-.
    by rewrite timers_handleSubmit.
  - case_bool_decide; [|done]. injection Hstep as <-.
    rewrite timers_fire. simpl.
    refine (sublist_NoDup _ _ Hs _).
    apply filter_sublist_mono, remove_one_sublist.
  - case_bool_decide; [|done]. injection Hstep as <-. simpl.
    destruct result as [[]|err]; [|done].
    destruct (forms s !! i) as [fc|]; [|done].
    destruct (Form.resetOnSuccess fc); [|done]. simpl.
    rewrite List.filter_app. simpl. by rewrite app_nil_r.
Qed.

(** X9. Input is debounced per field: in every reachable state at most
    one validation timer is pending for a field, however many input
    events the field received. *)
Theorem one_pending_validation_per_field page s :
  reachable page s → NoDup (List.filter is_validation_timer (timers s)).
Proof.
  induction 1 as [|s e s' _ IHs Hstep]; [apply NoDup_nil_2|].
  by eapply pending_step.
Qed.

Lemma validateForm_true fc :
  Forall (λ kf, (validateField kf.2).2 = true) (Form.fields fc) →
  (validateForm fc).2 = true.
Proof.
  intros Hall. simpl. apply forallb_forall. intros f Hf.
  apply in_map_iff in Hf as (kf & <- & Hkf).
  rewrite Forall_forall in Hall. by apply Hall, list_elem_of_In.
Qed.

Lemma validateField_valid f :
  (validateField f).2 = true →
  Field.isValid (validateField f).1 = true ∧
  Field.is_valid (validateField f).1 = true ∧
  Field.is_invalid (validateField f).1 = false ∧
  Field.value (validateField f).1 = Field.value f.
Proof. unfold validateField. by destruct (first_failure _ _). Qed.

(** X10. A submit attempt on a form none of whose fields is invalid,
    made while no submission is in flight, issues exactly one request,
    for that form, takes the lock, and puts the form into its loading
    state, every field marked valid with the value it had, the button
    disabled and reading [Submitting...]. *)
Theorem valid_submit_sends_once s i fc :
  forms s !! i = Some fc →
  isSubmitting s = false → Form.loadingState fc = false →
  Forall (λ kf, ¬ invalid kf.2) (Form.fields fc) →
  requests (handleSubmit i s) = requests s ++ [i] ∧
  inflight (handleSubmit i s) = inflight s ++ [i] ∧
  isSubmitting (handleSubmit i s) = true ∧
  activeElement (handleSubmit i s) = activeElement s ∧
  ∃ fc', forms (handleSubmit i s) !! i = Some fc' ∧
         Form.loadingState fc' = true ∧ Form.isValid fc' = true ∧
         Forall (λ kf, Field.isValid kf.2 = true ∧ Field.is_valid kf.2 = true ∧
                       Field.is_invalid kf.2 = false)
                (Form.fields fc') ∧
         (λ kf, (kf.1, Field.value kf.2)) <$> Form.fields fc'
         = (λ kf, (kf.1, Field.value kf.2)) <$> Form.fields fc ∧
         ∀ b, Form.submitButton fc = Some b →
              ∃ b', Form.submitButton fc' = Some b' ∧ disabled b' = true ∧
                    textContent b' = js "Submitting...".
Proof.
  intros Hfc Hsub Hload Hvalid.
  assert (Heach : Forall (λ kf, (validateField kf.2).2 = true) (Form.fields fc)).
  { eapply Forall_impl; [exact Hvalid|].
    intros kf Hkf. unfold invalid in Hkf. by destruct (validateField kf.2).2. }
  assert (Hok : (validateForm fc).2 = true) by by apply validateForm_true.
  unfold handleSubmit. rewrite Hfc, Hsub, Hload. simpl orb. cbv iota.
  destruct (validateForm fc) as [fc' isValid] eqn:Hv.
  simpl in Hok. subst isValid. simpl negb. cbv iota.
  simpl. repeat split.
  rewrite list_lookup_alter_eq, list_lookup_insert_eq
    by (by eapply lookup_lt_Some).
  simpl. eexists. split; [done|].
  assert (Hfc' : fc' = (validateForm fc).1) by by rewrite Hv.
  split; [done|]. split.
  { rewrite Hfc'. simpl. apply forallb_forall. intros f Hf.
    apply in_map_iff in Hf as (kf & <- & Hkf).
    rewrite Forall_forall in Heach.
    exact (Heach kf (proj2 (list_elem_of_In _ _) Hkf)). }
  split.
  { rewrite Hfc'. simpl. apply Forall_map.
    eapply Forall_impl; [exact Heach|]. intros kf Hkf. simpl.
    destruct (validateField_valid kf.2 Hkf) as (H1 & H2 & H3 & _).
    by repeat split. }
  split.
  { rewrite Hfc'. simpl. unfold JsMap.map_values.
    change (map ?g ?l) with (g <$> l). rewrite <- list_fmap_compose.
    apply list_eq_Forall2, Forall2_fmap, Forall_Forall2_diag.
    eapply Forall_impl; [exact Heach|]. intros kf Hkf. simpl.
    by rewrite (proj2 (proj2 (proj2 (validateField_valid kf.2 Hkf)))). }
  intros b Hb. rewrite Hfc'. simpl. rewrite Hb. simpl. eauto.
Qed.

(** X11. When the awaited submission of form [i] settles, resolved or
    rejected, the lock is released: nothing is in flight, no form is
    loading, form [i]'s button is enabled, and no request is added.
    A reset is scheduled only after a resolved submission. *)
Theorem settled_submission_unlocks page s i result :
  reachable page s → i ∈ inflight s →
  isSubmitting (handleSubmit_settled i result s) = false ∧
  inflight (handleSubmit_settled i result s) = [] ∧
  requests (handleSubmit_settled i result s) = requests s ∧
  (∀ j fc', forms (handleSubmit_settled i result s) !! j = Some fc' →
            Form.loadingState fc' = false) ∧
  (∀ fc' b, forms (handleSubmit_settled i result s) !! i = Some fc' →
            Form.submitButton fc' = Some b → disabled b = false) ∧
  (∀ err, result = Rejected err →
          timers (handleSubmit_settled i result s) = timers s).
Proof.
  intros Hs Hi.
  destruct (reachable_lock_inv _ _ Hs) as [[[_ Hnil]|[_ [i0 Hone]]] Hload].
  { rewrite Hnil in Hi. by apply elem_of_nil in Hi. }
  rewrite Hone in Hi. apply list_elem_of_singleton in Hi as ->.
  assert (Hforms : forms (handleSubmit_settled i0 result s)
                   = alter (loading_form false) i0 (forms s)).
  { unfold handleSubmit_settled. simpl.
    destruct result as [[]|err]; [|done].
    destruct (forms s !! i0) as [fc|]; [|done].
    by destruct (Form.resetOnSuccess fc). }
  assert (Hin : inflight (handleSubmit_settled i0 result s) = []).
  { unfold handleSubmit_settled. simpl.
    destruct result as [[]|err];
      [destruct (forms s !! i0) as [fc|];
         [destruct (Form.resetOnSuccess fc)|]|];
      simpl; rewrite Hone; simpl; by case_decide. }
  assert (Hreq : requests (handleSubmit_settled i0 result s) = requests s).
  { unfold handleSubmit_settled. simpl.
    destruct result as [[]|err]; [|done].
    destruct (forms s !! i0) as [fc|]; [|done].
    by destruct (Form.resetOnSuccess fc). }
  split; [done|]. split; [done|]. split; [done|]. rewrite Hforms.
  split; [|split].
  - intros j fc' Hj. destruct (decide (j = i0)) as [->|Hne].
    + rewrite list_lookup_alter_eq in Hj.
      destruct (forms s !! i0) as [fc|]; [|done].
      by injection Hj as <-.
    + rewrite list_lookup_alter_ne in Hj by done.
      rewrite (Hload j fc' Hj), Hone. apply bool_decide_eq_false_2.
      by intros ->%list_elem_of_singleton.
  - intros fc' b Hj Hb. rewrite list_lookup_alter_eq in Hj.
    destruct (forms s !! i0) as [fc|]; [|done].
    injection Hj as <-. simpl in Hb.
    destruct (Form.submitButton fc) as [b0|]; [|done].
    by injection Hb as <-.
  - by intros err ->.
Qed.

End SubmissionFacts.

Module InitializationFacts.
Import Forms FormSession.

Lemma keys_set {V} (k : jsstring) (v : V) (m : list (jsstring * V)) :
  JsMap.keys (JsMap.set k v m)
  = if bool_decide (k ∈ JsMap.keys m) then JsMap.keys m
    else JsMap.keys m ++ [k].
Proof.
  induction m as [|[k0 v0] m IHm]; simpl; [done|].
  destruct (decide (k = k0)) as [->|Hne]; simpl.
  - rewrite bool_decide_eq_true_2; [done | by left].
  - rewrite IHm. case_bool_decide as Hin.
    + rewrite bool_decide_eq_true_2; [done | by right].
    + rewrite bool_decide_eq_false_2; [done|].
      by intros [?|?]%elem_of_cons.
Qed.

Lemma distinct_names_equiv seen seen' fs :
  (∀ x, x ∈ seen ↔ x ∈ seen') →
  distinct_names seen fs = distinct_names seen' fs.
Proof.
  revert seen seen'. induction fs as [|field fs IHfs]; intros seen seen' Heq;
    simpl; [done|].
  rewrite (bool_decide_ext _ _ (Heq (dom_name field))).
  case_bool_decide; [by apply IHfs|]. f_equal. apply IHfs.
  intros x. rewrite !elem_of_cons, Heq. done.
Qed.

Lemma keys_foldl_initializeField fs acc :
  JsMap.keys (foldl (λ fields field, initializeField field fields) acc fs)
  = JsMap.keys acc ++ distinct_names (JsMap.keys acc) fs.
Proof.
  revert acc. induction fs as [|field fs IHfs]; intros acc; simpl.
  - by rewrite app_nil_r.
  - rewrite IHfs. unfold initializeField. rewrite keys_set.
    case_bool_decide as Hin; [done|].
    rewrite <- app_assoc. simpl. do 2 f_equal.
    apply distinct_names_equiv. intros x.
    rewrite elem_of_app, !elem_of_cons, elem_of_nil. tauto.
Qed.

Lemma distinct_names_NoDup seen fs :
  NoDup (distinct_names seen fs) ∧
  ∀ x, x ∈ distinct_names seen fs → x ∉ seen.
Proof.
  revert seen. induction fs as [|field fs IHfs]; intros seen; simpl.
  - split; [apply NoDup_nil_2 | by intros x ?%elem_of_nil].
  - case_bool_decide as Hin; [apply IHfs|].
    destruct (IHfs (dom_name field :: seen)) as [Hnd Hfresh]. split.
    + apply NoDup_cons. split; [|done].
      intros Hx%Hfresh. apply Hx. by left.
    + intros x [->|Hx]%elem_of_cons; [done|].
      intros Hseen. apply (Hfresh x Hx). by right.
Qed.

Lemma get_foldl_initializeField k fs acc :
  JsMap.get k (foldl (λ fields field, initializeField field fields) acc fs)
  = match last (List.filter (λ field, bool_decide (dom_name field = k)) fs) with
    | Some field => JsMap.get k (initializeField field [])
    | None => JsMap.get k acc
    end.
Proof.
  revert acc. induction fs as [|field fs IHfs]; intros acc; simpl; [done|].
  rewrite IHfs. case_bool_decide as Hk.
  - destruct (List.filter _ fs) as [|f1 rest] eqn:Hrest; simpl.
    + unfold initializeField. rewrite get_set. simpl.
      repeat case_decide; congruence.
    + rewrite last_cons. by destruct (last rest).
  - destruct (last (List.filter _ fs)); [done|].
    unfold initializeField. rewrite get_set. by case_decide.
Qed.

(** X12. [initializeForm] tracks one configuration per field name: the
    keys of its field map are the names of the form's controls, each
    once, in the order of first occurrence; and when several controls
    share a name the configuration kept is that of the last of them
    (its value and its validators). *)
Theorem initializeForm_tracks_names dom k :
  JsMap.keys (Form.fields (initializeForm dom))
  = distinct_names [] (dom_fields dom) ∧
  NoDup (JsMap.keys (Form.fields (initializeForm dom))) ∧
  JsMap.get k (Form.fields (initializeForm dom))
  = (λ field,
       Field.mk k (dom_value field) (dom_value field)
         (List.filter (λ v, truthy (trim v)) (split comma (dom_validators field)))
         false "" false false false false)
    <$> last (List.filter (λ field, bool_decide (dom_name field = k))
                          (dom_fields dom)).
Proof.
  assert (Hkeys : JsMap.keys (Form.fields (initializeForm dom))
                  = distinct_names [] (dom_fields dom)).
  { simpl. by rewrite keys_foldl_initializeField. }
  split; [done|]. split.
  { rewrite Hkeys. apply distinct_names_NoDup. }
  simpl. rewrite get_foldl_initializeField.
  destruct (last _) as [field|] eqn:Hlast; [|done]. simpl.
  assert (Hname : dom_name field = k).
  { apply last_Some_elem_of, list_elem_of_In, filter_In in Hlast as [_ Hf].
    by apply bool_decide_eq_true in Hf. }
  rewrite Hname. by case_decide.
Qed.

End InitializationFacts.

(* ===================================================================== *)
(** * service-worker.js: the strategies and the fetch listener            *)
(* ===================================================================== *)

Module StrategyFacts.
Import ServiceWorker Strategies.

Lemma cache_match_empty request : cache_match ∅ request = None.
Proof. unfold cache_match. by case_decide. Qed.

Lemma caches_match_app_empty caches name request :
  caches_match (caches ++ [(name, ∅)]) request = caches_match caches request.
Proof.
  induction caches as [|[n c] caches IH]; simpl.
  - by rewrite cache_match_empty.
  - by rewrite IH.
Qed.

Lemma caches_match_cached_in caches request response :
  caches_match caches request = Some response →
  cached_in caches request response.
Proof.
  induction caches as [|[n c] caches IH]; simpl; [done|].
  destruct (cache_match c request) as [r|] eqn:Hc.
  - intros [= <-]. exists n, c. split; [by left | done].
  - intros (n' & c' & Hin & Hm)%IH. exists n', c'. split; [by right | done].
Qed.

Lemma caches_match_set caches name cache request response :
  caches_match caches request = None →
  cache_match cache request = Some response →
  caches_match (JsMap.set name cache caches) request = Some response.
Proof.
  intros Hnone Hc. induction caches as [|[n c] caches IH]; simpl in *.
  - by rewrite Hc.
  - destruct (cache_match c request) as [r|] eqn:Hc0; [done|].
    case_decide; simpl.
    + by rewrite Hc.
    + rewrite Hc0. by apply IH.
Qed.

Lemma caches_match_not_GET caches request :
  method request ≠ GET → caches_match caches request = None.
Proof.
  intros Hm. induction caches as [|[n c] caches IH]; simpl; [done|].
  unfold cache_match. by case_decide.
Qed.

Lemma get_Some_elem_of {V} (name : jsstring) (m : list (jsstring * V)) v :
  JsMap.get name m = Some v → (name, v) ∈ m.
Proof.
  induction m as [|[n c] m IH]; simpl; [done|].
  case_decide as Hn.
  - intros [= <-]. subst. by left.
  - intros Hv. right. by apply IH.
Qed.

Lemma caches_open_spec caches name :
  (caches_open caches name).2 = default ∅ (JsMap.get name caches) ∧
  JsMap.get name (caches_open caches name).1 = Some (caches_open caches name).2 ∧
  (∀ request, caches_match (caches_open caches name).1 request
              = caches_match caches request) ∧
  (∀ other, other ≠ name →
            JsMap.get other (caches_open caches name).1 = JsMap.get other caches).
Proof.
  unfold caches_open. destruct (JsMap.get name caches) as [c|] eqn:Hget; simpl.
  - by repeat split.
  - repeat split.
    + induction caches as [|[n c] caches IH]; simpl in *.
      * by case_decide.
      * case_decide; [done | by apply IH].
    + intros request. apply caches_match_app_empty.
    + intros other Hne. by apply get_app_new.
Qed.

Lemma cache_put_Resolved cache request response :
  method request = GET → status response ≠ 206%N →
  cache_put cache request response
  = Resolved (<[url request := response]> cache).
Proof. intros Hm Hs. unfold cache_put. by repeat case_decide. Qed.

Lemma cache_put_not_GET cache request response :
  method request ≠ GET → ∃ error, cache_put cache request response = Rejected error.
Proof. intros Hm. unfold cache_put. case_decide; [done|]. by eexists. Qed.

Lemma cache_match_insert cache request response :
  method request = GET →
  cache_match (<[url request := response]> cache) request = Some response.
Proof.
  intros Hm. unfold cache_match. case_decide; [|done].
  by rewrite lookup_insert_eq.
Qed.

(** X13. Cache first asks the network only when no store has the
    request: when some store has it, static or runtime, it is answered
    from there with no fetch and the storage untouched, whatever the
    network would say; when none has, it is fetched once.  When the
    response to a [GET] request that missed is ok (and not partial
    content) it is returned and kept, and the same request is from
    then on answered with it without any fetch. *)
Theorem cacheFirst_fetches_once request network caches :
  (∀ stored,
     caches_match caches request = Some stored →
     cacheFirst request network caches
     = {| storage := caches; settles := Resolved stored; fetched := [] |}) ∧
  (caches_match caches request = None →
   fetched (cacheFirst request network caches) = [request]) ∧
  (∀ response network',
     caches_match caches request = None → network = Resolved response →
     method request = GET → ok response = true → status response ≠ 206%N →
     settles (cacheFirst request network caches) = Resolved response ∧
     cacheFirst request network' (storage (cacheFirst request network caches))
     = {| storage := storage (cacheFirst request network caches);
          settles := Resolved response;
          fetched := [] |}).
Proof.
  split; [|split].
  - intros stored Hhit. unfold cacheFirst. by rewrite Hhit.
  - intros Hmiss. unfold cacheFirst. rewrite Hmiss.
    destruct network as [response|error]; [|done].
    destruct (ok response); [|done].
    destruct (caches_open caches RUNTIME_CACHE) as [caches1 cache].
    by destruct (cache_put cache request response).
  - intros response network' Hmiss -> Hm Hok H206.
    destruct (caches_open_spec caches RUNTIME_CACHE) as (_ & _ & Hsame & _).
    unfold cacheFirst at 1 3 4. rewrite Hmiss, Hok.
    destruct (caches_open caches RUNTIME_CACHE) as [caches1 cache] eqn:Hopen.
    simpl in Hsame. rewrite cache_put_Resolved by done. simpl.
    split; [done|].
    unfold cacheFirst. rewrite (caches_match_set _ _ _ _ response); [done| |].
    + by rewrite (Hsame request).
    + by apply cache_match_insert.
Qed.

(** X14. Stale-while-revalidate always goes to the network, once.  It
    answers with the entry of the runtime store when there is one,
    whatever the network says, and with the network's answer
    otherwise.  The runtime store is refreshed exactly when the
    request is a [GET] and the response is ok and not partial content
    (status 206): that response is then what the next call for the
    same request is answered with; in every other case the entries of
    the runtime store are the ones it had. *)
Theorem staleWhileRevalidate_refreshes request network caches :
  fetched (staleWhileRevalidate request network caches) = [request] ∧
  settles (staleWhileRevalidate request network caches)
  = match cache_match (default ∅ (JsMap.get RUNTIME_CACHE caches)) request with
    | Some stale => Resolved stale
    | None => network
    end ∧
  (∀ response network',
     network = Resolved response → ok response = true →
     method request = GET → status response ≠ 206%N →
     settles (staleWhileRevalidate request network'
                (storage (staleWhileRevalidate request network caches)))
     = Resolved response) ∧
  ((∀ response, network = Resolved response →
                ok response = false ∨ method request ≠ GET
                ∨ status response = 206%N) →
   JsMap.get RUNTIME_CACHE (storage (staleWhileRevalidate request network caches))
   = Some (default ∅ (JsMap.get RUNTIME_CACHE caches))).
Proof.
  destruct (caches_open_spec caches RUNTIME_CACHE) as (Hc & Hget & _ & _).
  unfold staleWhileRevalidate at 1 2 4 5.
  destruct (caches_open caches RUNTIME_CACHE) as [caches1 cache] eqn:Hopen.
  simpl in Hc, Hget. simpl. rewrite <- Hc.
  split; [done|]. split; [done|]. split.
  - intros response network' -> Hok Hm H206. rewrite Hok.
    rewrite cache_put_Resolved by done.
    unfold staleWhileRevalidate, caches_open.
    rewrite get_set. rewrite decide_True by done. simpl.
    by rewrite cache_match_insert.
  - intros Hnot. destruct network as [response|error]; [|done].
    destruct (Hnot response eq_refl) as [Hok|[Hm|H206]].
    + by rewrite Hok.
    + destruct (ok response); [|done].
      by destruct (cache_put_not_GET cache request response Hm) as [e ->].
    + destruct (ok response); [|done]. unfold cache_put.
      case_decide; [|done]. by case_decide.
Qed.

Section Listener.
Variable absolute : jsstring → jsstring.

Lemma handleFetchError_open request caches name :
  handleFetchError absolute request (caches_open caches name).1
  = handleFetchError absolute request caches.
Proof.
  destruct (caches_open_spec caches name) as (_ & _ & Hsame & _).
  unfold handleFetchError. by rewrite !Hsame.
Qed.

Lemma executeStrategy_fetched strategy request network caches :
  fetched (executeStrategy strategy request network caches) = []
  ∨ fetched (executeStrategy strategy request network caches) = [request].
Proof.
  destruct strategy; simpl.
  - unfold cacheFirst. destruct (caches_match caches request); [by left|].
    destruct network as [response|error]; [|by right].
    destruct (ok response); [|by right].
    destruct (caches_open caches RUNTIME_CACHE) as [caches1 cache].
    destruct (cache_put cache request response); by right.
  - destruct (networkFirst request network caches). by right.
  - unfold staleWhileRevalidate.
    destruct (caches_open caches RUNTIME_CACHE). by right.
Qed.

(** X15. The fetch listener leaves a request to the browser exactly
    when its URL does not start with [http] or it carries a [range]
    header; every other request it answers, with a response and
    never with a rejection, after at most one fetch of that request. *)
Theorem onfetch_always_answers event network caches :
  (onfetch absolute event network caches = None
   ↔ startsWith (url (event_request event)) (js "http") = false
     ∨ ∃ value, range_header event = Some value ∧ value ≠ []) ∧
  ∀ r, onfetch absolute event network caches = Some r →
       (∃ response, settles r = Resolved response) ∧
       (fetched r = [] ∨ fetched r = [event_request event]).
Proof.
  unfold onfetch. split.
  - destruct (startsWith _ _); simpl; [|by split; [left|]].
    destruct (range_header event) as [[|c value]|]; simpl.
    + split; [done|]. intros [?|(v & [= <-] & Hv)]; done.
    + split; [|done]. intros _. right. by eexists.
    + split; [done|]. intros [?|(v & [=] & Hv)]; done.
  - intros r. destruct (negb _); [done|].
    destruct (match range_header event with Some _ => _ | None => _ end);
      [done|].
    intros [= <-].
    pose proof (executeStrategy_fetched
                  (determineStrategy (event_url event) (event_request event))
                  (event_request event) network caches) as Hf.
    destruct (settles (executeStrategy _ _ _ _)) eqn:Hsettles; simpl;
      (split; [by eauto | exact Hf]).
Qed.

(** X16. With the network down, a request the listener answers gets
    a stored response for that very request when some store has one;
    when none has, a navigation gets the stored offline page, and
    every other request (and a navigation when no offline page is
    stored) the 503 answer the worker makes up. *)
Theorem offline_answer event error caches r :
  onfetch absolute event (Rejected error) caches = Some r →
  (∀ stored, caches_match caches (event_request event) = Some stored →
     ∃ response, settles r = Resolved response ∧
                 cached_in caches (event_request event) response) ∧
  (caches_match caches (event_request event) = None →
     settles r
     = Resolved
         (if decide (mode (event_request event) = navigate)
          then default unavailable
                 (caches_match caches (request_of absolute (js "/offline.html")))
          else unavailable)).
Proof.
  unfold onfetch. destruct (negb _); [done|].
  destruct (match range_header event with Some _ => _ | None => _ end); [done|].
  set (request := event_request event).
  assert (Hfallback :
    caches_match caches request = None →
    handleFetchError absolute request caches
    = if decide (mode request = navigate)
      then default unavailable
             (caches_match caches (request_of absolute (js "/offline.html")))
      else unavailable).
  { intros Hmiss. unfold handleFetchError. rewrite Hmiss.
    case_decide; [|done]. by destruct (caches_match caches (request_of _ _)). }
  intros [= <-].
  destruct (determineStrategy (event_url event) request); simpl.
  - unfold cacheFirst.
    destruct (caches_match caches request) as [c|] eqn:Hc; simpl.
    + split; [|done]. intros stored _. exists c. split; [done|].
      by apply caches_match_cached_in.
    + split; [done|]. intros _. exact (f_equal Resolved (Hfallback eq_refl)).
  - unfold networkFirst_catch.
    destruct (caches_match caches request) as [c|] eqn:Hc; simpl.
    + split; [|done]. intros stored _. exists c. split; [done|].
      by apply caches_match_cached_in.
    + split; [done|]. intros _. exact (f_equal Resolved (Hfallback eq_refl)).
  - destruct (caches_open_spec caches RUNTIME_CACHE) as (Hcache & _ & Hsame & _).
    pose proof (handleFetchError_open request caches RUNTIME_CACHE) as Hopen.
    unfold staleWhileRevalidate.
    destruct (caches_open caches RUNTIME_CACHE) as [caches1 cache].
    simpl in Hcache, Hsame, Hopen. simpl.
    destruct (cache_match cache request) as [stale|] eqn:Hstale; simpl.
    + assert (Hin : cached_in caches request stale).
      { subst cache.
        destruct (JsMap.get RUNTIME_CACHE caches) as [c|] eqn:Hget; simpl in *.
        - exists RUNTIME_CACHE, c. split; [|done]. by apply get_Some_elem_of.
        - by rewrite cache_match_empty in Hstale. }
      split; [by eauto|]. intros Hmiss.
      destruct Hin as (n & c & Hin & Hm). exfalso.
      clear -Hmiss Hin Hm. induction caches as [|[n0 c0] caches IH]; simpl in *.
      * by apply elem_of_nil in Hin.
      * destruct (cache_match c0 request) eqn:Hc0; [done|].
        apply elem_of_cons in Hin as [[= -> ->]|Hin]; [congruence|].
        by apply IH.
    + rewrite Hopen. split.
      * intros stored Hstored. exists stored. split.
        -- unfold handleFetchError. by rewrite Hstored.
        -- by apply caches_match_cached_in.
      * intros Hmiss. exact (f_equal Resolved (Hfallback Hmiss)).
Qed.

(** X17. A request whose method is not [GET], dispatched to cache
    first or network first, reaches the network; but when the
    response is ok the attempt to store it is refused, and the page
    is answered as if the network were down: outside a navigation,
    with the 503 answer in place of the response received. *)
Theorem unsafe_method_answered_503 event response caches r :
  method (event_request event) ≠ GET →
  mode (event_request event) ≠ navigate →
  determineStrategy (event_url event) (event_request event)
    ≠ StaleWhileRevalidate →
  ok response = true →
  onfetch absolute event (Resolved response) caches = Some r →
  settles r = Resolved unavailable ∧ fetched r = [event_request event].
Proof.
  intros Hm Hnav Hstrategy Hok. unfold onfetch. destruct (negb _); [done|].
  destruct (match range_header event with Some _ => _ | None => _ end); [done|].
  set (request := event_request event) in *.
  assert (Hfallback : ∀ caches0,
            handleFetchError absolute request caches0 = unavailable).
  { intros caches0. unfold handleFetchError.
    rewrite caches_match_not_GET by done. by case_decide. }
  destruct (cache_put_not_GET (caches_open caches RUNTIME_CACHE).2
              request response Hm) as [rejection Hput].
  intros [= <-].
  destruct (determineStrategy (event_url event) request); [| |done]; simpl.
  - unfold cacheFirst. rewrite caches_match_not_GET by done. rewrite Hok.
    destruct (caches_open caches RUNTIME_CACHE) as [caches1 cache].
    simpl in Hput. rewrite Hput. simpl. by rewrite Hfallback.
  - rewrite Hok.
    destruct (caches_open caches RUNTIME_CACHE) as [caches1 cache].
    simpl in Hput. rewrite Hput. unfold networkFirst_catch.
    rewrite caches_match_not_GET by done. simpl. by rewrite Hfallback.
Qed.

(** What [cacheUrls] leaves under a URL it was given. *)
Lemma cache_one_lookup network cache u x :
  cache_one absolute network cache u !! x
  = if decide (x = absolute u) then
      match network u with
      | Resolved response =>
          if ok response && http_scheme (absolute u)
             && negb (bool_decide (status response = 206%N))
          then Some response else cache !! x
      | Rejected _ => cache !! x
      end
    else cache !! x.
Proof.
  unfold cache_one, cache_put, request_of. cbn [method url].
  destruct (network u) as [response|error]; [|by case_decide].
  destruct (ok response), (http_scheme (absolute u)); simpl;
    try by case_decide.
  destruct (decide (GET = GET)) as [_|Hget]; [|done].
  destruct (decide (status response = 206%N)) as [H206|H206].
  - rewrite bool_decide_eq_true_2 by done. simpl. by case_decide.
  - rewrite bool_decide_eq_false_2 by done. simpl.
    case_decide as Hx.
    + subst x. by rewrite lookup_insert_eq.
    + by rewrite lookup_insert_ne.
Qed.

Lemma foldl_cache_one_other network urls cache x :
  x ∉ absolute <$> urls →
  foldl (cache_one absolute network) cache urls !! x = cache !! x.
Proof.
  revert cache. induction urls as [|u urls IH]; intros cache Hx; [done|].
  rewrite fmap_cons, not_elem_of_cons in Hx. destruct Hx as [Hu Hx].
  simpl. rewrite IH by done. rewrite cache_one_lookup. by case_decide.
Qed.

Lemma foldl_cache_one_lookup network urls cache u :
  NoDup (absolute <$> urls) → u ∈ urls →
  foldl (cache_one absolute network) cache urls !! absolute u
  = match network u with
    | Resolved response =>
        if ok response && http_scheme (absolute u)
           && negb (bool_decide (status response = 206%N))
        then Some response else cache !! absolute u
    | Rejected _ => cache !! absolute u
    end.
Proof.
  revert cache. induction urls as [|u0 urls IH]; intros cache Hnd Hu.
  { by apply elem_of_nil in Hu. }
  rewrite fmap_cons in Hnd. apply NoDup_cons in Hnd as [Hfresh Hnd].
  simpl. apply elem_of_cons in Hu as [->|Hu].
  - rewrite foldl_cache_one_other by done.
    rewrite cache_one_lookup. by case_decide.
  - rewrite IH by done.
    assert (Hne : absolute u ≠ absolute u0).
    { intros Heq. apply Hfresh. rewrite <- Heq.
      by apply list_elem_of_fmap_2. }
    rewrite cache_one_lookup. by case_decide.
Qed.

(** X18. [cacheUrls] never fails.  Of the URLs it is given (distinct
    ones), exactly those whose fetch resolves with an ok response
    that the cache accepts are stored in the runtime store, each
    under its own URL; every other entry of that store, and every
    other store, is as before. *)
Theorem cacheUrls_stores_ok_responses urls network caches :
  NoDup (absolute <$> urls) →
  ∃ cache,
    JsMap.get RUNTIME_CACHE (cacheUrls absolute urls network caches)
    = Some cache ∧
    (∀ u, u ∈ urls →
       cache !! absolute u
       = match network u with
         | Resolved response =>
             if ok response && http_scheme (absolute u)
                && negb (bool_decide (status response = 206%N))
             then Some response
             else default ∅ (JsMap.get RUNTIME_CACHE caches) !! absolute u
         | Rejected _ =>
             default ∅ (JsMap.get RUNTIME_CACHE caches) !! absolute u
         end) ∧
    (∀ x, x ∉ absolute <$> urls →
       cache !! x = default ∅ (JsMap.get RUNTIME_CACHE caches) !! x) ∧
    (∀ name, name ≠ RUNTIME_CACHE →
       JsMap.get name (cacheUrls absolute urls network caches)
       = JsMap.get name caches).
Proof.
  intros Hnd.
  destruct (caches_open_spec caches RUNTIME_CACHE) as (Hc & _ & _ & Hother).
  unfold cacheUrls.
  destruct (caches_open caches RUNTIME_CACHE) as [caches1 cache0].
  simpl in Hc, Hother. eexists. split; [|split; [|split]].
  - rewrite get_set. by rewrite decide_True.
  - intros u Hu. rewrite <- Hc. by apply foldl_cache_one_lookup.
  - intros x Hx. rewrite <- Hc. by apply foldl_cache_one_other.
  - intros name Hne. rewrite get_set. rewrite decide_False by done.
    by apply Hother.
Qed.

Lemma cache_addAll_None (network : jsstring → settled Response JsError) urls :
  foldl
    (λ (acc : option (gmap jsstring Response)) u,
       match acc, network u with
       | Some c, Resolved response =>
           if ok response && negb (bool_decide (status response = 206%N))
           then Some (<[absolute u := response]> c)
           else None
       | _, _ => None
       end)
    None urls = None.
Proof. by induction urls. Qed.

Lemma cache_addAll_spec network urls cache :
  match cache_addAll absolute urls network cache with
  | Some cache' =>
      Forall (λ u, ∃ response, network u = Resolved response ∧
                               ok response = true ∧ status response ≠ 206%N)
             urls ∧
      (∀ x, x ∉ absolute <$> urls → cache' !! x = cache !! x) ∧
      (NoDup (absolute <$> urls) →
       ∀ u, u ∈ urls → Resolved (E := JsError) <$> cache' !! absolute u
                       = Some (network u))
  | None =>
      ¬ Forall (λ u, ∃ response, network u = Resolved response ∧
                                 ok response = true ∧ status response ≠ 206%N)
               urls
  end.
Proof.
  unfold cache_addAll. revert cache.
  induction urls as [|u urls IH]; intros cache; simpl.
  { split; [constructor|]. split; [done|]. by intros _ u ?%elem_of_nil. }
  destruct (network u) as [response|error] eqn:Hu.
  2:{ rewrite cache_addAll_None. intros Hall.
      apply Forall_cons in Hall as [(r & Hr & _) _]. congruence. }
  destruct (ok response) eqn:Hok; simpl.
  2:{ rewrite cache_addAll_None. intros Hall.
      apply Forall_cons in Hall as [(r & Hr & Hr' & _) _]. congruence. }
  case_bool_decide as H206; simpl.
  { rewrite cache_addAll_None. intros Hall.
    apply Forall_cons in Hall as [(r & Hr & _ & Hr') _]. congruence. }
  specialize (IH (<[absolute u := response]> cache)).
  destruct (foldl _ _ urls) as [cache'|].
  - destruct IH as (Hall & Hother & Hin). split; [|split].
    + apply Forall_cons. split; [by eauto | done].
    + intros x [Hx Hxs]%not_elem_of_cons.
      rewrite Hother by done. by rewrite lookup_insert_ne.
    + intros [Hfresh Hnd]%NoDup_cons u' [->|Hu']%elem_of_cons.
      * rewrite Hother by done. rewrite lookup_insert_eq. simpl.
        by rewrite Hu.
      * by apply Hin.
  - intros [_ Hall]%Forall_cons. by apply IH.
Qed.

(** X19. Installation is all or nothing and never fails.  When every
    static asset is fetched with an ok response, the static store
    holds each asset's response under its URL and the worker skips
    waiting; when one is not, the static store is left as it was
    (empty if it had to be created) and the worker does not skip
    waiting.  No other store is touched. *)
Theorem install_all_or_nothing network caches :
  NoDup (absolute <$> STATIC_ASSETS) →
  (∀ name, name ≠ CACHE_NAME →
     JsMap.get name (install absolute network caches).1
     = JsMap.get name caches) ∧
  ((install absolute network caches).2 = true
   ↔ Forall (λ u, ∃ response, network u = Resolved response ∧
                              ok response = true ∧ status response ≠ 206%N)
            STATIC_ASSETS) ∧
  ∃ cache,
    JsMap.get CACHE_NAME (install absolute network caches).1 = Some cache ∧
    if (install absolute network caches).2
    then (∀ u, u ∈ STATIC_ASSETS →
            Resolved (E := JsError) <$> cache !! absolute u = Some (network u)) ∧
         (∀ x, x ∉ absolute <$> STATIC_ASSETS →
            cache !! x = default ∅ (JsMap.get CACHE_NAME caches) !! x)
    else cache = default ∅ (JsMap.get CACHE_NAME caches).
Proof.
  intros Hnd.
  destruct (caches_open_spec caches CACHE_NAME) as (Hc & Hget & _ & Hother).
  pose proof (cache_addAll_spec network STATIC_ASSETS
                (caches_open caches CACHE_NAME).2) as Hadd.
  unfold install.
  destruct (caches_open caches CACHE_NAME) as [caches1 cache0].
  simpl in Hc, Hget, Hother, Hadd.
  destruct (cache_addAll absolute STATIC_ASSETS network cache0) as [cache'|];
    simpl.
  - destruct Hadd as (Hall & Hrest & Hin). split; [|split].
    + intros name Hne. rewrite get_set. rewrite decide_False by done.
      by apply Hother.
    + done.
    + exists cache'. split; [rewrite get_set; by rewrite decide_True|].
      split; [by apply Hin|]. intros x Hx. rewrite <- Hc. by apply Hrest.
  - split; [done|]. split; [done|]. exists cache0. by rewrite <- Hc.
Qed.

End Listener.

Lemma filter_delete (n : jsstring) (names : list jsstring) (caches : CacheStorage) :
  List.filter (λ kv, bool_decide (kv.1 ∉ names)) (JsMap.delete n caches)
  = List.filter (λ kv, bool_decide (kv.1 ∉ n :: names)) caches.
Proof.
  induction caches as [|[k c] caches IHc]; [done|].
  cbn [JsMap.delete List.filter fst]. case_decide as Hk.
  - subst k. rewrite IHc. case_bool_decide as Hn; [|done].
    exfalso. apply Hn. by left.
  - cbn [List.filter fst]. rewrite IHc.
    case_bool_decide as H1; case_bool_decide as H2; try done; exfalso.
    + apply elem_of_cons in H2 as [?|?]; [congruence | done].
    + apply H2. by right.
Qed.

Lemma foldl_delete_filter (names : list jsstring) (caches : CacheStorage) :
  foldl caches_delete caches names
  = List.filter (λ kv, bool_decide (kv.1 ∉ names)) caches.
Proof.
  revert caches. induction names as [|n names IH]; intros caches.
  - induction caches as [|kv caches IHc]; [done|].
    cbn [List.filter foldl] in *.
    rewrite bool_decide_eq_true_2 by apply not_elem_of_nil. by f_equal.
  - cbn [foldl]. rewrite IH. apply filter_delete.
Qed.

(** X20. What [cleanupOldCaches] leaves is the storage it found with
    the stores under other names than the two current ones taken out:
    the stores kept are in the order they had, and cleaning a second
    time changes nothing. *)
Theorem cleanupOldCaches_keeps_current caches :
  cleanupOldCaches caches = List.filter (λ kv, kept kv.1) caches ∧
  cleanupOldCaches (cleanupOldCaches caches) = cleanupOldCaches caches.
Proof.
  assert (Hfilter : ∀ caches,
            cleanupOldCaches caches = List.filter (λ kv, kept kv.1) caches).
  { clear caches. intros caches. unfold cleanupOldCaches.
    rewrite foldl_delete_filter. apply filter_ext_in_iff.
    intros [k c] Hkc. simpl. unfold kept.
    apply eq_bool_prop_intro. rewrite Is_true_true, bool_decide_eq_true.
    rewrite Is_true_true, orb_true_iff, !bool_decide_eq_true.
    rewrite Activation.elem_of_old_caches. unfold caches_keys, JsMap.keys.
    assert (Hk : k ∈ map fst caches).
    { apply list_elem_of_In, in_map_iff. exists (k, c).
      split; [done | exact Hkc]. }
    destruct (decide (k = CACHE_NAME)), (decide (k = RUNTIME_CACHE)); tauto. }
  split; [apply Hfilter|]. rewrite !Hfilter.
  induction caches as [|[k c] caches IH]; [done|]. simpl.
  destruct (kept k) eqn:Hk; simpl; [|done]. by rewrite Hk, IH.
Qed.

End StrategyFacts.

(* ===================================================================== *)
(** * functions/index.js: what a request does to the leads                *)
(* ===================================================================== *)

Section SplitSegments.
Implicit Types (s w : jsstring) (sep : code).

Lemma split_cons_sep sep w s :
  sep ∉ w → split sep (w ++ sep :: s) = w :: split sep s.
Proof.
  induction w as [|c w IHw]; simpl.
  - intros _. by case_decide.
  - rewrite not_elem_of_cons. intros [Hc Hw].
    case_decide; [congruence|]. by rewrite IHw.
Qed.

(** The first segment ends at the first separator, or is the string. *)
Lemma split_head sep s :
  ∃ w ws, split sep s = w :: ws ∧ (sep ∉ w) ∧
          ((s = w ∧ ws = []) ∨ ∃ r, s = w ++ sep :: r ∧ ws = split sep r).
Proof.
  induction s as [|c s IHs]; simpl.
  - exists [], []. split; [done|]. split; [apply not_elem_of_nil | by left].
  - case_decide as Hc.
    + subst c. exists [], (split sep s). split; [done|].
      split; [apply not_elem_of_nil|]. right. by exists s.
    + destruct IHs as (w & ws & -> & Hw & Hs). exists (c :: w), ws.
      split; [done|]. split.
      { rewrite not_elem_of_cons. done. }
      destruct Hs as [[-> ->]|(r & -> & ->)]; [by left|].
      right. by exists r.
Qed.
End SplitSegments.

Module DomainFacts.
Import Endpoint.

(** X21. [validateEmailDomain] looks only at the text between the
    first [@] and the second (or the end): the address passes exactly
    when that text is not empty and, in lower case, is none of the six
    blocked domains.  What follows a second [@] is not looked at. *)
Theorem validateEmailDomain_exact (e : jsstring) :
  validateEmailDomain e = true
  ↔ ∃ local domain rest,
      e = local ++ at_sign :: domain ++ rest ∧
      (at_sign ∉ local) ∧ (at_sign ∉ domain) ∧
      (rest = [] ∨ ∃ r, rest = at_sign :: r) ∧
      domain ≠ [] ∧ (toLowerCase domain ∉ disposableDomains).
Proof.
  unfold validateEmailDomain. split.
  - destruct (split_head at_sign e) as (local & ws & Hsplit & Hlocal & Hcase).
    rewrite Hsplit. destruct Hcase as [[-> ->]|(r & -> & ->)]; [done|].
    destruct (split_head at_sign r) as (domain & ws & Hsplit' & Hdomain & Hcase).
    rewrite Hsplit'. simpl.
    destruct (truthy domain) eqn:Htruthy; [|done].
    intros Hblocked%negb_true_iff%bool_decide_eq_false.
    assert (Hne : domain ≠ []) by by destruct domain.
    destruct Hcase as [[-> ->]|(r' & -> & ->)].
    + exists local, domain, []. rewrite app_nil_r. by repeat split; auto.
    + exists local, domain, (at_sign :: r'). repeat split; eauto.
  - intros (local & domain & rest & -> & Hlocal & Hdomain & Hrest & Hne & Hok).
    rewrite split_cons_sep by done.
    assert (Hsplit : ∃ ws, split at_sign (domain ++ rest) = domain :: ws).
    { destruct Hrest as [->|[r ->]].
      - rewrite app_nil_r, split_no_sep by done. by eexists.
      - rewrite split_cons_sep by done. by eexists. }
    destruct Hsplit as [ws ->]. simpl.
    destruct domain as [|c domain]; [done|]. simpl.
    apply negb_true_iff, bool_decide_eq_false. exact Hok.
Qed.

End DomainFacts.

Module LeadFacts.
Import Endpoint Maintenance CaptureFacts.
Local Open Scope Z_scope.

Section Handler.
Variable emailSchema_validate : json → validation.
Variable normalizeEmail : jsstring → option jsstring.

Local Abbreviation post_email_capture :=
  (post_email_capture emailSchema_validate normalizeEmail).

(** What a request can do to the leads. *)
Lemma capture_cases req env db :
  (email_leads (post_email_capture req env db).1 = email_leads db ∧
   http_status (post_email_capture req env db).2 ≠ 200 ∧
   http_status (post_email_capture req env db).2 ≠ 201) ∨
  (∃ lead,
     email_leads (post_email_capture req env db).1 = email_leads db ++ [lead] ∧
     Forall (λ other, email other ≠ email lead) (email_leads db) ∧
     status lead = active ∧ subscriptionCount lead = 1 ∧
     http_status (post_email_capture req env db).2 = 201) ∨
  (∃ id old lead,
     email_leads db !! id = Some old ∧
     email_leads (post_email_capture req env db).1
       = <[id := lead]> (email_leads db) ∧
     (email lead = email old ∧ ip lead = ip old ∧
      userAgent lead = userAgent old ∧ referrer lead = referrer old ∧
      timestamp lead = timestamp old ∧ isNew lead = isNew old) ∧
     status lead = active ∧
     subscriptionCount lead = increment (subscriptionCount old) ∧
     (∀ k, is_Some (metadata old !! k) → is_Some (metadata lead !! k)) ∧
     leadId (response_json (post_email_capture req env db).2) = Some id ∧
     http_status (post_email_capture req env db).2 = 200).
Proof.
  unfold Endpoint.post_email_capture.
  destruct (rate_limited env); [left; by repeat split|].
  unfold email_capture.
  destruct (emailSchema_validate (body req)) as [value|msg].
  2:{ left. simpl. rewrite logAnalyticsEvent_leads. by repeat split. }
  destruct (sanitizeEmail normalizeEmail (value_email value)) as [e|];
    [|left; by repeat split].
  destruct (negb (truthy e)); [left; by repeat split|].
  destruct (negb (validateEmailDomain e)).
  { left. simpl. rewrite logAnalyticsEvent_leads. by repeat split. }
  destruct (query_rejects env).
  { left. simpl. rewrite logAnalyticsEvent_leads. by repeat split. }
  destruct (list_find _ _) as [[id old]|] eqn:Hfind.
  - apply list_find_Some in Hfind as (Hid & Hemail & _).
    destruct (write_rejects env).
    { left. simpl. rewrite logAnalyticsEvent_leads. by repeat split. }
    right. right. simpl. rewrite logAnalyticsEvent_leads. simpl.
    eexists id, old, _. split; [done|]. split; [done|]. simpl.
    split; [by repeat split|]. split; [done|]. split; [done|].
    split; [|done].
    intros k [v Hv]. destruct (default ∅ (value_metadata value) !! k) as [v'|] eqn:Hk.
    + exists v'. by apply lookup_union_Some_l.
    + exists v. rewrite lookup_union_r; done.
  - apply list_find_None in Hfind.
    destruct (write_rejects env).
    { left. simpl. rewrite logAnalyticsEvent_leads. by repeat split. }
    right. left. simpl. rewrite logAnalyticsEvent_leads. simpl.
    eexists. split; [done|]. simpl. split; [|done].
    eapply Forall_impl; [exact Hfind|]. intros other Hother. simpl in Hother.
    done.
Qed.

(** X22. Handling a request, of any kind and whatever the platform
    answers, keeps the addresses of the leads distinct. *)
Theorem capture_keeps_addresses_unique req env db :
  unique_emails db → unique_emails (post_email_capture req env db).1.
Proof.
  unfold unique_emails. intros Hnd.
  destruct (capture_cases req env db)
    as [(-> & _)|[(lead & -> & Hfresh & _)|
                  (id & old & lead & Hid & -> & (He & _) & _)]].
  - done.
  - rewrite fmap_app. apply NoDup_app. split; [done|]. split.
    + intros x Hx [Heq|[]%elem_of_nil]%elem_of_cons.
      apply list_elem_of_fmap in Hx as (other & Hx & Hother).
      rewrite Forall_forall in Hfresh. apply (Hfresh other Hother).
      congruence.
    + apply NoDup_singleton.
  - rewrite list_fmap_insert, He, list_insert_id; [done|].
    by rewrite list_lookup_fmap, Hid.
Qed.

(** X23. The leads change only with a 201 or a 200 answer.  With a
    201 one lead is appended, active and counted once.  With a 200
    one lead is rewritten in place: its address, the ip, user agent,
    referrer and time of its first subscription stay, its counter is
    incremented, it is active, and no metadata key it had is lost.
    With any other answer the leads are as before; and no request
    takes a lead away or moves one. *)
Theorem leads_change_only_on_success req env db :
  (http_status (post_email_capture req env db).2 = 201 →
   ∃ lead, email_leads (post_email_capture req env db).1
           = email_leads db ++ [lead] ∧
           status lead = active ∧ subscriptionCount lead = 1) ∧
  (http_status (post_email_capture req env db).2 = 200 →
   ∃ id old lead,
     email_leads db !! id = Some old ∧
     email_leads (post_email_capture req env db).1
       = <[id := lead]> (email_leads db) ∧
     (email lead = email old ∧ ip lead = ip old ∧
      userAgent lead = userAgent old ∧ referrer lead = referrer old ∧
      timestamp lead = timestamp old ∧ isNew lead = isNew old) ∧
     status lead = active ∧
     subscriptionCount lead = increment (subscriptionCount old) ∧
     ∀ k, is_Some (metadata old !! k) → is_Some (metadata lead !! k)) ∧
  (http_status (post_email_capture req env db).2 ≠ 201 →
   http_status (post_email_capture req env db).2 ≠ 200 →
   email_leads (post_email_capture req env db).1 = email_leads db) ∧
  (email <$> email_leads db)
    `prefix_of` (email <$> email_leads (post_email_capture req env db).1).
Proof.
  destruct (capture_cases req env db)
    as [(Hl & H200 & H201)|[(lead & Hl & Hfresh & Hs & Hc & Hst)|
         (id & old & lead & Hid & Hl & Hkept & Hs & Hc & Hm & Hlead & Hst)]];
    rewrite Hl.
  - split; [congruence|]. split; [congruence|]. done.
  - split; [intros _; by eauto|]. rewrite Hst.
    split; [done|]. split; [done|].
    rewrite fmap_app. by apply prefix_app_r.
  - rewrite Hst. split; [done|].
    split; [intros _; by eexists id, old, lead|]. split; [done|].
    rewrite list_fmap_insert, (proj1 Hkept), list_insert_id; [done|].
    by rewrite list_lookup_fmap, Hid.
Qed.

Lemma active_insert (leads : list Lead) id old lead :
  leads !! id = Some old → status lead = active →
  (length (List.filter (λ l, bool_decide (status l = active))
                       (<[id := lead]> leads))
   = length (List.filter (λ l, bool_decide (status l = active)) leads)
     + (if bool_decide (status old = active) then 0 else 1))%nat.
Proof.
  intros Hid Hactive. revert id Hid.
  induction leads as [|l leads IH]; intros [|id] Hid; simpl in *; try done.
  - injection Hid as ->. rewrite (bool_decide_eq_true_2 _ Hactive).
    destruct (bool_decide (status old = active)); simpl; lia.
  - specialize (IH id Hid).
    destruct (bool_decide (status l = active)); simpl; lia.
Qed.

(** X24. The statistics follow the leads: the active count never
    exceeds the total; a 201 answer adds one to both; a 200 answer
    leaves the total and adds one to the active count exactly when
    the lead it names had been marked as not active, leaving it as
    it was otherwise; any other answer leaves both. *)
Theorem stats_follow_capture req env db probe now :
  rate_limited probe = None → query_rejects probe = None →
  ∃ total active_ total' active',
    totalLeads (stats_json (get_stats probe now db)) = Some total ∧
    activeLeads (stats_json (get_stats probe now db)) = Some active_ ∧
    totalLeads (stats_json
                  (get_stats probe now (post_email_capture req env db).1))
    = Some total' ∧
    activeLeads (stats_json
                   (get_stats probe now (post_email_capture req env db).1))
    = Some active' ∧
    (active_ ≤ total)%nat ∧ (active' ≤ total')%nat ∧
    (http_status (post_email_capture req env db).2 = 201 →
     total' = S total ∧ active' = S active_) ∧
    (http_status (post_email_capture req env db).2 = 200 →
     total' = total ∧
     ∃ id old,
       leadId (response_json (post_email_capture req env db).2) = Some id ∧
       email_leads db !! id = Some old ∧
       active' = if bool_decide (status old = active)
                 then active_ else S active_) ∧
    (http_status (post_email_capture req env db).2 ≠ 201 →
     http_status (post_email_capture req env db).2 ≠ 200 →
     total' = total ∧ active' = active_).
Proof.
  intros Hrate Hquery. unfold get_stats. rewrite Hrate, Hquery. simpl.
  eexists _, _, _, _. do 4 (split; [reflexivity|]).
  assert (Hle : ∀ leads : list Lead,
            (length (List.filter (λ l, bool_decide (status l = active)) leads)
             ≤ length leads)%nat).
  { intros leads. induction leads as [|l leads IH]; simpl; [lia|].
    destruct (bool_decide (status l = active)); simpl; lia. }
  split; [apply Hle|]. split; [apply Hle|].
  destruct (capture_cases req env db)
    as [(Hl & H200 & H201)|[(lead & Hl & Hfresh & Hs & Hc & Hst)|
         (id & old & lead & Hid & Hl & Hkept & Hs & Hc & Hm & Hlead & Hst)]];
    rewrite Hl.
  - split; [congruence|]. split; [congruence|]. done.
  - rewrite Hst. split; [|split; [done|tauto]]. intros _.
    rewrite List.filter_app, !length_app. simpl.
    rewrite (bool_decide_eq_true_2 _ Hs). simpl. lia.
  - rewrite Hst. split; [done|]. split; [|tauto]. intros _.
    rewrite length_insert, (active_insert _ _ _ _ Hid Hs).
    split; [done|]. exists id, old. split; [exact Hlead|].
    split; [exact Hid|]. case_bool_decide; lia.
Qed.

(** X25. A request the rate limiter turns down is answered 429
    without touching the database, and the same number of seconds,
    at least one, is announced in the [Retry-After] header and in
    the body: the milliseconds to wait rounded to the nearest
    second.  The statistics route announces the same. *)
Theorem rate_limited_answer req env db now ms :
  rate_limited env = Some ms → 0 ≤ ms →
  (post_email_capture req env db).1 = db ∧
  http_status (post_email_capture req env db).2 = 429 ∧
  retry_after_header (post_email_capture req env db).2
  = Some (retry_seconds ms) ∧
  retryAfter (response_json (post_email_capture req env db).2)
  = Some (retry_seconds ms) ∧
  stats_status (get_stats env now db) = 429 ∧
  stats_retry_after_header (get_stats env now db) = Some (retry_seconds ms) ∧
  1 ≤ retry_seconds ms ∧
  (ms < 500 → retry_seconds ms = 1) ∧
  (500 ≤ ms →
   1000 * retry_seconds ms - 500 ≤ ms < 1000 * retry_seconds ms + 500).
Proof.
  intros Hrate Hms. unfold Endpoint.post_email_capture, get_stats.
  rewrite Hrate. simpl. do 6 (split; [reflexivity|]).
  destruct (decide (ms = 0)) as [->|Hnz].
  { change (retry_seconds 0) with 1. lia. }
  unfold retry_seconds.
  destruct (decide (ms = 0)) as [|_]; [done|].
  pose proof (Z.div_mod (ms + 500) 1000 ltac:(lia)) as Hdiv.
  pose proof (Z.mod_pos_bound (ms + 500) 1000 ltac:(lia)) as Hmod.
  case_decide as Hr; lia.
Qed.

End Handler.
End LeadFacts.

(* ===================================================================== *)
(** * functions/index.js: the analytics sweep                             *)
(* ===================================================================== *)

Module SweepFacts.
Import Endpoint Maintenance.
Local Open Scope Z_scope.

Lemma imap_pair_snd {A B} (g : nat → B) (l : list A) :
  (imap (λ i x, (g i, x)) l).*2 = l.
Proof.
  revert g. induction l as [|x l IH]; intros g; [done|].
  rewrite imap_cons, fmap_cons. simpl. f_equal. apply (IH (g ∘ S)).
Qed.

Lemma imap_pair_fst {A} (l : list A) : (imap pair l).*1 = seq 0 (length l).
Proof.
  rewrite fmap_imap. rewrite <- (list_fmap_id (seq 0 (length l))).
  apply (imap_seq_0 l id).
Qed.

Lemma elem_of_imap_pair {A} (l : list A) i x :
  (i, x) ∈ imap pair l ↔ l !! i = Some x.
Proof.
  rewrite elem_of_lookup_imap. split.
  - by intros (j & y & [= -> ->] & Hy).
  - intros Hx. by exists i, x.
Qed.

(** The documents the query returns are documents of the collection
    that are older than the cutoff, at most 500 of them. *)
Lemma oldEventsQuery_sound cutoff events doc :
  doc ∈ oldEventsQuery cutoff events →
  events !! doc.1 = Some doc.2 ∧ event_timestamp doc.2 < cutoff.
Proof.
  unfold oldEventsQuery. intros Hdoc.
  apply (λ H, elem_of_sublist _ _ _ H (sublist_take _ _)) in Hdoc.
  rewrite merge_sort_Permutation in Hdoc.
  apply list_elem_of_In, filter_In in Hdoc as [Hin Hold].
  apply list_elem_of_In in Hin. destruct doc as [i ev].
  split; [by apply elem_of_imap_pair|].
  by apply bool_decide_eq_true in Hold.
Qed.

Lemma oldEventsQuery_length cutoff events :
  (length (oldEventsQuery cutoff events) ≤ 500)%nat.
Proof. unfold oldEventsQuery. rewrite length_take. lia. Qed.

Lemma oldEventsQuery_complete cutoff events i ev :
  (length (List.filter (older_than cutoff) (imap pair events)) ≤ 500)%nat →
  events !! i = Some ev → event_timestamp ev < cutoff →
  (i, ev) ∈ oldEventsQuery cutoff events.
Proof.
  intros Hfew Hi Hold. unfold oldEventsQuery.
  rewrite take_ge.
  - rewrite merge_sort_Permutation. apply list_elem_of_In, filter_In.
    split; [by apply list_elem_of_In, elem_of_imap_pair|].
    by apply bool_decide_eq_true.
  - by rewrite merge_sort_Permutation.
Qed.

Lemma filter_fmap_sublist {A B} (f : A → B) (p : A → bool) (l : list A) :
  sublist (f <$> List.filter p l) (f <$> l).
Proof.
  induction l as [|x l IH]; [done|]. simpl.
  destruct (p x); simpl; [by apply sublist_skip | by apply sublist_cons].
Qed.

Lemma filter_recent_kept cutoff (keep : event_doc → bool) (docs : list event_doc) :
  (∀ doc, doc ∈ docs → recent cutoff doc.2 = true → keep doc = true) →
  List.filter (recent cutoff) (List.filter keep docs).*2
  = List.filter (recent cutoff) docs.*2.
Proof.
  induction docs as [|doc docs IH]; intros Hkeep; [done|]. simpl.
  destruct (recent cutoff doc.2) eqn:Hrecent.
  - rewrite (Hkeep doc) by (by left || done). simpl. rewrite Hrecent.
    f_equal. apply IH. intros d Hd. apply Hkeep. by right.
  - destruct (keep doc); simpl; rewrite ?Hrecent; apply IH;
      intros d Hd; apply Hkeep; by right.
Qed.

Lemma batch_delete_recent cutoff events :
  List.filter (recent cutoff)
    (batch_delete (oldEventsQuery cutoff events) events)
  = List.filter (recent cutoff) events.
Proof.
  unfold batch_delete. rewrite filter_recent_kept.
  - by rewrite (imap_pair_snd id).
  - intros [i ev] Hdoc Hrecent. apply bool_decide_eq_true.
    intros (doc & Hi & Hin)%list_elem_of_fmap.
    apply oldEventsQuery_sound in Hin as [Hlookup Hold].
    apply elem_of_imap_pair in Hdoc. simpl in *. subst i.
    rewrite Hdoc in Hlookup. injection Hlookup as Hev.
    apply bool_decide_eq_true in Hrecent. rewrite <- Hev in Hold. lia.
Qed.

Lemma batch_delete_sublist docs events :
  sublist (batch_delete docs events) events.
Proof.
  unfold batch_delete.
  rewrite <- (imap_pair_snd id events) at 2. apply filter_fmap_sublist.
Qed.

Lemma batch_delete_length docs events :
  (length events ≤ length (batch_delete docs events) + length docs)%nat.
Proof.
  unfold batch_delete. rewrite length_fmap.
  pose proof (List.filter_length
                (λ doc : event_doc, bool_decide (doc.1 ∉ docs.*1))
                (imap pair events)) as Hsplit.
  rewrite length_imap in Hsplit.
  assert (Hgone :
    (length (List.filter
               (λ doc : event_doc, negb (bool_decide (doc.1 ∉ docs.*1)))
               (imap pair events)).*1
     ≤ length docs.*1)%nat).
  { apply submseteq_length, NoDup_submseteq.
    - eapply sublist_NoDup; [|apply filter_fmap_sublist].
      rewrite imap_pair_fst. apply NoDup_seq.
    - intros i (doc & -> & Hdoc)%list_elem_of_fmap.
      apply list_elem_of_In, filter_In in Hdoc as [_ Hdoc].
      apply negb_true_iff, bool_decide_eq_false in Hdoc.
      by apply dec_stable. }
  rewrite !length_fmap in Hgone. cbv beta in Hsplit.
  unfold event_doc in *. lia.
Qed.

(** X26. The daily sweep never touches the leads and never removes an
    analytics event that is less than thirty days old: the events it
    leaves are the ones it found, in their order, less at most 500 of
    them, every one of those older than thirty days.  When its promise
    rejects, the database is as it was. *)
Theorem sweep_spares_recent env now db :
  email_leads (cleanupAnalytics env now db).1 = email_leads db ∧
  sublist (analytics_events (cleanupAnalytics env now db).1)
          (analytics_events db) ∧
  List.filter (recent (thirtyDaysAgo now))
              (analytics_events (cleanupAnalytics env now db).1)
  = List.filter (recent (thirtyDaysAgo now)) (analytics_events db) ∧
  (length (analytics_events db)
   ≤ length (analytics_events (cleanupAnalytics env now db).1) + 500)%nat ∧
  ∀ error, (cleanupAnalytics env now db).2 = Rejected error →
           (cleanupAnalytics env now db).1 = db.
Proof.
  unfold cleanupAnalytics.
  destruct (query_rejects env); simpl; [by repeat split; try lia|].
  pose proof (batch_delete_recent (thirtyDaysAgo now) (analytics_events db))
    as Hrecent.
  pose proof (batch_delete_sublist
                (oldEventsQuery (thirtyDaysAgo now) (analytics_events db))
                (analytics_events db)) as Hsub.
  pose proof (batch_delete_length
                (oldEventsQuery (thirtyDaysAgo now) (analytics_events db))
                (analytics_events db)) as Hlen.
  pose proof (oldEventsQuery_length (thirtyDaysAgo now) (analytics_events db))
    as Hmax.
  destruct (oldEventsQuery _ _) as [|doc docs];
    simpl; [by repeat split; try lia|].
  destruct (write_rejects env); simpl; [by repeat split; try lia|].
  split; [done|]. split; [done|]. split; [done|]. split; [|done].
  simpl in Hlen, Hmax. lia.
Qed.

(** X27. When the database answers and at most 500 events are older
    than thirty days, one run of the sweep removes them all: every
    event left is less than thirty days old. *)
Theorem sweep_removes_old env now db :
  query_rejects env = None → write_rejects env = None →
  (length (List.filter (older_than (thirtyDaysAgo now))
                       (imap pair (analytics_events db))) ≤ 500)%nat →
  (cleanupAnalytics env now db).2 = Resolved tt ∧
  Forall (λ ev, thirtyDaysAgo now ≤ event_timestamp ev)
         (analytics_events (cleanupAnalytics env now db).1).
Proof.
  intros Hquery Hwrite Hfew. unfold cleanupAnalytics. rewrite Hquery, Hwrite.
  pose proof (oldEventsQuery_complete (thirtyDaysAgo now) (analytics_events db))
    as Hall.
  destruct (oldEventsQuery _ _) as [|doc docs] eqn:Hquery'; simpl.
  - split; [done|]. apply Forall_forall. intros ev Hev.
    apply list_elem_of_lookup in Hev as [i Hi].
    destruct (decide (event_timestamp ev < thirtyDaysAgo now)) as [Hold|]; [|lia].
    specialize (Hall i ev Hfew Hi Hold). by apply elem_of_nil in Hall.
  - split; [done|]. apply Forall_forall. intros ev Hev.
    unfold batch_delete in Hev.
    apply list_elem_of_fmap in Hev as ([i ev'] & -> & Hdoc).
    apply list_elem_of_In, filter_In in Hdoc as [Hin Hkeep].
    apply list_elem_of_In, elem_of_imap_pair in Hin.
    apply bool_decide_eq_true in Hkeep. cbn [fst snd] in *.
    destruct (decide (event_timestamp ev' < thirtyDaysAgo now)) as [Hold|]; [|lia].
    exfalso. apply Hkeep.
    apply list_elem_of_fmap. exists (i, ev'). split; [done|]. by apply Hall.
Qed.

End SweepFacts.

(* ===================================================================== *)
(** * Worked sessions, requests and runs                                   *)
(* ===================================================================== *)

Module SessionExamples.
Import Forms FormFacts FormSession SessionInvariant SubmissionFacts.

Lemma two_keystrokes_reachable :
  reachable landing_page (state_after landing_page two_keystrokes).
Proof.
  apply (run_reachable _ (initializeForms landing_page) two_keystrokes);
    [apply reachable_init|].
  vm_compute. reflexivity.
Qed.

Lemma not_invalid_checked fc :
  forallb (λ kf : jsstring * Field.t, (validateField kf.2).2) (Form.fields fc)
  = true →
  Forall (λ kf, ¬ invalid kf.2) (Form.fields fc).
Proof.
  intros Hall. apply Forall_forall. intros kf Hkf%list_elem_of_In.
  rewrite forallb_forall in Hall. unfold invalid.
  by rewrite (Hall kf Hkf).
Qed.

(** The first form of the landing page while its request is in
    flight. *)
Lemma fields_stay_as_initialized_witness :
  as_initialized (signup false) first_form_in_flight.
Proof.
  apply (fields_stay_as_initialized landing_page
           (state_after landing_page first_form_submitted) 0).
  - apply FormExamples.first_form_submitted_reachable.
  - reflexivity.
  - vm_compute. reflexivity.
Defined.

Lemma button_label_follows_loading_witness :
  ∃ b, Form.submitButton first_form_in_flight = Some b ∧
       textContent b
       = if Form.loadingState first_form_in_flight
         then js "Submitting..." else js "Subscribe".
Proof.
  apply (button_label_follows_loading landing_page
           (state_after landing_page first_form_submitted) 0
           (signup false) first_form_in_flight (false, js "Subscribe")).
  - apply FormExamples.first_form_submitted_reachable.
  - reflexivity.
  - vm_compute. reflexivity.
  - reflexivity.
  - vm_compute. discriminate.
Defined.

Lemma marks_agree_with_validity_witness :
  ∃ k f, Form.fields first_form_in_flight = [(k, f)] ∧
         Field.is_valid f = true ∧ marked_as_reported f.
Proof.
  eexists _, _. split; [vm_compute; reflexivity|]. split; [reflexivity|].
  apply (marks_agree_with_validity landing_page
           (state_after landing_page first_form_submitted) 0
           first_form_in_flight email_key).
  - apply FormExamples.first_form_submitted_reachable.
  - vm_compute. reflexivity.
  - vm_compute. apply elem_of_cons. left. reflexivity.
Defined.

Lemma malformed_address_reachable :
  reachable signup_page (state_after signup_page malformed_address).
Proof.
  apply (run_reachable _ (initializeForms signup_page) malformed_address);
    [apply reachable_init|].
  vm_compute. reflexivity.
Qed.

(** The field is left with [ada] in it: the error is shown, under a
    field marked invalid. *)
Lemma error_shown_under_invalid_witness :
  ∃ k f,
    Form.fields form_left_malformed = [(k, f)] ∧
    Field.errorVisible f = true ∧ error_as_marked f.
Proof.
  eexists _, _. split; [vm_compute; reflexivity|]. split; [reflexivity|].
  apply (error_shown_under_invalid signup_page
           (state_after signup_page malformed_address) 0
           form_left_malformed email_key).
  - apply (bool_decide_eq_true_1 _). vm_compute. reflexivity.
  - apply malformed_address_reachable.
  - vm_compute. reflexivity.
  - vm_compute. apply elem_of_cons. left. reflexivity.
Defined.

(** The reset that follows a submission of the first form: its field
    has validators, so the button is disabled. *)
Lemma reset_clears_validation_witness :
  ∃ fc' b',
    forms (resetForm 0 (state_after landing_page first_form_submitted)) !! 0
    = Some fc' ∧
    Form.isValid fc' = false ∧
    Form.submitButton fc' = Some b' ∧ disabled b' = true.
Proof.
  destruct (reset_clears_validation
              (state_after landing_page first_form_submitted) 0
              first_form_in_flight)
    as (fc' & Hforms & _ & _ & Hvalid & Hbutton).
  - vm_compute. reflexivity.
  - destruct (Hbutton (mkButton true false true (js "Submitting...")
                         (Some (js "Subscribe"))))
      as (b' & Hb' & Hdisabled & _).
    + vm_compute. reflexivity.
    + assert (Hinvalid : Form.isValid fc' = false).
      { rewrite Hvalid. vm_compute. reflexivity. }
      exists fc', b'. split; [exact Hforms|]. split; [exact Hinvalid|].
      split; [exact Hb'|]. rewrite Hdisabled, Hinvalid. reflexivity.
Defined.

(** Two keystrokes leave one timer. *)
Lemma one_pending_validation_per_field_witness :
  NoDup (List.filter is_validation_timer
           (timers (state_after landing_page two_keystrokes))).
Proof.
  apply (one_pending_validation_per_field landing_page).
  apply two_keystrokes_reachable.
Defined.

(** The validated first form is submitted. *)
Lemma valid_submit_sends_once_witness :
  requests (handleSubmit 0 (state_after landing_page address_validated))
  = requests (state_after landing_page address_validated) ++ [0] ∧
  inflight (handleSubmit 0 (state_after landing_page address_validated))
  = inflight (state_after landing_page address_validated) ++ [0].
Proof.
  destruct (valid_submit_sends_once
              (state_after landing_page address_validated) 0
              first_form_validated) as (Hrequests & Hinflight & _).
  - vm_compute. reflexivity.
  - vm_compute. reflexivity.
  - vm_compute. reflexivity.
  - apply not_invalid_checked. vm_compute. reflexivity.
  - split; [exact Hrequests | exact Hinflight].
Defined.

(** The request of the first form fails. *)
Lemma settled_submission_unlocks_witness :
  isSubmitting (handleSubmit_settled 0 (Rejected http_500)
                  (state_after landing_page first_form_submitted)) = false ∧
  inflight (handleSubmit_settled 0 (Rejected http_500)
              (state_after landing_page first_form_submitted)) = [].
Proof.
  destruct (settled_submission_unlocks landing_page
              (state_after landing_page first_form_submitted) 0
              (Rejected http_500)
              FormExamples.first_form_submitted_reachable)
    as (Hlock & Hinflight & _).
  - vm_compute. apply elem_of_cons. left. reflexivity.
  - split; [exact Hlock | exact Hinflight].
Defined.

End SessionExamples.

Module StrategyExamples.
Import ServiceWorker Strategies StrategyFacts.

Lemma site_distinct (urls : list jsstring) :
  bool_decide (NoDup (site <$> urls)) = true → NoDup (site <$> urls).
Proof. apply bool_decide_eq_true_1. Qed.

(** A stylesheet is fetched once; after that the network can go. *)
Lemma cacheFirst_fetches_once_witness :
  settles (cacheFirst stylesheet (Resolved fine) []) = Resolved fine ∧
  cacheFirst stylesheet (Rejected offline)
    (storage (cacheFirst stylesheet (Resolved fine) []))
  = {| storage := storage (cacheFirst stylesheet (Resolved fine) []);
       settles := Resolved fine;
       fetched := [] |}.
Proof.
  apply (proj2 (proj2 (cacheFirst_fetches_once stylesheet (Resolved fine) []))
           fine (Rejected offline)).
  - reflexivity.
  - reflexivity.
  - reflexivity.
  - vm_compute. reflexivity.
  - vm_compute. discriminate.
Defined.

(** [/api/data] while the network is down. *)
Lemma offline_answer_witness :
  ∃ r response,
    onfetch site api_data_event (Rejected offline) stored_api_data = Some r ∧
    settles r = Resolved response ∧
    cached_in stored_api_data api_data response.
Proof.
  assert (Hr : onfetch site api_data_event (Rejected offline) stored_api_data
               = Some {| storage := stored_api_data;
                         settles := Resolved older;
                         fetched := [api_data] |})
    by (vm_compute; reflexivity).
  destruct (proj1 (offline_answer site api_data_event offline stored_api_data
                     _ Hr) older) as (response & Hsettles & Hcached).
  - vm_compute. reflexivity.
  - eexists _, response. split; [exact Hr|]. split; [exact Hsettles|].
    exact Hcached.
Defined.

(** The submission of a form reaches the server, which answers 200. *)
Lemma unsafe_method_answered_503_witness :
  ∃ r, onfetch site api_subscribe_event (Resolved fine) [] = Some r ∧
       settles r = Resolved unavailable ∧ fetched r = [api_subscribe].
Proof.
  assert (Hr : onfetch site api_subscribe_event (Resolved fine) []
               = Some {| storage := [(RUNTIME_CACHE, ∅)];
                         settles := Resolved unavailable;
                         fetched := [api_subscribe] |})
    by (vm_compute; reflexivity).
  eexists. split; [exact Hr|].
  apply (unsafe_method_answered_503 site api_subscribe_event fine [] _);
    [| | | |exact Hr].
  - vm_compute. discriminate.
  - discriminate.
  - vm_compute. discriminate.
  - vm_compute. reflexivity.
Defined.

Lemma cacheUrls_stores_ok_responses_witness :
  ∃ cache,
    JsMap.get RUNTIME_CACHE (cacheUrls site two_urls only_pricing [])
    = Some cache ∧
    cache !! site (js "/pricing.html") = Some fine ∧
    cache !! site (js "/missing.html") = None.
Proof.
  destruct (cacheUrls_stores_ok_responses site two_urls only_pricing [])
    as (cache & Hget & Hin & _).
  - apply site_distinct. vm_compute. reflexivity.
  - exists cache. split; [exact Hget|]. split.
    + etrans; [apply Hin; apply elem_of_cons; left; reflexivity|].
      vm_compute. reflexivity.
    + etrans; [apply Hin; apply elem_of_cons; right;
               apply elem_of_cons; left; reflexivity|].
      vm_compute. reflexivity.
Defined.

(** Every static asset is there. *)
Lemma install_all_or_nothing_witness :
  (install site all_fine []).2 = true.
Proof.
  apply (proj1 (proj2 (install_all_or_nothing site all_fine []
                         (site_distinct STATIC_ASSETS
                            ltac:(vm_compute; reflexivity))))).
  apply Forall_forall. intros u _. exists fine.
  split; [reflexivity|]. split; [vm_compute; reflexivity|].
  vm_compute. discriminate.
Defined.

End StrategyExamples.

Module LeadExamples.
Import Endpoint Maintenance LeadFacts SweepFacts.
Local Open Scope Z_scope.

(** The same address is sent twice. *)
Lemma capture_keeps_addresses_unique_witness :
  unique_emails
    (post_email_capture example_validate example_normalize
       (request_for "Ada@Example.org") quiet
       (post_email_capture example_validate example_normalize
          (request_for "ada@example.org") quiet empty_db).1).1.
Proof.
  apply capture_keeps_addresses_unique.
  apply capture_keeps_addresses_unique.
  apply NoDup_nil_2.
Defined.

(** The statistics before and after a lead that was not active
    subscribes again. *)
Lemma stats_follow_capture_witness :
  ∃ total active_ total' active',
    totalLeads (stats_json (get_stats quiet sweep_time lapsed_db)) = Some total ∧
    activeLeads (stats_json (get_stats quiet sweep_time lapsed_db))
    = Some active_ ∧
    totalLeads
      (stats_json
         (get_stats quiet sweep_time
            (post_email_capture example_validate example_normalize
               (request_for "ada@example.org") quiet lapsed_db).1))
    = Some total' ∧
    activeLeads
      (stats_json
         (get_stats quiet sweep_time
            (post_email_capture example_validate example_normalize
               (request_for "ada@example.org") quiet lapsed_db).1))
    = Some active' ∧
    total' = total ∧ active' = S active_.
Proof.
  destruct (stats_follow_capture example_validate example_normalize
              (request_for "ada@example.org") quiet lapsed_db quiet sweep_time
              eq_refl eq_refl)
    as (total & active_ & total' & active' & Ht & Ha & Ht' & Ha' & _ & _
        & _ & Hupdated & _).
  exists total, active_, total', active'.
  split; [exact Ht|]. split; [exact Ha|]. split; [exact Ht'|].
  split; [exact Ha'|].
  destruct Hupdated as (Htotal & id & old & Hid & Hold & Hactive).
  { vm_compute. reflexivity. }
  split; [exact Htotal|].
  vm_compute in Hid. injection Hid as <-.
  vm_compute in Hold. injection Hold as <-.
  exact Hactive.
Defined.

Lemma rate_limited_answer_witness :
  retry_after_header
    (post_email_capture example_validate example_normalize
       (request_for "ada@example.org") throttled empty_db).2
  = Some (retry_seconds 1499) ∧
  retry_seconds 1499 = 1.
Proof.
  destruct (rate_limited_answer example_validate example_normalize
              (request_for "ada@example.org") throttled empty_db sweep_time
              1499 eq_refl ltac:(lia))
    as (_ & _ & Hheader & _ & _ & _ & _ & _ & Hnearest).
  split; [exact Hheader|]. lia.
Defined.

(** The event a millisecond too old goes, the one exactly thirty days
    old stays. *)
Lemma sweep_removes_old_witness :
  (cleanupAnalytics quiet sweep_time two_events).2 = Resolved tt ∧
  Forall (λ ev, thirtyDaysAgo sweep_time ≤ event_timestamp ev)
         (analytics_events (cleanupAnalytics quiet sweep_time two_events).1).
Proof.
  apply (sweep_removes_old quiet sweep_time two_events).
  - reflexivity.
  - reflexivity.
  - apply Nat.leb_le. vm_compute. reflexivity.
Defined.

End LeadExamples.
